(** * WebRtcPeer: negotiation logic of [src/main.ts] and its utility module

    A shallow embedding of the candidate gate ([bufferizeCandidates]), the
    SDP mangler ([removeFIDFromOffer], [getSimulcastInfo],
    [mangleSdpToAddSimulcast]) and of the peer operations [processOffer],
    [dispose] and the outbound candidate buffer of the [WebRtcPeer]
    constructor.

    Conventions.
    - JavaScript strings are modelled by [string]; the marker and the
      simulcast template are plain ASCII.
    - [indexOf] returns a [Z] ([-1] when the pattern is absent) and [slice]
      follows String.prototype.slice, with its clamping written out.
    - The browser objects (RTCPeerConnection, RTCDataChannel, media
      elements, promises) are external: they are modelled by explicit state
      records and by oracles for the results the browser decides. *)

From Stdlib Require Import String Ascii List ZArith Bool Lia.
From stdpp Require Import base option list gmap.

Local Open Scope string_scope.
Local Open Scope Z_scope.

(** ** JavaScript string primitives *)

Module Js.

(** [s.indexOf(pat)]: offset of the first occurrence, [-1] if none. *)
Definition indexOf (s pat : string) : Z :=
  match String.index 0 pat s with
  | Some n => Z.of_nat n
  | None => -1
  end.

(** One bound of [slice]: negative bounds count from the end, and the
    result is clamped to [0 .. len]. *)
Definition clamp (len k : Z) : Z :=
  if k <? 0 then Z.max (len + k) 0 else Z.min k len.

(** [s.slice(b, e)]. *)
Definition slice (s : string) (b e : Z) : string :=
  let len := Z.of_nat (String.length s) in
  let from := clamp len b in
  let to := clamp len e in
  String.substring (Z.to_nat from) (Z.to_nat (Z.max (to - from) 0)) s.

(** [s.split("\n")]: the lines of a text. *)
Definition LF : ascii := Ascii.ascii_of_nat 10.

Fixpoint lines_from (cur : string) (s : string) : list string :=
  match s with
  | EmptyString => [cur]
  | String c s' =>
      if Ascii.eqb c LF then cur :: lines_from "" s'
      else lines_from (cur ++ String c "") s'
  end.

Definition lines (s : string) : list string := lines_from "" s.

(** [s.includes(c)] for one character. *)
Fixpoint has_char (c : ascii) (s : string) : bool :=
  match s with
  | EmptyString => false
  | String d s' => Ascii.eqb c d || has_char c s'
  end.

End Js.

(** ** The SDP mangler *)

Definition FID_MARKER : string := "a=ssrc-group:FID".

(** [removeFIDFromOffer], as in the source:
<<
  const n = sdp.indexOf('a=ssrc-group:FID')
  return n > 0 ? sdp.slice(0, n) : sdp
>> *)
Definition removeFIDFromOffer (sdp : string) : string :=
  let n := Js.indexOf sdp FID_MARKER in
  if 0 <? n then Js.slice sdp 0 n else sdp.

(** ** Browser data: logs, tracks, streams, session descriptions *)

Inductive LogLevel := LogDebug | LogWarn | LogInfo.
Definition LogEntry : Type := LogLevel * string.

Inductive TrackKind := audio | video.

Record MediaStreamTrack := {
  track_kind : TrackKind;
  track_id : string;
  track_ended : bool          (* readyState = 'ended', set by stop() *)
}.

Record MediaStream := {
  stream_id : string;
  stream_tracks : list MediaStreamTrack
}.

Definition is_video (t : MediaStreamTrack) : bool :=
  match track_kind t with video => true | audio => false end.

Definition getVideoTracks (s : MediaStream) : list MediaStreamTrack :=
  List.filter is_video (stream_tracks s).

Inductive RTCSdpType := offer | answer | pranswer | rollback.

(** RTCSessionDescriptionInit / RTCSessionDescription: a type tag and the
    payload. The descriptions the peer mangles come from createOffer and
    createAnswer, which always fill [sdp] (the source asserts it with
    [answer.sdp!]). *)
Record RTCSessionDescription := {
  type : RTCSdpType;
  sdp : string
}.

(** One line of the template literal of [getSimulcastInfo] per element;
    the literal's line breaks are the separators. The stray [,] and ['] of
    the source are kept. *)
Definition simulcastTemplate (streamId trackId : string) : list string :=
  [ "a=x-google-flag:conference";
    "a=ssrc-group:SIM 1 2 3";
    "a=ssrc:1 cname:localVideo";
    "a=ssrc:1 msid:" ++ streamId ++ " " ++ trackId ++ ",";
    "a=ssrc:1 mslabel:" ++ streamId ++ ",";
    "a=ssrc:1 label:" ++ trackId;
    "a=ssrc:2 cname:localVideo'";
    "a=ssrc:2 msid:" ++ streamId ++ " " ++ trackId ++ ",";
    "a=ssrc:2 mslabel:" ++ streamId;
    "a=ssrc:2 label:" ++ trackId;
    "a=ssrc:3 cname:localVideo";
    "a=ssrc:3 msid:" ++ streamId ++ " " ++ trackId ++ ",";
    "a=ssrc:3 mslabel:" ++ streamId;
    "a=ssrc:3 label:" ++ trackId ]%string.

(** [a.join(sep)] without a trailing separator. *)
Fixpoint join (sep : string) (ls : list string) : string :=
  match ls with
  | [] => ""
  | [x] => x
  | x :: xs => x ++ sep ++ join sep xs
  end.

(** [getSimulcastInfo]: the block and what it writes to the console. *)
Definition getSimulcastInfo (videoStream : MediaStream) : string * list LogEntry :=
  match getVideoTracks videoStream with
  | [] => ("", [(LogWarn, "No video tracks available in the video stream")])
  | t0 :: _ =>
      (join (String Js.LF "") (simulcastTemplate (stream_id videoStream) (track_id t0)), [])
  end.

(** [WebRtcPeer.mangleSdpToAddSimulcast], on the two fields it reads. *)
Definition mangleSdpToAddSimulcast (simulcast : bool) (videoStream : MediaStream)
    (answer : RTCSessionDescription) : RTCSessionDescription * list LogEntry :=
  if simulcast then
    let '(info, warns) := getSimulcastInfo videoStream in
    ({| type := type answer;
        sdp := removeFIDFromOffer (sdp answer) ++ info |},
     (LogDebug, "Adding multicast info") :: warns)
  else (answer, []).

(** ** The connection and what the browser decides *)

Inductive RTCSignalingState :=
| stable
| have_local_offer
| have_remote_offer
| have_local_pranswer
| have_remote_pranswer
| closed.

Inductive JsError := Error (message : string).

(** How a promise is settled: a call of its [resolve] or of its [reject]. *)
Inductive Settlement := Resolved | Rejected (reason : JsError).

Record RTCIceCandidate := {
  candidate : string;
  sdpMid : string
}.

(** The fields of RTCPeerConnection the peer reads or changes.
    [addedCandidates] records the calls of [pc.addIceCandidate], oldest
    first; [senders] and [receivers] are the tracks of [pc.getSenders()]
    and [pc.getReceivers()]. *)
Record RTCPeerConnection := {
  signalingState : RTCSignalingState;
  localDescription : option RTCSessionDescription;
  remoteDescription : option RTCSessionDescription;
  addedCandidates : list RTCIceCandidate;
  senders : list MediaStreamTrack;
  receivers : list MediaStreamTrack
}.

Definition set_signalingState (s : RTCSignalingState) (pc : RTCPeerConnection) :=
  {| signalingState := s;
     localDescription := localDescription pc;
     remoteDescription := remoteDescription pc;
     addedCandidates := addedCandidates pc;
     senders := senders pc;
     receivers := receivers pc |}.

Definition set_remoteDescription (d : RTCSessionDescription) (pc : RTCPeerConnection) :=
  {| signalingState := signalingState pc;
     localDescription := localDescription pc;
     remoteDescription := Some d;
     addedCandidates := addedCandidates pc;
     senders := senders pc;
     receivers := receivers pc |}.

Definition set_senders (ts : list MediaStreamTrack) (pc : RTCPeerConnection) :=
  {| signalingState := signalingState pc;
     localDescription := localDescription pc;
     remoteDescription := remoteDescription pc;
     addedCandidates := addedCandidates pc;
     senders := ts;
     receivers := receivers pc |}.

Definition record_candidate (c : RTCIceCandidate) (pc : RTCPeerConnection) :=
  {| signalingState := signalingState pc;
     localDescription := localDescription pc;
     remoteDescription := remoteDescription pc;
     addedCandidates := (addedCandidates pc ++ [c])%list;
     senders := senders pc;
     receivers := receivers pc |}.

(** The results only the browser knows: whether applying a candidate or a
    remote description succeeds, and the answer it generates. Each may
    depend on the connection at the time of the call. *)
Record Browser := {
  addIceCandidate_result : RTCPeerConnection -> RTCIceCandidate -> Settlement;
  setRemoteDescription_result :
    RTCPeerConnection -> RTCSessionDescription -> option JsError;
  createAnswer_result : RTCPeerConnection -> JsError + RTCSessionDescription
}.

(** ** The signaling gate: [bufferizeCandidates] *)

Module Gate.

(** A queued submission: the candidate and the promise whose [resolve]
    and [reject] the entry holds. *)
Definition Submission : Type := RTCIceCandidate * nat.

(** The closure state of [bufferizeCandidates(pc)] with the connection it
    closes over. [promises] maps each promise created by the returned
    function to the settlement calls made on it, oldest first: a promise
    with no call is pending, and the first call decides its state. *)
Record World := {
  pc : RTCPeerConnection;
  candidatesQueue : list Submission;
  promises : gmap nat (list Settlement);
  nextPromise : nat
}.

Definition state_of (w : World) (id : nat) : option Settlement :=
  match promises w !! id with
  | Some (s :: _) => Some s
  | _ => None
  end.

Definition pending (w : World) (id : nat) : Prop := promises w !! id = Some [].

Definition with_pc (p : RTCPeerConnection) (w : World) : World :=
  {| pc := p; candidatesQueue := candidatesQueue w;
     promises := promises w; nextPromise := nextPromise w |}.

(** A call of [resolve] or [reject] of promise [id]. *)
Definition settle (id : nat) (s : Settlement) (w : World) : World :=
  {| pc := pc w; candidatesQueue := candidatesQueue w;
     promises := alter (fun calls => (calls ++ [s])%list) id (promises w);
     nextPromise := nextPromise w |}.

(** [pc.addIceCandidate(candidate).then(resolve, reject)]: the call is
    recorded on the connection, and the promise gets the call of [resolve]
    or [reject] that the outcome of [addIceCandidate] triggers. The delay
    between the call and the settlement is not modelled. *)
Definition apply_candidate (br : Browser) (c : RTCIceCandidate) (id : nat)
    (w : World) : World :=
  let r := addIceCandidate_result br (pc w) c in
  settle id r (with_pc (record_candidate c (pc w)) w).

(** [bufferizeCandidates(pc)]: an empty queue; the listener and the
    returned function follow. *)
Definition bufferizeCandidates (p : RTCPeerConnection) : World :=
  {| pc := p; candidatesQueue := []; promises := ∅; nextPromise := 0 |}.

(** [candidatesQueue.map(...)]: the entries in queue order. *)
Definition flush (br : Browser) (q : list Submission) (w : World) : World :=
  fold_left (fun acc '(c, id) => apply_candidate br c id acc) q w.

(** The 'signalingstatechange' listener:
<<
if (pc.signalingState !== 'stable') return
candidatesQueue.map(({ candidate, resolve, reject }) =>
  pc.addIceCandidate(candidate).then(resolve, reject))
candidatesQueue.length = 0
>> *)
Definition onsignalingstatechange (br : Browser) (w : World) : World :=
  match signalingState (pc w) with
  | stable =>
      let w' := flush br (candidatesQueue w) w in
      {| pc := pc w'; candidatesQueue := [];
         promises := promises w'; nextPromise := nextPromise w' |}
  | _ => w
  end.

(** [new Promise(...)]: a pending promise with the next identity. *)
Definition new_promise (w : World) : nat * World :=
  (nextPromise w,
   {| pc := pc w; candidatesQueue := candidatesQueue w;
      promises := <[nextPromise w := []]> (promises w);
      nextPromise := S (nextPromise w) |}).

Definition enqueue (c : RTCIceCandidate) (id : nat) (w : World) : World :=
  {| pc := pc w; candidatesQueue := (candidatesQueue w ++ [(c, id)])%list;
     promises := promises w; nextPromise := nextPromise w |}.

(** The returned function: a new promise whose executor runs the
    [switch]:
<<
case 'closed': reject(new Error('PeerConnection object is closed'))
case 'stable':
  if (pc.remoteDescription) pc.addIceCandidate(candidate).then(resolve, reject)
  else reject(new Error('No Remote Description'))
default: candidatesQueue.push({ candidate, resolve, reject })
>>
    The result is the promise and the new world. *)
Definition submit (br : Browser) (c : RTCIceCandidate) (w : World) : nat * World :=
  let '(id, w0) := new_promise w in
  (id,
   match signalingState (pc w0) with
   | closed => settle id (Rejected (Error "PeerConnection object is closed")) w0
   | stable =>
       match remoteDescription (pc w0) with
       | Some _ => apply_candidate br c id w0
       | None => settle id (Rejected (Error "No Remote Description")) w0
       end
   | _ => enqueue c id w0
   end).

(** The browser moves the connection to state [s] and fires
    'signalingstatechange'. *)
Definition signalingstatechange (br : Browser) (s : RTCSignalingState)
    (w : World) : World :=
  onsignalingstatechange br (with_pc (set_signalingState s (pc w)) w).

(** What can happen to a gate: a submission, or a state change. *)
Inductive Event :=
| Submit (c : RTCIceCandidate)
| StateChange (s : RTCSignalingState).

Definition step (br : Browser) (e : Event) (w : World) : World :=
  match e with
  | Submit c => snd (submit br c w)
  | StateChange s => signalingstatechange br s w
  end.

Definition run (br : Browser) (es : list Event) (w : World) : World :=
  fold_left (fun acc e => step br e acc) es w.

Definition transitional (s : RTCSignalingState) : bool :=
  match s with
  | stable | closed => false
  | _ => true
  end.

(** A closed connection never reopens: after 'closed' the browser reports
    no other state. *)
Definition stays_closed (es : list Event) : Prop :=
  Forall (fun e => match e with
                   | StateChange s => s = closed
                   | Submit _ => True
                   end) es.

(** The candidates submitted by a sequence of events, in order. *)
Definition submitted (es : list Event) : list RTCIceCandidate :=
  omap (fun e => match e with Submit c => Some c | StateChange _ => None end) es.

(** Events that keep the connection in a transitional state. *)
Definition keeps_transitional (es : list Event) : Prop :=
  Forall (fun e => match e with
                   | StateChange s => transitional s = true
                   | Submit _ => True
                   end) es.

(** The connection after [pc.addIceCandidate] was called on [cs]. *)
Definition pc_after (cs : list RTCIceCandidate) (p : RTCPeerConnection)
    : RTCPeerConnection :=
  fold_left (fun acc c => record_candidate c acc) cs p.

(** Shape of the worlds the gate can be in. *)
Record wf (w : World) : Prop := {
  wf_dom : forall id, is_Some (promises w !! id) <-> (id < nextPromise w)%nat;
  wf_queue_pending : forall c id, (c, id) ∈ candidatesQueue w -> pending w id;
  wf_queue_nodup : NoDup (snd <$> candidatesQueue w);
  wf_once : forall id calls, promises w !! id = Some calls -> (length calls <= 1)%nat
}.

End Gate.

(** ** Routing of locally gathered candidates (constructor of [WebRtcPeer]) *)

Module Routing.

Inductive EventName :=
| ev_icecandidate
| ev_candidategatheringdone
| ev_other (name : string).

(** One invocation of a listener: which listener, for which event it is
    registered, and the argument ([None] for [null] and [undefined]). *)
Record Call := {
  call_listener : nat;
  call_event : EventName;
  call_argument : option RTCIceCandidate
}.

(** The emitter's listeners for the two candidate events, in registration
    order, the two variables captured by the constructor's closures, and
    the listener invocations made so far, oldest first. *)
Record State := {
  on_icecandidate : list nat;
  on_candidategatheringdone : list nat;
  candidatesQueueOut : list (option RTCIceCandidate);
  candidategatheringdone : bool;
  calls : list Call
}.

Definition listeners (ev : EventName) (st : State) : list nat :=
  match ev with
  | ev_icecandidate => on_icecandidate st
  | ev_candidategatheringdone => on_candidategatheringdone st
  | ev_other _ => []
  end.

Definition listenerCount (ev : EventName) (st : State) : nat :=
  length (listeners ev st).

(** [this.emit(ev, arg)]: every listener of [ev], in registration order. *)
Definition emit (ev : EventName) (arg : option RTCIceCandidate) (st : State) : State :=
  {| on_icecandidate := on_icecandidate st;
     on_candidategatheringdone := on_candidategatheringdone st;
     candidatesQueueOut := candidatesQueueOut st;
     candidategatheringdone := candidategatheringdone st;
     calls := (calls st ++
               map (fun l => {| call_listener := l; call_event := ev;
                                call_argument := arg |}) (listeners ev st))%list |}.

Definition set_done (b : bool) (st : State) : State :=
  {| on_icecandidate := on_icecandidate st;
     on_candidategatheringdone := on_candidategatheringdone st;
     candidatesQueueOut := candidatesQueueOut st;
     candidategatheringdone := b;
     calls := calls st |}.

Definition push (c : option RTCIceCandidate) (st : State) : State :=
  {| on_icecandidate := on_icecandidate st;
     on_candidategatheringdone := on_candidategatheringdone st;
     candidatesQueueOut := (candidatesQueueOut st ++ [c])%list;
     candidategatheringdone := candidategatheringdone st;
     calls := calls st |}.

(** The connection's 'icecandidate' listener; [c] is [event.candidate]. *)
Definition icecandidate (c : option RTCIceCandidate) (st : State) : State :=
  if negb (Nat.eqb (listenerCount ev_icecandidate st) 0)
     || negb (Nat.eqb (listenerCount ev_candidategatheringdone st) 0)
  then
    let st1 :=
      match c with
      | Some cand => set_done false (emit ev_icecandidate (Some cand) st)
      | None =>
          if negb (candidategatheringdone st)
          then emit ev_candidategatheringdone None st
          else st
      end in
    set_done true st1
  else if negb (candidategatheringdone st) then
    let st1 := push c st in
    match c with
    | None => set_done true st1
    | Some _ => st1
    end
  else st.

(** The test [!candidate === (event === 'candidategatheringdone')]. *)
Definition matches (c : option RTCIceCandidate) (ev : EventName) : bool :=
  Bool.eqb (match c with None => true | Some _ => false end)
           (match ev with ev_candidategatheringdone => true | _ => false end).

(** The [while (candidatesQueueOut.length)] loop of the 'newListener'
    handler: each entry is shifted out and handed to [listener] when it
    matches; the invocations are returned in order. *)
Fixpoint drain (ev : EventName) (listener : nat)
    (queue : list (option RTCIceCandidate)) : list Call :=
  match queue with
  | [] => []
  | c :: rest =>
      if matches c ev
      then {| call_listener := listener; call_event := ev; call_argument := c |}
           :: drain ev listener rest
      else drain ev listener rest
  end.

Definition newListener (ev : EventName) (listener : nat) (st : State) : State :=
  match ev with
  | ev_icecandidate | ev_candidategatheringdone =>
      {| on_icecandidate := on_icecandidate st;
         on_candidategatheringdone := on_candidategatheringdone st;
         candidatesQueueOut := [];
         candidategatheringdone := candidategatheringdone st;
         calls := (calls st ++ drain ev listener (candidatesQueueOut st))%list |}
  | ev_other _ => st
  end.

(** [peer.on(ev, listener)]: the emitter fires 'newListener' first, then
    appends the listener. *)
Definition on (ev : EventName) (listener : nat) (st : State) : State :=
  let st1 := newListener ev listener st in
  {| on_icecandidate :=
       match ev with
       | ev_icecandidate => (on_icecandidate st1 ++ [listener])%list
       | _ => on_icecandidate st1
       end;
     on_candidategatheringdone :=
       match ev with
       | ev_candidategatheringdone => (on_candidategatheringdone st1 ++ [listener])%list
       | _ => on_candidategatheringdone st1
       end;
     candidatesQueueOut := candidatesQueueOut st1;
     candidategatheringdone := candidategatheringdone st1;
     calls := calls st1 |}.

(** The state the constructor leaves: the listeners given in the options
    are registered before the 'newListener' handler exists. *)
Definition construct (onicecandidate oncandidategatheringdone : option nat) : State :=
  {| on_icecandidate := match onicecandidate with Some l => [l] | None => [] end;
     on_candidategatheringdone :=
       match oncandidategatheringdone with Some l => [l] | None => [] end;
     candidatesQueueOut := [];
     candidategatheringdone := false;
     calls := [] |}.

(** The connection reports the candidates [cs], one event each. *)
Definition gather (cs : list (option RTCIceCandidate)) (st : State) : State :=
  fold_left (fun acc c => icecandidate c acc) cs st.

End Routing.

(** ** The peer: [processOffer] and [dispose] *)

Module Peer.

Inductive RTCDataChannelState := dc_connecting | dc_open | dc_closing | dc_closed.

Record HTMLVideoElement := {
  paused : bool;
  srcObject : option (list MediaStreamTrack);
  muted : bool;
  loads : nat                       (* number of calls of load() *)
}.

(** A listener of the '_dispose' event: the one the constructor installs,
    or one registered by the application ([raises]: what it throws). *)
Inductive DisposeListener :=
| release_media
| user_listener (raises : option JsError).

Inductive VideoRole := local_video | remote_video.

(** The calls into the browser (and into application listeners) that
    [dispose] makes. *)
Inductive ExternalCall :=
| call_dc_close
| call_getLocalStreams
| call_track_stop (trackId : string)
| call_pc_close
| call_pause (v : VideoRole)
| call_load (v : VideoRole)
| call_user_listener.

(** Which of those calls raise, and what. *)
Definition Faults : Type := ExternalCall -> option JsError.

Definition no_faults : Faults := fun _ => None.

Record WebRtcPeer := {
  id : string;
  simulcast : bool;
  videoStream : MediaStream;
  peerConnection : RTCPeerConnection;
  dataChannel : option RTCDataChannelState;
  localVideo : option HTMLVideoElement;
  remoteVideo : option HTMLVideoElement;
  disposeListeners : list DisposeListener;
  console : list LogEntry;          (* oldest first *)
  trace : list ExternalCall         (* calls made by dispose, oldest first *)
}.

Definition with_peerConnection (v : RTCPeerConnection) (p : WebRtcPeer) :=
  {| id := id p; simulcast := simulcast p; videoStream := videoStream p;
     peerConnection := v; dataChannel := dataChannel p;
     localVideo := localVideo p; remoteVideo := remoteVideo p;
     disposeListeners := disposeListeners p; console := console p;
     trace := trace p |}.

Definition with_dataChannel (v : option RTCDataChannelState) (p : WebRtcPeer) :=
  {| id := id p; simulcast := simulcast p; videoStream := videoStream p;
     peerConnection := peerConnection p; dataChannel := v;
     localVideo := localVideo p; remoteVideo := remoteVideo p;
     disposeListeners := disposeListeners p; console := console p;
     trace := trace p |}.

Definition with_localVideo (v : option HTMLVideoElement) (p : WebRtcPeer) :=
  {| id := id p; simulcast := simulcast p; videoStream := videoStream p;
     peerConnection := peerConnection p; dataChannel := dataChannel p;
     localVideo := v; remoteVideo := remoteVideo p;
     disposeListeners := disposeListeners p; console := console p;
     trace := trace p |}.

Definition with_remoteVideo (v : option HTMLVideoElement) (p : WebRtcPeer) :=
  {| id := id p; simulcast := simulcast p; videoStream := videoStream p;
     peerConnection := peerConnection p; dataChannel := dataChannel p;
     localVideo := localVideo p; remoteVideo := v;
     disposeListeners := disposeListeners p; console := console p;
     trace := trace p |}.

Definition with_disposeListeners (v : list DisposeListener) (p : WebRtcPeer) :=
  {| id := id p; simulcast := simulcast p; videoStream := videoStream p;
     peerConnection := peerConnection p; dataChannel := dataChannel p;
     localVideo := localVideo p; remoteVideo := remoteVideo p;
     disposeListeners := v; console := console p;
     trace := trace p |}.

(** [logger.debug], [logger.warn], [console.log]. *)
Definition log (l : LogLevel) (msg : string) (p : WebRtcPeer) :=
  {| id := id p; simulcast := simulcast p; videoStream := videoStream p;
     peerConnection := peerConnection p; dataChannel := dataChannel p;
     localVideo := localVideo p; remoteVideo := remoteVideo p;
     disposeListeners := disposeListeners p;
     console := (console p ++ [(l, msg)])%list;
     trace := trace p |}.

Definition logs (es : list LogEntry) (p : WebRtcPeer) :=
  fold_left (fun acc e => log (fst e) (snd e) acc) es p.

Definition traced (c : ExternalCall) (p : WebRtcPeer) :=
  {| id := id p; simulcast := simulcast p; videoStream := videoStream p;
     peerConnection := peerConnection p; dataChannel := dataChannel p;
     localVideo := localVideo p; remoteVideo := remoteVideo p;
     disposeListeners := disposeListeners p; console := console p;
     trace := (trace p ++ [c])%list |}.

(** *** [processOffer] *)

(** How a call of an async method ends: its promise is fulfilled with a
    value, or rejected with what was thrown. *)
Inductive Completion (A : Type) :=
| Returned (a : A)
| Threw (e : JsError).
Arguments Returned {A} a.
Arguments Threw {A} e.

(** The signaling state a successfully applied remote description leaves. *)
Definition after_remote (t : RTCSdpType) (s : RTCSignalingState) : RTCSignalingState :=
  match t with
  | offer => have_remote_offer
  | answer => stable
  | pranswer => have_remote_pranswer
  | rollback => stable
  end.

(** [pc.setRemoteDescription(d)]: the browser accepts or rejects; when it
    accepts, the description is stored and the state advances. *)
Definition setRemoteDescription (br : Browser) (d : RTCSessionDescription)
    (pc : RTCPeerConnection) : Completion RTCPeerConnection :=
  match setRemoteDescription_result br pc d with
  | Some e => Threw e
  | None =>
      Returned (set_signalingState (after_remote (type d) (signalingState pc))
                  (set_remoteDescription d pc))
  end.

(** [setRemoteVideo]: pause, attach the stream of the receivers, reload. *)
Definition setRemoteVideo (p : WebRtcPeer) : WebRtcPeer :=
  match remoteVideo p with
  | None => p
  | Some v =>
      let stream := receivers (peerConnection p) in
      log LogDebug "Remote stream:"
        (with_remoteVideo
           (Some {| paused := true; srcObject := Some stream;
                    muted := muted v; loads := S (loads v) |}) p)
  end.

(** [processOffer(sdp)], statement by statement:
<<
const offer = new RTCSessionDescription({ type: 'offer', sdp })
logger.debug('SDP offer received, setting remote description')
if (this.peerConnection.signalingState === 'closed') {
  throw new Error('PeerConnection is closed') }
await this.peerConnection.setRemoteDescription(offer)
this.setRemoteVideo()
let answer = await this.peerConnection.createAnswer()
answer = this.mangleSdpToAddSimulcast(answer)
logger.debug('Created SDP answer')
const localDescription = this.peerConnection.localDescription
if (!localDescription) throw new Error('no local description')
logger.debug('Local description set\n', localDescription.sdp)
return localDescription.sdp
>>
    The awaited calls are taken to complete with no other task running in
    between. *)
Definition processOffer (br : Browser) (sdpText : string) (p : WebRtcPeer)
    : Completion string * WebRtcPeer :=
  let offer_ := {| type := offer; sdp := sdpText |} in
  let p := log LogDebug "SDP offer received, setting remote description" p in
  match signalingState (peerConnection p) with
  | closed => (Threw (Error "PeerConnection is closed"), p)
  | _ =>
      match setRemoteDescription br offer_ (peerConnection p) with
      | Threw e => (Threw e, p)
      | Returned pc1 =>
          let p := setRemoteVideo (with_peerConnection pc1 p) in
          match createAnswer_result br (peerConnection p) with
          | inl e => (Threw e, p)
          | inr answer0 =>
              let '(answer_, out) :=
                mangleSdpToAddSimulcast (simulcast p) (videoStream p) answer0 in
              let p := logs out p in
              let p := log LogDebug "Created SDP answer" p in
              match localDescription (peerConnection p) with
              | None => (Threw (Error "no local description"), p)
              | Some localDescription_ =>
                  (Returned (sdp localDescription_),
                   log LogDebug "Local description set" p)
              end
          end
      end
  end.

(** *** [dispose] *)

(** How a statement of the [try] block ends. *)
Inductive Outcome :=
| Normal
| Return                      (* a [return] statement was executed *)
| Throw (e : JsError).

Definition Cmd : Type := WebRtcPeer -> Outcome * WebRtcPeer.

Definition skip : Cmd := fun p => (Normal, p).

Definition seq (a b : Cmd) : Cmd :=
  fun p => match a p with
           | (Normal, p') => b p'
           | r => r
           end.

Notation "a ;;; b" := (seq a b) (at level 62, right associativity).

(** An external call: recorded, then it raises or has its effect. *)
Definition ext (flt : Faults) (c : ExternalCall)
    (effect : WebRtcPeer -> WebRtcPeer) : Cmd :=
  fun p => match flt c with
           | Some e => (Throw e, traced c p)
           | None => (Normal, effect (traced c p))
           end.

(** [dc.close()]: an open or connecting channel starts closing. *)
Definition dc_close_effect (p : WebRtcPeer) : WebRtcPeer :=
  match dataChannel p with
  | Some dc_connecting | Some dc_open => with_dataChannel (Some dc_closing) p
  | _ => p
  end.

(** [pc.close()]: the connection is closed, and with it its channel. *)
Definition pc_close_effect (p : WebRtcPeer) : WebRtcPeer :=
  let p := with_peerConnection (set_signalingState closed (peerConnection p)) p in
  match dataChannel p with
  | Some _ => with_dataChannel (Some dc_closed) p
  | None => p
  end.

(** [track.stop()] on the sender track named [tid]. *)
Definition stop_effect (tid : string) (p : WebRtcPeer) : WebRtcPeer :=
  with_peerConnection
    (set_senders
       (map (fun t => if String.eqb (track_id t) tid
                      then {| track_kind := track_kind t; track_id := track_id t;
                              track_ended := true |}
                      else t)
            (senders (peerConnection p)))
       (peerConnection p)) p.

Fixpoint stop_tracks (flt : Faults) (ts : list MediaStreamTrack) : Cmd :=
  match ts with
  | [] => skip
  | t :: rest =>
      ext flt (call_track_stop (track_id t)) (stop_effect (track_id t)) ;;;
      stop_tracks flt rest
  end.

(** The statements after the [signalingState] test: stop the local
    tracks, close the connection. *)
Definition close_all (flt : Faults) : Cmd :=
  ext flt call_getLocalStreams (fun q => q) ;;;
  (fun q => stop_tracks flt (senders (peerConnection q)) q) ;;;
  ext flt call_pc_close pc_close_effect.

(** The body of the [try] block. [this.peerConnection] is always set by
    the constructor, so the test [if (pc)] holds. *)
Definition teardown (flt : Faults) : Cmd :=
  (fun p =>
     match dataChannel p with
     | Some dc_closed => (Return, p)
     | Some _ => ext flt call_dc_close dc_close_effect p
     | None => (Normal, p)
     end) ;;;
  (fun p =>
     match signalingState (peerConnection p) with
     | closed => (Return, p)
     | _ => close_all flt p
     end).

Definition release_video (flt : Faults) (v : VideoRole) (unmute : bool) : Cmd :=
  let get := match v with local_video => localVideo | remote_video => remoteVideo end in
  let set := match v with
             | local_video => with_localVideo
             | remote_video => with_remoteVideo
             end in
  fun p =>
    match get p with
    | None => (Normal, p)
    | Some _ =>
        (ext flt (call_pause v)
           (fun q => match get q with
                     | Some e => set (Some {| paused := true; srcObject := None;
                                              muted := muted e; loads := loads e |}) q
                     | None => q
                     end) ;;;
         ext flt (call_load v)
           (fun q => match get q with
                     | Some e => set (Some {| paused := paused e; srcObject := srcObject e;
                                              muted := if unmute then false else muted e;
                                              loads := S (loads e) |}) q
                     | None => q
                     end)) p
    end.

(** One '_dispose' listener. The one of the constructor:
<<
if (localVideo) { localVideo.pause(); localVideo.srcObject = null
                  localVideo.load(); localVideo.muted = false }
if (remoteVideo) { remoteVideo.pause(); remoteVideo.srcObject = null
                   remoteVideo.load() }
this.removeAllListeners()
WebRtcPeer.cancelChooseDesktopMedia(this.id)
>> *)
Definition run_listener (flt : Faults) (l : DisposeListener) : Cmd :=
  match l with
  | release_media =>
      release_video flt local_video true ;;;
      release_video flt remote_video false ;;;
      (fun p => (Normal,
                 log LogInfo ("Cancel Choose Desktop Media id -> " ++ id p)
                   (with_disposeListeners [] p)))
  | user_listener raises =>
      fun p => match raises with
               | Some e => (Throw e, traced call_user_listener p)
               | None => (Normal, traced call_user_listener p)
               end
  end.

(** [this.emit('_dispose')]: the listeners registered when the event is
    emitted, in order; what one of them throws leaves [emit]. *)
Fixpoint run_listeners (flt : Faults) (ls : list DisposeListener) : Cmd :=
  match ls with
  | [] => skip
  | l :: rest => run_listener flt l ;;; run_listeners flt rest
  end.

Definition emit_dispose (flt : Faults) : Cmd :=
  fun p => run_listeners flt (disposeListeners p) p.

Definition error_text (e : JsError) : string :=
  match e with Error m => "Error: " ++ m end.

(** [this.emit('_dispose')] as the last statement of [dispose]: what a
    listener throws is what [dispose] throws. *)
Definition notify (flt : Faults) (p : WebRtcPeer) : Completion unit * WebRtcPeer :=
  match emit_dispose flt p with
  | (Throw e, p') => (Threw e, p')
  | (_, p') => (Returned tt, p')
  end.

(** [dispose()]:
<<
logger.debug('Disposing WebRtcPeer')
try {
  if (dc) { if (dc.readyState === 'closed') return; dc.close() }
  if (pc) {
    if (pc.signalingState === 'closed') return
    this.getLocalStreams().forEach(stream => stream.getTracks()
      .forEach(track => track?.stop()))
    pc.close()
  }
} catch (err) { logger.warn('Exception disposing webrtc peer ' + err) }
this.emit('_dispose')
>>
    A [return] inside the block leaves the method; what the block throws is
    caught and logged; the notification follows in both other cases. *)
Definition dispose (flt : Faults) (p : WebRtcPeer) : Completion unit * WebRtcPeer :=
  let p0 := log LogDebug "Disposing WebRtcPeer" p in
  match teardown flt p0 with
  | (Return, p1) => (Returned tt, p1)
  | (Normal, p1) => notify flt p1
  | (Throw err, p1) =>
      notify flt
        (log LogWarn ("Exception disposing webrtc peer " ++ error_text err) p1)
  end.

End Peer.

(** ** Vocabulary of the statements *)

(** [pat] occurs in [s] at offset [n], and nowhere before. *)
Definition first_occurrence (pat s : string) (n : nat) : Prop :=
  String.substring n (String.length pat) s = pat /\
  forall m, (m < n)%nat -> String.substring m (String.length pat) s <> pat.

Definition absent (pat s : string) : Prop :=
  forall m, String.substring m (String.length pat) s <> pat.

(** Reading an SDP attribute line. [ssrc_of_line "a=ssrc:7 label:x"] is
    [Some "7"]: the text between [a=ssrc:] and the next space. *)
Fixpoint drop_chars (n : nat) (s : string) : string :=
  match n, s with
  | S n', String _ s' => drop_chars n' s'
  | _, _ => s
  end.

Fixpoint until_space (s : string) : string :=
  match s with
  | EmptyString => ""
  | String c s' => if Ascii.eqb c " " then "" else String c (until_space s')
  end.

Definition ssrc_of_line (line : string) : option string :=
  if String.prefix "a=ssrc:" line then Some (until_space (drop_chars 7 line)) else None.

(** The lines of the layer with ssrc id [k]. *)
Definition layer_lines (k : string) (ls : list string) : list string :=
  List.filter (fun l => match ssrc_of_line l with
                        | Some k' => String.eqb k k'
                        | None => false
                        end) ls.

(** The ssrc ids a block declares, each once, in order of appearance. *)
Fixpoint distinct (ks : list string) : list string :=
  match ks with
  | [] => []
  | k :: rest => k :: List.filter (fun k' => negb (String.eqb k k')) (distinct rest)
  end.

Definition declared_layers (ls : list string) : list string :=
  distinct (omap ssrc_of_line ls).

Definition grouping_directives (ls : list string) : list string :=
  List.filter (String.prefix "a=ssrc-group:") ls.

Definition no_line_break (s : string) : Prop := Js.has_char Js.LF s = false.

(** What a further [dispose] finds when there is nothing left to close:
    the channel is closed, or there is no channel and the connection is
    closed. *)
Definition torn_down (p : Peer.WebRtcPeer) : Prop :=
  Peer.dataChannel p = Some Peer.dc_closed \/
  (Peer.dataChannel p = None /\ signalingState (Peer.peerConnection p) = closed).

(** The browser closes the channels of a connection with the connection. *)
Definition coherent (p : Peer.WebRtcPeer) : Prop :=
  signalingState (Peer.peerConnection p) = closed ->
  Peer.dataChannel p = None \/ Peer.dataChannel p = Some Peer.dc_closed.



(** What the calls of [dispose] other than the closes leave alone: the
    channel and the signaling state; the console only grows. *)
Record frame (p q : Peer.WebRtcPeer) : Prop := {
  frame_channel_kept : Peer.dataChannel q = Peer.dataChannel p;
  frame_state :
    signalingState (Peer.peerConnection q) = signalingState (Peer.peerConnection p);
  frame_console : exists more, Peer.console q = (Peer.console p ++ more)%list
}.

(** ** Sample inputs *)

Definition sample_stream : MediaStream :=
  {| stream_id := "stream-7";
     stream_tracks :=
       [ {| track_kind := audio; track_id := "mic-0"; track_ended := false |};
         {| track_kind := video; track_id := "cam-0"; track_ended := false |} ] |}.

Definition host_candidate : RTCIceCandidate :=
  {| candidate := "candidate:1 1 UDP 2122252543 192.0.2.1 50000 typ host"; sdpMid := "0" |}.

Definition relay_candidate : RTCIceCandidate :=
  {| candidate := "candidate:2 1 UDP 41885439 198.51.100.7 3478 typ relay"; sdpMid := "0" |}.

Definition broken_candidate : RTCIceCandidate :=
  {| candidate := "candidate:"; sdpMid := "9" |}.

(** A browser that refuses candidates for the unknown media section "9",
    accepts every remote description, and answers with a fixed payload. *)
Definition sample_browser : Browser :=
  {| addIceCandidate_result := fun _ c =>
       if String.eqb (sdpMid c) "9"
       then Rejected (Error "OperationError")
       else Resolved;
     setRemoteDescription_result := fun _ _ => None;
     createAnswer_result := fun _ =>
       inr {| type := answer; sdp := "v=0 answer" |} |}.

Definition fresh_connection (s : RTCSignalingState) : RTCPeerConnection :=
  {| signalingState := s;
     localDescription := None;
     remoteDescription := None;
     addedCandidates := [];
     senders := stream_tracks sample_stream;
     receivers := [] |}.

Definition sample_events : list Gate.Event :=
  [ Gate.Submit host_candidate;
    Gate.StateChange have_remote_pranswer;
    Gate.Submit broken_candidate;
    Gate.Submit relay_candidate ].

Definition idle_video : Peer.HTMLVideoElement :=
  {| Peer.paused := false; Peer.srcObject := None; Peer.muted := false;
     Peer.loads := 0%nat |}.

(** A peer as the constructor leaves it, on a connection in state [s]. *)
Definition sample_peer (s : RTCSignalingState)
    (dc : option Peer.RTCDataChannelState)
    (listeners : list Peer.DisposeListener) : Peer.WebRtcPeer :=
  {| Peer.id := "peer-1";
     Peer.simulcast := false;
     Peer.videoStream := sample_stream;
     Peer.peerConnection := fresh_connection s;
     Peer.dataChannel := dc;
     Peer.localVideo := Some idle_video;
     Peer.remoteVideo := Some idle_video;
     Peer.disposeListeners := listeners;
     Peer.console := [];
     Peer.trace := [] |}.



(** ** One 'signalingstatechange' event, listener by listener *)

Module Dispatch.

(** A state change as the browser delivers it. The connection has moved
    to [state], with [local] and [remote] as its descriptions, before any
    listener runs. The listeners of 'signalingstatechange' then run in
    registration order: [early] are the submissions made, through the
    function the gate returned, by the listeners registered before the
    gate's own. What later listeners submit reaches the gate after its
    listener has run, as ordinary submissions. *)
Record Change (A : Type) := {
  state : RTCSignalingState;
  local : option RTCSessionDescription;
  remote : option RTCSessionDescription;
  early : list A
}.
Arguments state {A} _.
Arguments local {A} _.
Arguments remote {A} _.
Arguments early {A} _.

Definition moved {A : Type} (ch : Change A) (p : RTCPeerConnection)
    : RTCPeerConnection :=
  {| signalingState := state ch;
     localDescription := local ch;
     remoteDescription := remote ch;
     addedCandidates := addedCandidates p;
     senders := senders p;
     receivers := receivers p |}.

Inductive Event :=
| Submit (c : RTCIceCandidate)
| StateChange (ch : Change RTCIceCandidate).

Definition submit_all (br : Browser) (cs : list RTCIceCandidate) (w : Gate.World)
    : Gate.World :=
  fold_left (fun acc c => snd (Gate.submit br c acc)) cs w.

(** The gate at the moment its listener is invoked. *)
Definition before_listener (br : Browser) (ch : Change RTCIceCandidate)
    (w : Gate.World) : Gate.World :=
  submit_all br (early ch) (Gate.with_pc (moved ch (Gate.pc w)) w).

Definition signalingstatechange (br : Browser) (ch : Change RTCIceCandidate)
    (w : Gate.World) : Gate.World :=
  Gate.onsignalingstatechange br (before_listener br ch w).

Definition step (br : Browser) (e : Event) (w : Gate.World) : Gate.World :=
  match e with
  | Submit c => snd (Gate.submit br c w)
  | StateChange ch => signalingstatechange br ch w
  end.

Definition run (br : Browser) (es : list Event) (w : Gate.World) : Gate.World :=
  fold_left (fun acc e => step br e acc) es w.

(** The candidates submitted by a sequence of events, in order. *)
Definition submitted (es : list Event) : list RTCIceCandidate :=
  flat_map (fun e => match e with
                     | Submit c => [c]
                     | StateChange ch => early ch
                     end) es.

(** No listener registered before the gate's submits a candidate. *)
Definition undisturbed (es : list Event) : Prop :=
  Forall (fun e => match e with
                   | Submit _ => True
                   | StateChange ch => early ch = []
                   end) es.

End Dispatch.

(** ** [WebRtcPeer.addIceCandidate] *)

Module Candidates.

(** [this.peerConnection] and [this.addIceCandidateFn]: before the first
    call there is only the connection ([inl]); afterwards the closure of
    [bufferizeCandidates], which holds the connection ([inr]). *)
Record State := {
  gate : RTCPeerConnection + Gate.World;
  console : list LogEntry
}.

Definition construct (p : RTCPeerConnection) : State :=
  {| gate := inl p; console := [] |}.

(** The gate the next call uses: the memoised one, or a new one. *)
Definition force (st : State) : Gate.World :=
  match gate st with
  | inl p => Gate.bufferizeCandidates p
  | inr w => w
  end.

(** [addIceCandidate(iceCandidate)]:
<<
const candidate = new RTCIceCandidate(iceCandidate)
logger.debug('Remote ICE candidate received', iceCandidate)
if (!this.addIceCandidateFn) {
  this.addIceCandidateFn = bufferizeCandidates(this.peerConnection)
}
return this.addIceCandidateFn(candidate)
>>
    [made] is how [new RTCIceCandidate(iceCandidate)] ends: the candidate,
    or what the constructor throws. The result is the promise of the gate. *)
Definition addIceCandidate (br : Browser) (made : JsError + RTCIceCandidate)
    (st : State) : Peer.Completion nat * State :=
  match made with
  | inl e => (Peer.Threw e, st)
  | inr c =>
      let '(id, w) := Gate.submit br c (force st) in
      (Peer.Returned id,
       {| gate := inr w;
          console := (console st ++ [(LogDebug, "Remote ICE candidate received")])%list |})
  end.

(** The calls of [addIceCandidate] made by listeners, one after the other. *)
Definition addAll (br : Browser) (mades : list (JsError + RTCIceCandidate))
    (st : State) : State :=
  fold_left (fun acc made => snd (addIceCandidate br made acc)) mades st.

(** One state change of the connection of the peer. The gate's listener
    takes part in the dispatch only if it was registered when the dispatch
    began: a gate created by a listener during the dispatch is not invoked
    for this event, and before the first call there is no gate at all. With
    no gate yet, every call made during the dispatch counts as [early]. *)
Definition signalingstatechange (br : Browser)
    (ch : Dispatch.Change (JsError + RTCIceCandidate)) (st : State) : State :=
  let st1 :=
    {| gate := match gate st with
               | inl p => inl (Dispatch.moved ch p)
               | inr w => inr (Gate.with_pc (Dispatch.moved ch (Gate.pc w)) w)
               end;
       console := console st |} in
  let st2 := addAll br (Dispatch.early ch) st1 in
  match gate st, gate st2 with
  | inr _, inr w =>
      {| gate := inr (Gate.onsignalingstatechange br w); console := console st2 |}
  | _, _ => st2
  end.

Inductive Event :=
| Add (made : JsError + RTCIceCandidate)
| StateChange (ch : Dispatch.Change (JsError + RTCIceCandidate)).

Definition step (br : Browser) (e : Event) (st : State) : State :=
  match e with
  | Add made => snd (addIceCandidate br made st)
  | StateChange ch => signalingstatechange br ch st
  end.

Definition run (br : Browser) (es : list Event) (st : State) : State :=
  fold_left (fun acc e => step br e acc) es st.

(** The candidates that could be constructed. *)
Definition constructed (mades : list (JsError + RTCIceCandidate))
    : list RTCIceCandidate :=
  omap (fun made => match made with inr c => Some c | inl _ => None end) mades.

(** The same events as seen by a gate: a call whose candidate could not be
    constructed never reaches it. *)
Definition gate_events (es : list Event) : list Dispatch.Event :=
  omap (fun e => match e with
                 | Add (inr c) => Some (Dispatch.Submit c)
                 | Add (inl _) => None
                 | StateChange ch =>
                     Some (Dispatch.StateChange
                             {| Dispatch.state := Dispatch.state ch;
                                Dispatch.local := Dispatch.local ch;
                                Dispatch.remote := Dispatch.remote ch;
                                Dispatch.early := constructed (Dispatch.early ch) |})
                 end) es.

End Candidates.

(** ** [processAnswer] and [send] *)

Module Answer.

(** [processAnswer(sdp)]:
<<
const answer = new RTCSessionDescription({ type: 'answer', sdp })
logger.debug('SDP answer received, setting remote description')
if (this.peerConnection.signalingState === 'closed') {
  throw new Error('PeerConnection is closed') }
await this.peerConnection.setRemoteDescription(answer)
this.setRemoteVideo()
>>
    What the listeners of 'signalingstatechange' do while the call is
    awaited (the gate applies its queue) is not part of this function:
    [addedCandidates] is left as [processAnswer] itself leaves it. *)
Definition processAnswer (br : Browser) (sdpText : string) (p : Peer.WebRtcPeer)
    : Peer.Completion unit * Peer.WebRtcPeer :=
  let answer_ := {| type := answer; sdp := sdpText |} in
  let p := Peer.log LogDebug "SDP answer received, setting remote description" p in
  match signalingState (Peer.peerConnection p) with
  | closed => (Peer.Threw (Error "PeerConnection is closed"), p)
  | _ =>
      match Peer.setRemoteDescription br answer_ (Peer.peerConnection p) with
      | Peer.Threw e => (Peer.Threw e, p)
      | Peer.Returned pc1 =>
          (Peer.Returned tt, Peer.setRemoteVideo (Peer.with_peerConnection pc1 p))
      end
  end.

(** [send(data)]:
<<
if (this.dataChannel?.readyState !== 'open') {
  logger.warn('Trying to send data over a non-existing or closed data channel')
  return
}
this.dataChannel.send(data)
>>
    The first component is the argument of [dataChannel.send] when it is
    called. *)
Definition send (data : string) (p : Peer.WebRtcPeer) : option string * Peer.WebRtcPeer :=
  match Peer.dataChannel p with
  | Some Peer.dc_open => (Some data, p)
  | _ =>
      (None,
       Peer.log LogWarn
         "Trying to send data over a non-existing or closed data channel" p)
  end.

End Answer.

(** ** Local tracks: [getLocalStreams], [setEnabled], [getEnabled] *)

Module Tracks.

(** A track of [pc.getSenders()] with its [enabled] flag. *)
Record LocalTrack := {
  kind : TrackKind;
  id : string;
  enabled : bool
}.

(** The argument [method] of [setEnabled] and [getEnabled]. *)
Inductive Method := getAudioTracks | getVideoTracks.

Definition selects (m : Method) (t : LocalTrack) : bool :=
  match m, kind t with
  | getAudioTracks, audio => true
  | getVideoTracks, video => true
  | _, _ => false
  end.

(** [getLocalStreams()]: one stream holding the tracks of the senders. The
    tracks are the senders' own objects: what [setEnabled] writes is what
    the senders carry. *)
Definition getLocalStreams (senders : list LocalTrack) : list (list LocalTrack) :=
  [senders].

(** [setEnabled(method, value)]:
<<
this.getLocalStreams().forEach(stream =>
  stream[method]().forEach(track => track.enabled = value))
>> *)
Definition setEnabled (m : Method) (value : bool) (senders : list LocalTrack)
    : list LocalTrack :=
  map (fun t => if selects m t
                then {| kind := kind t; id := id t; enabled := value |}
                else t) senders.

(** [getEnabled(method)]:
<<
const streams = this.getLocalStreams()
return streams.some(stream => stream[method]().some(track => track.enabled))
>> *)
Definition getEnabled (m : Method) (senders : list LocalTrack) : bool :=
  existsb (fun stream => existsb enabled (List.filter (selects m) stream))
          (getLocalStreams senders).

(** The accessors. *)
Definition audioEnabled := getEnabled getAudioTracks.
Definition videoEnabled := getEnabled getVideoTracks.
Definition set_audioEnabled := setEnabled getAudioTracks.
Definition set_videoEnabled := setEnabled getVideoTracks.

(** [get enabled()]: [this.audioEnabled && this.videoEnabled]. *)
Definition get_enabled (senders : list LocalTrack) : bool :=
  audioEnabled senders && videoEnabled senders.

(** [set enable(value)]: [this.audioEnabled = this.videoEnabled = value]. *)
Definition set_enable (value : bool) (senders : list LocalTrack) : list LocalTrack :=
  set_audioEnabled value (set_videoEnabled value senders).

Definition has (m : Method) (senders : list LocalTrack) : bool :=
  existsb (selects m) senders.

End Tracks.

(** ** [generateOffer] *)

Module Offer.

Inductive WebRtcPeerMode := recvonly | sendonly | sendrecv.

Inductive Direction := dir_sendrecv | dir_sendonly | dir_recvonly | dir_inactive.

Record Transceiver := {
  media : TrackKind;
  direction : Direction
}.

(** What the browser decides during [generateOffer]: whether adding a
    transceiver or writing a direction raises, the offer it creates, and
    what [pc.localDescription] is once [setLocalDescription] has succeeded. *)
Record Browser := {
  addTransceiver_result : list Transceiver -> TrackKind -> option JsError;
  setDirection_result : list Transceiver -> nat -> option JsError;
  createOffer_result :
    RTCPeerConnection -> list Transceiver -> JsError + RTCSessionDescription;
  setLocalDescription_result :
    RTCPeerConnection -> RTCSessionDescription ->
    JsError + option RTCSessionDescription
}.

(** The peer as [generateOffer] sees it. [useAudio] and [useVideo] are
    [!!this.mediaConstraints?.audio] and [!!this.mediaConstraints?.video];
    [handed] records the arguments of [setLocalDescription], oldest first. *)
Record State := {
  mode : WebRtcPeerMode;
  useAudio : bool;
  useVideo : bool;
  transceivers : list Transceiver;
  handed : list RTCSessionDescription;
  peer : Peer.WebRtcPeer
}.

Definition with_transceivers (ts : list Transceiver) (st : State) : State :=
  {| mode := mode st; useAudio := useAudio st; useVideo := useVideo st;
     transceivers := ts; handed := handed st; peer := peer st |}.

Definition with_peer (p : Peer.WebRtcPeer) (st : State) : State :=
  {| mode := mode st; useAudio := useAudio st; useVideo := useVideo st;
     transceivers := transceivers st; handed := handed st; peer := p |}.

Definition hand (d : RTCSessionDescription) (st : State) : State :=
  {| mode := mode st; useAudio := useAudio st; useVideo := useVideo st;
     transceivers := transceivers st; handed := (handed st ++ [d])%list;
     peer := peer st |}.

(** [pc.addTransceiver(kind, { direction: 'recvonly' })]. *)
Definition addTransceiver (br : Browser) (k : TrackKind) (st : State)
    : option JsError * State :=
  match addTransceiver_result br (transceivers st) k with
  | Some e => (Some e, st)
  | None =>
      (None,
       with_transceivers
         (transceivers st ++ [{| media := k; direction := dir_recvonly |}])%list st)
  end.

(** [getTransceivers().forEach(t => { t.direction = 'sendonly' })]:
    [before] are the transceivers already written, [rest] those to come. *)
Fixpoint force_sendonly (br : Browser) (before rest : list Transceiver)
    : option JsError * list Transceiver :=
  match rest with
  | [] => (None, before)
  | t :: rest' =>
      match setDirection_result br (before ++ rest)%list (length before) with
      | Some e => (Some e, (before ++ rest)%list)
      | None =>
          force_sendonly br
            (before ++ [{| media := media t; direction := dir_sendonly |}])%list rest'
      end
  end.

(** The set-up of transceivers by mode, before the offer is created. *)
Definition prepare (br : Browser) (st : State) : option JsError * State :=
  match mode st with
  | recvonly =>
      let '(r1, st1) :=
        if useAudio st then addTransceiver br audio st else (None, st) in
      match r1 with
      | Some e => (Some e, st1)
      | None => if useVideo st1 then addTransceiver br video st1 else (None, st1)
      end
  | sendonly =>
      let '(r, ts) := force_sendonly br [] (transceivers st) in
      (r, with_transceivers ts st)
  | sendrecv => (None, st)
  end.

Definition after_local (t : RTCSdpType) : RTCSignalingState :=
  match t with
  | offer => have_local_offer
  | answer => stable
  | pranswer => have_local_pranswer
  | rollback => stable
  end.

Definition set_localDescription (d : option RTCSessionDescription)
    (pc : RTCPeerConnection) : RTCPeerConnection :=
  {| signalingState := signalingState pc;
     localDescription := d;
     remoteDescription := remoteDescription pc;
     addedCandidates := addedCandidates pc;
     senders := senders pc;
     receivers := receivers pc |}.

(** [generateOffer()]:
<<
if (this.mode === 'recvonly') {
  const useAudio = !!this.mediaConstraints?.audio
  const useVideo = !!this.mediaConstraints?.video
  useAudio && this.peerConnection.addTransceiver('audio', { direction: 'recvonly' })
  useVideo && this.peerConnection.addTransceiver('video', { direction: 'recvonly' })
} else if (this.mode === 'sendonly') {
  this.peerConnection.getTransceivers().forEach(transceiver => {
    transceiver.direction = 'sendonly' })
}
const sdp = await this.peerConnection.createOffer()
const offer = this.mangleSdpToAddSimulcast(sdp)
await this.peerConnection.setLocalDescription(offer)
const localDescription = this.peerConnection.localDescription
if (!localDescription) throw new Error('no local description')
logger.debug('Local description set\n', localDescription.sdp)
return localDescription.sdp
>>
    The awaited calls are taken to complete with no other task running in
    between. *)
Definition generateOffer (br : Browser) (st : State)
    : Peer.Completion string * State :=
  match prepare br st with
  | (Some e, st1) => (Peer.Threw e, st1)
  | (None, st1) =>
      let p := peer st1 in
      match createOffer_result br (Peer.peerConnection p) (transceivers st1) with
      | inl e => (Peer.Threw e, st1)
      | inr created =>
          let '(offer_, out) :=
            mangleSdpToAddSimulcast (Peer.simulcast p) (Peer.videoStream p) created in
          let p := Peer.logs out p in
          let st2 := hand offer_ (with_peer p st1) in
          match setLocalDescription_result br (Peer.peerConnection p) offer_ with
          | inl e => (Peer.Threw e, st2)
          | inr reported =>
              let pc1 :=
                set_signalingState (after_local (type offer_))
                  (set_localDescription reported (Peer.peerConnection p)) in
              let p := Peer.with_peerConnection pc1 p in
              match reported with
              | None => (Peer.Threw (Error "no local description"), with_peer p st2)
              | Some localDescription_ =>
                  (Peer.Returned (sdp localDescription_),
                   with_peer (Peer.log LogDebug "Local description set" p) st2)
              end
          end
      end
  end.

End Offer.

(** ** [start] *)

Module Start.

(** The media sources outside the peer: the camera for the constraints
    given ([audio], [video]), the screen ([None]: the browser has no
    stream to give), and whether attaching a track raises. *)
Record Devices := {
  getUserMedia_result : bool * bool -> JsError + MediaStream;
  getDisplayMedia_result : JsError + option MediaStream;
  addTrack_result : RTCPeerConnection -> MediaStreamTrack -> option JsError
}.

(** [MEDIA_CONSTRAINTS]: audio, and video at 640 wide and 15 frames. *)
Definition MEDIA_CONSTRAINTS : bool * bool := (true, true).

(** The fields [start] reads and writes. [mediaConstraints] keeps which of
    [audio] and [video] are requested. *)
Record State := {
  mode : Offer.WebRtcPeerMode;
  videoStream : option MediaStream;
  audioStream : option MediaStream;
  sendSource : string;
  mediaConstraints : option (bool * bool);
  peerConnection : RTCPeerConnection;
  localVideo : option Peer.HTMLVideoElement
}.

Definition with_videoStream (v : option MediaStream) (st : State) : State :=
  {| mode := mode st; videoStream := v; audioStream := audioStream st;
     sendSource := sendSource st; mediaConstraints := mediaConstraints st;
     peerConnection := peerConnection st; localVideo := localVideo st |}.

Definition with_peerConnection (pc : RTCPeerConnection) (st : State) : State :=
  {| mode := mode st; videoStream := videoStream st; audioStream := audioStream st;
     sendSource := sendSource st; mediaConstraints := mediaConstraints st;
     peerConnection := pc; localVideo := localVideo st |}.

Definition with_localVideo (v : option Peer.HTMLVideoElement) (st : State) : State :=
  {| mode := mode st; videoStream := videoStream st; audioStream := audioStream st;
     sendSource := sendSource st; mediaConstraints := mediaConstraints st;
     peerConnection := peerConnection st; localVideo := v |}.

(** [getScreenConstraints]:
<<
const stream = await navigator.mediaDevices.getDisplayMedia()
if (!stream) throw new Error('This library is not enabled for screen sharing')
return stream
>> *)
Definition getScreenConstraints (dev : Devices) : JsError + MediaStream :=
  match getDisplayMedia_result dev with
  | inl e => inl e
  | inr None => inl (Error "This library is not enabled for screen sharing")
  | inr (Some stream) => inr stream
  end.

(** The first statement of [start]: acquire a source when the mode sends
    and no stream was given, else wait one tick. *)
Definition acquire (dev : Devices) (st : State) : option JsError * State :=
  match mode st, videoStream st, audioStream st with
  | Offer.recvonly, _, _ | _, Some _, _ | _, _, Some _ => (None, st)
  | _, None, None =>
      let got :=
        if String.eqb (sendSource st) "webcam"
        then getUserMedia_result dev
               (match mediaConstraints st with
                | Some c => c
                | None => MEDIA_CONSTRAINTS
                end)
        else getScreenConstraints dev in
      match got with
      | inl e => (Some e, st)
      | inr stream => (None, with_videoStream (Some stream) st)
      end
  end.

(** [this.localVideo && this.showLocalVideo()], where [showLocalVideo]
    assigns [srcObject] and sets [muted]. *)
Definition showLocalVideo (st : State) : State :=
  match localVideo st with
  | None => st
  | Some v =>
      with_localVideo
        (Some {| Peer.paused := Peer.paused v;
                 Peer.srcObject := option_map stream_tracks (videoStream st);
                 Peer.muted := true;
                 Peer.loads := Peer.loads v |}) st
  end.

(** [tracks.forEach(track => this.peerConnection.addTrack(track, stream))]. *)
Fixpoint addTracks (dev : Devices) (ts : list MediaStreamTrack) (st : State)
    : option JsError * State :=
  match ts with
  | [] => (None, st)
  | t :: rest =>
      match addTrack_result dev (peerConnection st) t with
      | Some e => (Some e, st)
      | None =>
          addTracks dev rest
            (with_peerConnection
               (set_senders (senders (peerConnection st) ++ [t])%list
                  (peerConnection st)) st)
      end
  end.

(** The message of the error thrown on a closed connection; the word
    closed stands between double quotes. *)
Definition CLOSED_EARLY : string :=
  let quote := String (Ascii.ascii_of_nat 34) "" in
  "The peer connection object is in " ++ quote ++ "closed" ++ quote ++
  " state. This is most likely due to an invocation of the dispose method before accepting in the dialogue".

(** [start()]:
<<
if (this.mode !== 'recvonly' && !this.videoStream && !this.audioStream) {
  if (this.sendSource === 'webcam') {
    this.videoStream = await navigator.mediaDevices.getUserMedia(
      this.mediaConstraints || MEDIA_CONSTRAINTS)
  } else {
    this.videoStream = await WebRtcPeer.getScreenConstraints(this.sendSource)
  }
} else { await sleep() }
if (this.peerConnection.signalingState === 'closed') { throw new Error(...) }
if (this.videoStream) {
  this.localVideo && this.showLocalVideo()
  this.videoStream.getTracks()
    .forEach(track => this.peerConnection.addTrack(track, this.videoStream))
}
this.audioStream?.getTracks()
  .forEach(track => this.peerConnection.addTrack(track, this.audioStream!))
>>
    The awaited calls are taken to complete with no other task running in
    between. *)
Definition start (dev : Devices) (st : State) : Peer.Completion unit * State :=
  match acquire dev st with
  | (Some e, st1) => (Peer.Threw e, st1)
  | (None, st1) =>
      match signalingState (peerConnection st1) with
      | closed => (Peer.Threw (Error CLOSED_EARLY), st1)
      | _ =>
          let '(r2, st2) :=
            match videoStream st1 with
            | Some stream => addTracks dev (stream_tracks stream) (showLocalVideo st1)
            | None => (None, st1)
            end in
          match r2 with
          | Some e => (Peer.Threw e, st2)
          | None =>
              match audioStream st2 with
              | Some stream =>
                  match addTracks dev (stream_tracks stream) st2 with
                  | (Some e, st3) => (Peer.Threw e, st3)
                  | (None, st3) => (Peer.Returned tt, st3)
                  end
              | None => (Peer.Returned tt, st2)
              end
          end
      end
  end.

End Start.

(** ** Vocabulary of the further statements *)

(** The events up to and including the first null. *)
Fixpoint until_null (evs : list (option RTCIceCandidate))
    : list (option RTCIceCandidate) :=
  match evs with
  | [] => []
  | None :: _ => [None]
  | Some c :: rest => Some c :: until_null rest
  end.

(** The invocations that deliver the candidates [cs] to the listeners
    [ls] of 'icecandidate': candidate by candidate, listener by listener. *)
Definition deliveries (ls : list nat) (cs : list RTCIceCandidate) : list Routing.Call :=
  flat_map (fun c => map (fun l => {| Routing.call_listener := l;
                                      Routing.call_event := Routing.ev_icecandidate;
                                      Routing.call_argument := Some c |}) ls) cs.

(** The invocations that notify the listeners [ls] of
    'candidategatheringdone'. *)
Definition done_notifications (ls : list nat) : list Routing.Call :=
  map (fun l => {| Routing.call_listener := l;
                   Routing.call_event := Routing.ev_candidategatheringdone;
                   Routing.call_argument := None |}) ls.

(** Whether the terminal null is among the events. *)
Definition saw_null (evs : list (option RTCIceCandidate)) : bool :=
  existsb (fun e => match e with None => true | Some _ => false end) evs.

(** What the gate holds of the submitted candidates: those handed to
    [addIceCandidate], then those waiting in the queue. *)
Definition taken (w : Gate.World) : list RTCIceCandidate :=
  (addedCandidates (Gate.pc w) ++ (fst <$> Gate.candidatesQueue w))%list.

(** The answer arrives: the connection is stable with a remote
    description, and no other listener submits anything. *)
Definition answered : Dispatch.Change RTCIceCandidate :=
  {| Dispatch.state := stable;
     Dispatch.local := Some {| type := offer; sdp := "v=0 offer" |};
     Dispatch.remote := Some {| type := answer; sdp := "v=0 answer" |};
     Dispatch.early := [] |}.

(** The same change, during which a listener registered before the gate's
    submits the relay candidate. *)
Definition overtaken : Dispatch.Change RTCIceCandidate :=
  {| Dispatch.state := stable;
     Dispatch.local := Some {| type := offer; sdp := "v=0 offer" |};
     Dispatch.remote := Some {| type := answer; sdp := "v=0 answer" |};
     Dispatch.early := [relay_candidate] |}.

Definition waiting_events : list Dispatch.Event :=
  [Dispatch.Submit host_candidate].

(** In a stable connection nothing waits. *)
Definition drained (w : Gate.World) : Prop :=
  signalingState (Gate.pc w) = stable -> Gate.candidatesQueue w = [].

(** [track.stop()] on every track whose id is among [tids]. *)
Definition ended (t : MediaStreamTrack) : MediaStreamTrack :=
  {| track_kind := track_kind t; track_id := track_id t; track_ended := true |}.

Definition stopped (tids : list string) (t : MediaStreamTrack) : MediaStreamTrack :=
  if existsb (String.eqb (track_id t)) tids then ended t else t.

(** Nothing raises inside the guarded block of [dispose]. *)
Definition closes_cleanly (flt : Peer.Faults) : Prop :=
  flt Peer.call_dc_close = None /\
  flt Peer.call_getLocalStreams = None /\
  (forall tid, flt (Peer.call_track_stop tid) = None) /\
  flt Peer.call_pc_close = None.

(** A peer whose connection already holds a local description. *)
Definition negotiated_peer : Peer.WebRtcPeer :=
  Peer.with_peerConnection
    (Offer.set_localDescription (Some {| type := offer; sdp := "v=0 earlier offer" |})
       (fresh_connection have_local_offer))
    (sample_peer have_local_offer None [Peer.release_media]).

(** A browser that accepts remote descriptions but cannot answer. *)
Definition mute_browser : Browser :=
  {| addIceCandidate_result := fun _ _ => Resolved;
     setRemoteDescription_result := fun _ _ => None;
     createAnswer_result := fun _ => inl (Error "OperationError") |}.

(** What the 'sendonly' branch of [generateOffer] writes on a transceiver. *)
Definition sendonly_of (t : Offer.Transceiver) : Offer.Transceiver :=
  {| Offer.media := Offer.media t; Offer.direction := Offer.dir_sendonly |}.

(** The transceivers once the first [k] of them have been written. *)
Definition sendonly_upto (k : nat) (ts : list Offer.Transceiver)
    : list Offer.Transceiver :=
  (map sendonly_of (firstn k ts) ++ skipn k ts)%list.

(** The transceivers the 'recvonly' branch of [generateOffer] adds. *)
Definition requested (st : Offer.State) : list Offer.Transceiver :=
  ((if Offer.useAudio st
    then [{| Offer.media := audio; Offer.direction := Offer.dir_recvonly |}]
    else []) ++
   (if Offer.useVideo st
    then [{| Offer.media := video; Offer.direction := Offer.dir_recvonly |}]
    else []))%list.

(** [stream?.getTracks()] of an optional stream. *)
Definition tracks_of (o : option MediaStream) : list MediaStreamTrack :=
  match o with
  | Some stream => stream_tracks stream
  | None => []
  end.

(** A source is acquired by [start] only from a peer that sends and was
    given no stream. *)
Definition supplied (st : Start.State) : Prop :=
  Start.mode st = Offer.recvonly \/
  Start.videoStream st <> None \/
  Start.audioStream st <> None.

(** A browser that offers a fixed payload and reports as local description
    what it was handed. *)
Definition offering_browser : Offer.Browser :=
  {| Offer.addTransceiver_result := fun _ _ => None;
     Offer.setDirection_result := fun _ _ => None;
     Offer.createOffer_result := fun _ _ =>
       inr {| type := offer; sdp := "v=0 offer" |};
     Offer.setLocalDescription_result := fun _ d => inr (Some d) |}.

(** A browser whose second transceiver is stopped: writing its direction
    raises. *)
Definition second_write_fails : Offer.Browser :=
  {| Offer.addTransceiver_result := fun _ _ => None;
     Offer.setDirection_result := fun _ i =>
       if Nat.eqb i 1 then Some (Error "InvalidStateError") else None;
     Offer.createOffer_result := fun _ _ =>
       inr {| type := offer; sdp := "v=0 offer" |};
     Offer.setLocalDescription_result := fun _ d => inr (Some d) |}.

(** A peer ready to offer, with one audio and one video transceiver as
    [addTrack] creates them. *)
Definition offering_state (m : Offer.WebRtcPeerMode) : Offer.State :=
  {| Offer.mode := m;
     Offer.useAudio := true;
     Offer.useVideo := false;
     Offer.transceivers :=
       [ {| Offer.media := audio; Offer.direction := Offer.dir_sendrecv |};
         {| Offer.media := video; Offer.direction := Offer.dir_sendrecv |} ];
     Offer.handed := [];
     Offer.peer := sample_peer stable None [] |}.

Definition screen_stream : MediaStream :=
  {| stream_id := "screen-1";
     stream_tracks :=
       [ {| track_kind := video; track_id := "display-0"; track_ended := false |} ] |}.

(** Devices that give the camera and the screen. *)
Definition sample_devices : Start.Devices :=
  {| Start.getUserMedia_result := fun _ => inr sample_stream;
     Start.getDisplayMedia_result := inr (Some screen_stream);
     Start.addTrack_result := fun _ _ => None |}.

(** Devices whose user denies every capture. *)
Definition denied_devices : Start.Devices :=
  {| Start.getUserMedia_result := fun _ => inl (Error "NotAllowedError");
     Start.getDisplayMedia_result := inl (Error "NotAllowedError");
     Start.addTrack_result := fun _ _ => None |}.

Definition empty_connection (s : RTCSignalingState) : RTCPeerConnection :=
  {| signalingState := s;
     localDescription := None;
     remoteDescription := None;
     addedCandidates := [];
     senders := [];
     receivers := [] |}.

(** A peer before [start], on a connection in state [s]. *)
Definition starting_state (m : Offer.WebRtcPeerMode) (v : option MediaStream)
    (s : RTCSignalingState) : Start.State :=
  {| Start.mode := m;
     Start.videoStream := v;
     Start.audioStream := None;
     Start.sendSource := "webcam";
     Start.mediaConstraints := None;
     Start.peerConnection := empty_connection s;
     Start.localVideo := Some idle_video |}.

(** Local tracks of a peer that sends video only. *)
Definition video_only : list Tracks.LocalTrack :=
  [ {| Tracks.kind := video; Tracks.id := "cam-0"; Tracks.enabled := false |} ].

(** * Properties *)

(** ** Strings *)

Section StringFacts.

Lemma prefix_cons c p s : String.prefix (String c p) (String c s) = String.prefix p s.
Proof. simpl. destruct (ascii_dec c c) as [_ | Hne]; [reflexivity | now destruct Hne]. Qed.

Lemma substring_0_is_prefix n s : String.prefix (String.substring 0 n s) s = true.
Proof.
  revert n; induction s as [| c s IH]; intros [| n]; try reflexivity.
  cbn [String.substring]. rewrite prefix_cons. apply IH.
Qed.

Lemma prefix_refl s : String.prefix s s = true.
Proof. induction s as [| c s IH]; [reflexivity | now rewrite prefix_cons]. Qed.

(** A prefix of a prefix of [s] is a prefix of [s]. *)
Lemma prefix_of_substring p : forall s k,
  String.prefix p (String.substring 0 k s) = true -> String.prefix p s = true.
Proof.
  induction p as [| a p IH]; intros s k H; [now destruct s |].
  destruct s as [| c s]; [destruct k; discriminate H |].
  destruct k as [| k]; [discriminate H |].
  cbn [String.substring] in H. simpl in H |- *.
  destruct (ascii_dec a c); [eauto | discriminate H].
Qed.

Lemma substring_0_min s : forall k,
  String.substring 0 (Nat.min k (String.length s)) s = String.substring 0 k s.
Proof.
  induction s as [| c s IH]; intros [| k]; try reflexivity.
  cbn [String.length Nat.min String.substring]. now rewrite IH.
Qed.

(** [s.slice(0, n)] for a positive [n] is the first [n] characters. *)
Lemma slice_0_pos s n :
  0 < n -> Js.slice s 0 n = String.substring 0 (Z.to_nat n) s.
Proof.
  intros Hn. unfold Js.slice, Js.clamp.
  destruct (0 <? 0) eqn:E0; [apply Z.ltb_lt in E0; lia |].
  destruct (n <? 0) eqn:En; [apply Z.ltb_lt in En; lia |].
  replace (Z.to_nat (Z.min 0 (Z.of_nat (String.length s)))) with 0%nat by lia.
  replace (Z.to_nat (Z.max (Z.min n (Z.of_nat (String.length s))
                            - Z.min 0 (Z.of_nat (String.length s))) 0))
    with (Nat.min (Z.to_nat n) (String.length s)) by lia.
  apply substring_0_min.
Qed.

(** The text before the first occurrence of a pattern does not contain
    the pattern. *)
Lemma index_before_first pat : pat <> "" -> forall s n,
  String.index 0 pat s = Some n ->
  String.index 0 pat (String.substring 0 n s) = None.
Proof.
  intros Hpat. induction s as [| c s IH]; intros n H.
  - simpl in H. destruct pat; [now destruct Hpat | discriminate].
  - cbn [String.index] in H.
    destruct (String.prefix pat (String c s)) eqn:Hpre.
    + injection H as <-. simpl. destruct pat; [now destruct Hpat | reflexivity].
    + destruct (String.index 0 pat s) as [m |] eqn:Hidx; [| discriminate].
      injection H as <-. cbn [String.substring String.index].
      destruct (String.prefix pat (String c (String.substring 0 m s))) eqn:Hpre'.
      * apply (prefix_of_substring pat (String c s) (S m)) in Hpre'. congruence.
      * now rewrite (IH m eq_refl).
Qed.

Lemma indexOf_first pat s n :
  pat <> "" -> first_occurrence pat s n -> Js.indexOf s pat = Z.of_nat n.
Proof.
  intros Hpat [Hat Hbefore]. unfold Js.indexOf.
  destruct (String.index 0 pat s) as [m |] eqn:Hidx.
  - f_equal. destruct (Nat.lt_trichotomy m n) as [Hlt | [-> | Hgt]]; [| reflexivity |].
    + destruct (Hbefore m Hlt). eapply String.index_correct1; eauto.
    + destruct (String.index_correct2 _ _ _ _ Hidx n (Nat.le_0_l n) Hgt Hat).
  - destruct (String.index_correct3 0 n _ _ Hidx Hpat (Nat.le_0_l n) Hat).
Qed.

Lemma indexOf_absent pat s : absent pat s -> Js.indexOf s pat = -1.
Proof.
  intros Habs. unfold Js.indexOf.
  destruct (String.index 0 pat s) as [m |] eqn:Hidx; [| reflexivity].
  destruct (Habs m). eapply String.index_correct1; eauto.
Qed.

End StringFacts.

(** ** [removeFIDFromOffer] *)

Lemma prefix_true_append p : forall s,
  String.prefix p s = true -> exists t, s = p ++ t.
Proof.
  induction p as [| a p IH]; intros s H.
  - now exists s.
  - destruct s as [| c s]; [discriminate H |]. simpl in H.
    destruct (ascii_dec a c) as [-> |]; [| discriminate H].
    destruct (IH s H) as [t ->]. now exists t.
Qed.

Lemma FID_MARKER_nonempty : FID_MARKER <> "".
Proof. discriminate. Qed.

(** When the first occurrence of the marker is at a positive offset, the
    text is cut there. *)
Lemma removeFIDFromOffer_cuts s n :
  first_occurrence FID_MARKER s n -> (0 < n)%nat ->
  removeFIDFromOffer s = String.substring 0 n s.
Proof.
  intros Hocc Hn. unfold removeFIDFromOffer.
  rewrite (indexOf_first _ _ _ FID_MARKER_nonempty Hocc).
  destruct (0 <? Z.of_nat n) eqn:E; [| apply Z.ltb_ge in E; lia].
  rewrite slice_0_pos by lia. now rewrite Nat2Z.id.
Qed.

(** Without the marker the text is returned as it is. *)
Lemma removeFIDFromOffer_absent s :
  absent FID_MARKER s -> removeFIDFromOffer s = s.
Proof.
  intros Habs. unfold removeFIDFromOffer. now rewrite (indexOf_absent _ _ Habs).
Qed.

(** C5, at the input where the code departs from it: the marker opens the
    text (first occurrence at offset 0), the prefix that ends at that
    offset is the empty text, and [removeFIDFromOffer] returns the whole
    text instead, because it tests [n > 0]. *)
Theorem removeFIDFromOffer_keeps_leading_marker :
  let s := "a=ssrc-group:FID 1 2" in
  first_occurrence FID_MARKER s 0 /\
  Js.indexOf s FID_MARKER = 0 /\
  String.substring 0 0 s = "" /\
  removeFIDFromOffer s = s /\
  removeFIDFromOffer s <> String.substring 0 0 s.
Proof.
  cbv zeta. repeat split; try reflexivity; try discriminate.
  intros m Hm. lia.
Qed.

(** C10: the result of [removeFIDFromOffer] is a prefix of its argument,
    and applying it twice is the same as applying it once, wherever the
    marker occurs (at offset 0 too) and when it does not occur. *)
Theorem removeFIDFromOffer_prefix_idempotent (s : string) :
  String.prefix (removeFIDFromOffer s) s = true /\
  (exists rest, s = removeFIDFromOffer s ++ rest) /\
  removeFIDFromOffer (removeFIDFromOffer s) = removeFIDFromOffer s.
Proof.
  assert (Hcases :
    removeFIDFromOffer s = s \/
    exists n, String.index 0 FID_MARKER s = Some n /\
              removeFIDFromOffer s = String.substring 0 n s).
  { unfold removeFIDFromOffer, Js.indexOf.
    destruct (String.index 0 FID_MARKER s) as [n |] eqn:Hidx; [| now left].
    destruct (0 <? Z.of_nat n) eqn:E; [| now left].
    right. exists n. split; [reflexivity |].
    apply Z.ltb_lt in E. rewrite slice_0_pos by lia. now rewrite Nat2Z.id. }
  destruct Hcases as [Hid | (n & Hidx & Hcut)].
  - rewrite !Hid. split; [apply prefix_refl |].
    split; [| reflexivity]. exists "". clear.
    induction s as [| c s IH]; [reflexivity |].
    change (String c s = String c (s ++ "")). now rewrite <- IH.
  - rewrite Hcut.
    assert (Hpre := substring_0_is_prefix n s).
    split; [exact Hpre |]. split; [now apply prefix_true_append |].
    unfold removeFIDFromOffer at 1, Js.indexOf.
    now rewrite (index_before_first _ FID_MARKER_nonempty _ _ Hidx).
Qed.

(** ** [getSimulcastInfo] and [mangleSdpToAddSimulcast] *)

Section Lines.

Lemma append_cons c s t : String c s ++ t = String c (s ++ t).
Proof. reflexivity. Qed.

Lemma append_empty_r s : s ++ "" = s.
Proof. induction s as [| c s IH]; [reflexivity |]. now rewrite append_cons, IH. Qed.

Lemma append_assoc a b c : (a ++ b) ++ c = a ++ (b ++ c).
Proof. induction a as [| x a IH]; [reflexivity |]. now rewrite !append_cons, IH. Qed.

Lemma has_char_append c a b :
  Js.has_char c (a ++ b) = Js.has_char c a || Js.has_char c b.
Proof.
  induction a as [| x a IH]; [reflexivity |].
  rewrite append_cons. cbn [Js.has_char]. rewrite IH. now rewrite orb_assoc.
Qed.

(** Reading a stretch without line break only grows the current line. *)
Lemma lines_from_append x : forall cur rest,
  no_line_break x ->
  Js.lines_from cur (x ++ rest) = Js.lines_from (cur ++ x) rest.
Proof.
  unfold no_line_break.
  induction x as [| c x IH]; intros cur rest Hx.
  - now rewrite append_empty_r.
  - cbn [Js.has_char] in Hx. apply orb_false_elim in Hx as [Hc Hx].
    rewrite append_cons. cbn [Js.lines_from].
    rewrite Ascii.eqb_sym, Hc. rewrite IH by assumption.
    now rewrite append_assoc.
Qed.

Lemma lines_from_join ls : forall cur l,
  Forall no_line_break (l :: ls) ->
  Js.lines_from cur (join (String Js.LF "") (l :: ls)) = (cur ++ l) :: ls.
Proof.
  induction ls as [| l' ls IH]; intros cur l Hall.
  - cbn [join]. inversion Hall as [| ? ? Hl _]; subst.
    rewrite <- (append_empty_r l) at 1.
    rewrite (lines_from_append l cur "" Hl). reflexivity.
  - inversion Hall as [| ? ? Hl Hrest]; subst.
    change (join (String Js.LF "") (l :: l' :: ls))
      with (l ++ String Js.LF "" ++ join (String Js.LF "") (l' :: ls)).
    rewrite (lines_from_append l cur _ Hl).
    change (String Js.LF "" ++ join (String Js.LF "") (l' :: ls))
      with (String Js.LF (join (String Js.LF "") (l' :: ls))).
    cbn [Js.lines_from]. rewrite Ascii.eqb_refl.
    now rewrite (IH "" l' Hrest).
Qed.

(** Splitting a joined text gives the lines back, when no line contains
    a line break. *)
Lemma lines_join l ls :
  Forall no_line_break (l :: ls) ->
  Js.lines (join (String Js.LF "") (l :: ls)) = l :: ls.
Proof. intros H. unfold Js.lines. now rewrite lines_from_join. Qed.

Lemma simulcastTemplate_no_line_break sid tid :
  no_line_break sid -> no_line_break tid ->
  Forall no_line_break (simulcastTemplate sid tid).
Proof.
  unfold no_line_break. intros Hs Ht. unfold simulcastTemplate.
  repeat constructor; unfold no_line_break;
    rewrite ?has_char_append, ?Hs, ?Ht; reflexivity.
Qed.

End Lines.

(** C7: with no video track, [getSimulcastInfo] writes one warning and
    yields the empty text, so appending it leaves a description unchanged.
    With a video track (and ids free of line breaks, as browser-generated
    ids are), the block has one grouping directive, declares exactly the
    layers 1, 2 and 3, and the lines of each layer carry the stream's id
    and the id of the first video track. *)
Theorem getSimulcastInfo_layers (vs : MediaStream) :
  (getVideoTracks vs = [] ->
   getSimulcastInfo vs =
     ("", [(LogWarn, "No video tracks available in the video stream")]) /\
   forall d : string, d ++ fst (getSimulcastInfo vs) = d) /\
  (forall t0 rest,
   getVideoTracks vs = t0 :: rest ->
   no_line_break (stream_id vs) ->
   no_line_break (track_id t0) ->
   let sid := stream_id vs in
   let tid := track_id t0 in
   let block := Js.lines (fst (getSimulcastInfo vs)) in
   snd (getSimulcastInfo vs) = [] /\
   grouping_directives block = ["a=ssrc-group:SIM 1 2 3"] /\
   declared_layers block = ["1"; "2"; "3"] /\
   layer_lines "1" block =
     [ "a=ssrc:1 cname:localVideo";
       "a=ssrc:1 msid:" ++ sid ++ " " ++ tid ++ ",";
       "a=ssrc:1 mslabel:" ++ sid ++ ",";
       "a=ssrc:1 label:" ++ tid ] /\
   layer_lines "2" block =
     [ "a=ssrc:2 cname:localVideo'";
       "a=ssrc:2 msid:" ++ sid ++ " " ++ tid ++ ",";
       "a=ssrc:2 mslabel:" ++ sid;
       "a=ssrc:2 label:" ++ tid ] /\
   layer_lines "3" block =
     [ "a=ssrc:3 cname:localVideo";
       "a=ssrc:3 msid:" ++ sid ++ " " ++ tid ++ ",";
       "a=ssrc:3 mslabel:" ++ sid;
       "a=ssrc:3 label:" ++ tid ]).
Proof.
  split.
  - intros Hnone. unfold getSimulcastInfo. rewrite Hnone.
    split; [reflexivity |]. intros d. apply append_empty_r.
  - intros t0 rest Hsome Hs Ht sid tid block.
    subst block. unfold getSimulcastInfo. rewrite Hsome. cbn [fst snd].
    assert (Hlines :
      Js.lines (join (String Js.LF "") (simulcastTemplate (stream_id vs) (track_id t0)))
      = simulcastTemplate (stream_id vs) (track_id t0)).
    { exact (lines_join _ _ (simulcastTemplate_no_line_break _ _ Hs Ht)). }
    rewrite Hlines. repeat split.
Qed.

Lemma getSimulcastInfo_layers_witness :
  declared_layers (Js.lines (fst (getSimulcastInfo sample_stream))) = ["1"; "2"; "3"] /\
  layer_lines "2" (Js.lines (fst (getSimulcastInfo sample_stream))) =
    [ "a=ssrc:2 cname:localVideo'";
      "a=ssrc:2 msid:stream-7 cam-0,";
      "a=ssrc:2 mslabel:stream-7";
      "a=ssrc:2 label:cam-0" ].
Proof.
  destruct (getSimulcastInfo_layers sample_stream) as [_ H].
  destruct (H {| track_kind := video; track_id := "cam-0"; track_ended := false |} []
              eq_refl eq_refl eq_refl) as (_ & _ & H3 & _ & H5 & _).
  split; [exact H3 | exact H5].
Defined.

(** C8: with the simulcast flag unset the description is returned as it
    is; with the flag set the result has the type tag of the input, and
    its payload is the stripped payload followed by the simulcast block. *)
Theorem mangleSdpToAddSimulcast_keeps_type (vs : MediaStream) (d : RTCSessionDescription) :
  mangleSdpToAddSimulcast false vs d = (d, []) /\
  type (fst (mangleSdpToAddSimulcast true vs d)) = type d /\
  sdp (fst (mangleSdpToAddSimulcast true vs d)) =
    removeFIDFromOffer (sdp d) ++ fst (getSimulcastInfo vs).
Proof.
  unfold mangleSdpToAddSimulcast.
  destruct (getSimulcastInfo vs) as [info warns]. repeat split.
Qed.

(** ** The signaling gate *)

Section GateFacts.

Import Gate.
Local Open Scope nat_scope.
Local Open Scope list_scope.

Variable br : Browser.

Lemma wf_bufferizeCandidates p : wf (bufferizeCandidates p).
Proof.
  split; cbn.
  - intros id. rewrite lookup_empty. split; [intros [? ?]; discriminate | lia].
  - intros c id H. inversion H.
  - constructor.
  - intros id calls H. rewrite lookup_empty in H. discriminate.
Qed.

(** *** One application *)

Lemma apply_candidate_promise c id w :
  promises (apply_candidate br c id w) !! id =
  (fun calls => calls ++ [addIceCandidate_result br (pc w) c]) <$> promises w !! id.
Proof. cbn. apply lookup_alter_eq. Qed.

Lemma apply_candidate_other c id w id' :
  id <> id' ->
  promises (apply_candidate br c id w) !! id' = promises w !! id'.
Proof. intros Hne. cbn. now apply lookup_alter_ne. Qed.

(** *** The flush *)

Lemma flush_cons c id q w :
  flush br ((c, id) :: q) w = flush br q (apply_candidate br c id w).
Proof. reflexivity. Qed.

Lemma flush_frame q : forall w,
  candidatesQueue (flush br q w) = candidatesQueue w /\
  nextPromise (flush br q w) = nextPromise w /\
  pc (flush br q w) = pc_after (fst <$> q) (pc w).
Proof.
  induction q as [| [c id] q IH]; intros w; [easy |].
  rewrite flush_cons. destruct (IH (apply_candidate br c id w)) as (Hq & Hn & Hpc).
  rewrite Hq, Hn, Hpc. easy.
Qed.

(** Promises that are not in the flushed entries are not touched. *)
Lemma flush_other q : forall w id,
  id ∉ (snd <$> q) ->
  promises (flush br q w) !! id = promises w !! id.
Proof.
  induction q as [| [c id0] q IH]; intros w id Hnotin; [reflexivity |].
  rewrite flush_cons. rewrite fmap_cons in Hnotin. cbn [snd] in Hnotin.
  apply not_elem_of_cons in Hnotin as [Hne Hnotin].
  rewrite IH by assumption. apply apply_candidate_other. congruence.
Qed.

(** Each flushed entry gets exactly the call its own application decides:
    the candidate at position [k] is applied after the [k] entries before
    it, and its promise receives that result and nothing else. *)
Lemma flush_settles q : forall w,
  NoDup (snd <$> q) ->
  (forall c id, (c, id) ∈ q -> pending w id) ->
  forall k c id, q !! k = Some (c, id) ->
  promises (flush br q w) !! id =
  Some [addIceCandidate_result br (pc_after (fst <$> take k q) (pc w)) c].
Proof.
  induction q as [| [c0 id0] q IH]; intros w Hnd Hpend k c id Hk; [discriminate |].
  rewrite fmap_cons in Hnd. cbn [snd] in Hnd. apply NoDup_cons in Hnd as [Hnotin Hnd].
  rewrite flush_cons. destruct k as [| k].
  - injection Hk as <- <-. rewrite flush_other by assumption.
    rewrite apply_candidate_promise.
    rewrite (Hpend c0 id0) by (left). reflexivity.
  - cbn in Hk.
    assert (Hin : (c, id) ∈ q) by (eapply list_elem_of_lookup_2; eauto).
    rewrite (IH (apply_candidate br c0 id0 w) Hnd) with (k := k) (c := c); [easy | | easy].
    intros c' id' Hin'. unfold pending. rewrite apply_candidate_other.
    + apply (Hpend c' id'). now right.
    + intros ->. apply Hnotin. apply list_elem_of_fmap. now exists (c', id').
Qed.

(** *** The invariant *)

Lemma wf_queue_lt w c id : wf w -> (c, id) ∈ candidatesQueue w -> id < nextPromise w.
Proof.
  intros Hwf Hin. apply (wf_dom w Hwf).
  rewrite (wf_queue_pending w Hwf c id Hin). now eexists.
Qed.

Lemma wf_with_pc p w : wf w -> wf (with_pc p w).
Proof. intros [H1 H2 H3 H4]. now split. Qed.

Lemma wf_new_promise w :
  wf w ->
  wf (snd (new_promise w)) /\
  pending (snd (new_promise w)) (nextPromise w) /\
  nextPromise w ∉ (snd <$> candidatesQueue w).
Proof.
  intros Hwf.
  assert (Hfresh : nextPromise w ∉ (snd <$> candidatesQueue w)).
  { intros Hin. apply list_elem_of_fmap in Hin as ([c id] & Heq & Hin).
    apply (wf_queue_lt w c id Hwf) in Hin. cbn in Heq. lia. }
  split; [| split; [apply lookup_insert_eq | exact Hfresh]].
  split; cbn.
  - intros id. rewrite lookup_insert_is_Some, (wf_dom w Hwf). lia.
  - intros c id Hin. unfold pending. cbn.
    rewrite lookup_insert_ne; [now apply (wf_queue_pending w Hwf c) |].
    apply (wf_queue_lt w c id Hwf) in Hin. lia.
  - apply (wf_queue_nodup w Hwf).
  - intros id calls. rewrite lookup_insert_Some.
    intros [[_ <-] | [_ H]]; [cbn; lia | now apply (wf_once w Hwf id)].
Qed.

Lemma wf_settle id s w :
  wf w -> pending w id -> id ∉ (snd <$> candidatesQueue w) -> wf (settle id s w).
Proof.
  intros Hwf Hpend Hnotin. split; cbn.
  - intros j. rewrite lookup_alter_is_Some. apply (wf_dom w Hwf).
  - intros c j Hin. unfold pending. cbn. rewrite lookup_alter_ne.
    + now apply (wf_queue_pending w Hwf c).
    + intros ->. apply Hnotin. apply list_elem_of_fmap. now exists (c, j).
  - apply (wf_queue_nodup w Hwf).
  - intros j calls. destruct (decide (id = j)) as [<- | Hne].
    + rewrite lookup_alter_eq, Hpend. cbn. intros [= <-]. cbn. lia.
    + rewrite lookup_alter_ne by assumption. apply (wf_once w Hwf).
Qed.

Lemma wf_apply_candidate c id w :
  wf w -> pending w id -> id ∉ (snd <$> candidatesQueue w) ->
  wf (apply_candidate br c id w).
Proof.
  intros Hwf Hpend Hnotin. unfold apply_candidate.
  apply wf_settle; [now apply wf_with_pc | exact Hpend | exact Hnotin].
Qed.

Lemma wf_enqueue c id w :
  wf w -> pending w id -> id ∉ (snd <$> candidatesQueue w) -> wf (enqueue c id w).
Proof.
  intros Hwf Hpend Hnotin. split; cbn.
  - apply (wf_dom w Hwf).
  - intros c' j Hin. apply elem_of_app in Hin as [Hin | Hin].
    + now apply (wf_queue_pending w Hwf c').
    + apply list_elem_of_singleton in Hin. injection Hin as -> ->. exact Hpend.
  - rewrite fmap_app. apply NoDup_app. split; [apply (wf_queue_nodup w Hwf) |].
    split; [| apply NoDup_singleton].
    intros j Hj Hj'. cbn in Hj'. apply list_elem_of_singleton in Hj'. now subst.
  - apply (wf_once w Hwf).
Qed.

Lemma wf_submit c w : wf w -> wf (snd (submit br c w)).
Proof.
  intros Hwf. destruct (wf_new_promise w Hwf) as (Hwf0 & Hpend & Hfresh).
  unfold submit. destruct (new_promise w) as [id w0] eqn:Hnew.
  assert (id = nextPromise w) as -> by (now inversion Hnew).
  assert (candidatesQueue w0 = candidatesQueue w) as Hq by (now inversion Hnew).
  cbn [snd] in *. rewrite <- Hq in Hfresh.
  destruct (signalingState (pc w0));
    [destruct (remoteDescription (pc w0)) | | | | |];
    auto using wf_settle, wf_apply_candidate, wf_enqueue.
Qed.

Lemma elem_of_queue_lookup (q : list Submission) id :
  id ∈ (snd <$> q) -> exists k c, q !! k = Some (c, id).
Proof.
  intros Hin. apply list_elem_of_fmap in Hin as ([c id'] & -> & Hin).
  apply list_elem_of_lookup_1 in Hin as [k Hk]. now exists k, c.
Qed.

Lemma wf_onsignalingstatechange w : wf w -> wf (onsignalingstatechange br w).
Proof.
  intros Hwf. unfold onsignalingstatechange.
  destruct (signalingState (pc w)); try exact Hwf.
  pose proof (wf_queue_nodup w Hwf) as Hnd.
  pose proof (wf_queue_pending w Hwf) as Hpend.
  destruct (flush_frame (candidatesQueue w) w) as (_ & Hnext & _).
  split; cbn.
  - intros id. rewrite Hnext, <- (wf_dom w Hwf).
    destruct (decide (id ∈ (snd <$> candidatesQueue w))) as [Hin | Hnotin].
    + destruct (elem_of_queue_lookup _ _ Hin) as (k & c & Hk).
      rewrite (flush_settles _ w Hnd Hpend k c id Hk).
      rewrite (Hpend c id) by (eapply list_elem_of_lookup_2; eauto).
      split; intros _; now eexists.
    + now rewrite flush_other.
  - intros c id Hin. inversion Hin.
  - constructor.
  - intros id calls.
    destruct (decide (id ∈ (snd <$> candidatesQueue w))) as [Hin | Hnotin].
    + destruct (elem_of_queue_lookup _ _ Hin) as (k & c & Hk).
      rewrite (flush_settles _ w Hnd Hpend k c id Hk). intros [= <-]. cbn. lia.
    + rewrite flush_other by assumption. apply (wf_once w Hwf).
Qed.

Lemma wf_step e w : wf w -> wf (step br e w).
Proof.
  intros Hwf. destruct e as [c | s]; cbn.
  - now apply wf_submit.
  - apply wf_onsignalingstatechange. now apply wf_with_pc.
Qed.

Lemma wf_run es : forall w, wf w -> wf (run br es w).
Proof.
  induction es as [| e es IH]; intros w Hwf; [exact Hwf |].
  apply IH. now apply wf_step.
Qed.

(** Every world a gate can reach from its construction is well formed. *)
Lemma wf_reachable p es : wf (run br es (bufferizeCandidates p)).
Proof. apply wf_run, wf_bufferizeCandidates. Qed.

(** *** Submissions in a transitional state *)

Lemma submit_transitional c w :
  transitional (signalingState (pc w)) = true ->
  submit br c w = (nextPromise w, enqueue c (nextPromise w) (snd (new_promise w))).
Proof.
  intros Ht. unfold submit, new_promise. cbn [pc snd].
  destruct (signalingState (pc w)); try discriminate Ht; reflexivity.
Qed.

Lemma statechange_not_stable s w :
  s <> stable ->
  signalingstatechange br s w = with_pc (set_signalingState s (pc w)) w.
Proof.
  intros Hs. unfold signalingstatechange, onsignalingstatechange. cbn [pc with_pc].
  cbn [signalingState set_signalingState]. destruct s; try reflexivity. now destruct Hs.
Qed.

Lemma transitional_not_stable s : transitional s = true -> s <> stable.
Proof. now destruct s. Qed.

Lemma addedCandidates_pc_after cs : forall p,
  addedCandidates (pc_after cs p) = addedCandidates p ++ cs.
Proof.
  induction cs as [| c cs IH]; intros p; cbn.
  - now rewrite app_nil_r.
  - fold (pc_after cs (record_candidate c p)). rewrite IH. cbn. now rewrite <- app_assoc.
Qed.

(** While the connection stays transitional, every submission is appended
    to the queue with a new pending promise, and nothing else changes. *)
Lemma run_transitional es : forall w,
  transitional (signalingState (pc w)) = true ->
  keeps_transitional es ->
  let n := length (submitted es) in
  let w1 := run br es w in
  candidatesQueue w1 =
    candidatesQueue w ++ zip (submitted es) (seq (nextPromise w) n) /\
  nextPromise w1 = nextPromise w + n /\
  transitional (signalingState (pc w1)) = true /\
  addedCandidates (pc w1) = addedCandidates (pc w) /\
  remoteDescription (pc w1) = remoteDescription (pc w) /\
  (forall id, id < nextPromise w -> promises w1 !! id = promises w !! id) /\
  (forall id, nextPromise w <= id < nextPromise w1 -> pending w1 id).
Proof.
  induction es as [| e es IH]; intros w Ht Hes; cbn zeta.
  - cbn. rewrite app_nil_r, Nat.add_0_r. repeat split; try easy. lia.
  - inversion Hes as [| ? ? He Hes']; subst.
    change (run br (e :: es) w) with (run br es (step br e w)).
    destruct e as [c | s].
    + cbn [step]. rewrite submit_transitional by assumption. cbn [snd].
      set (w' := enqueue c (nextPromise w) (snd (new_promise w))).
      destruct (IH w' Ht Hes') as (Hq & Hn & Ht1 & Ha & Hr & Hold & Hnew).
      change (submitted (Submit c :: es)) with (c :: submitted es).
      cbn [length seq zip zip_with].
      change (nextPromise w') with (S (nextPromise w)) in *.
      repeat split; try assumption.
      * rewrite Hq. cbn. now rewrite <- app_assoc.
      * lia.
      * intros id Hid. rewrite Hold by lia. cbn. apply lookup_insert_ne. lia.
      * intros id Hid. destruct (decide (id = nextPromise w)) as [-> | Hne].
        -- unfold pending. rewrite Hold by lia. cbn. apply lookup_insert_eq.
        -- apply Hnew. lia.
    + cbn [step]. rewrite statechange_not_stable by now apply transitional_not_stable.
      change (submitted (StateChange s :: es)) with (submitted es).
      apply (IH (with_pc (set_signalingState s (pc w)) w)); assumption.
Qed.

(** *** A settled promise is never touched again *)

Lemma settled_not_queued w id s l :
  wf w -> promises w !! id = Some (s :: l) -> id ∉ (snd <$> candidatesQueue w).
Proof.
  intros Hwf Hset Hin. apply list_elem_of_fmap in Hin as ([c id'] & -> & Hin).
  apply (wf_queue_pending w Hwf) in Hin. unfold pending in Hin. cbn in Hset. congruence.
Qed.

Lemma settled_step e w id s l :
  wf w -> promises w !! id = Some (s :: l) ->
  promises (step br e w) !! id = Some (s :: l).
Proof.
  intros Hwf Hset.
  assert (Hlt : id < nextPromise w) by (apply (wf_dom w Hwf); rewrite Hset; eauto).
  destruct e as [c | st]; cbn [step].
  - unfold submit, new_promise. cbn [snd pc].
    destruct (signalingState (pc w)); [destruct (remoteDescription (pc w)) | | | | |];
      cbn; rewrite ?lookup_alter_ne by lia; rewrite lookup_insert_ne by lia; exact Hset.
  - unfold signalingstatechange, onsignalingstatechange. cbn [pc with_pc signalingState
      set_signalingState candidatesQueue].
    destruct st; try exact Hset. cbn [promises].
    rewrite flush_other; [exact Hset |]. now apply (settled_not_queued w id s l).
Qed.

Lemma settled_run es : forall w id s l,
  wf w -> promises w !! id = Some (s :: l) ->
  promises (run br es w) !! id = Some (s :: l).
Proof.
  induction es as [| e es IH]; intros w id s l Hwf Hset; [exact Hset |].
  apply IH; [now apply wf_step | now apply settled_step].
Qed.

(** *** A closed connection *)

Lemma run_closed es : forall w,
  signalingState (pc w) = closed ->
  stays_closed es ->
  let w1 := run br es w in
  signalingState (pc w1) = closed /\
  candidatesQueue w1 = candidatesQueue w /\
  addedCandidates (pc w1) = addedCandidates (pc w) /\
  (forall id, id < nextPromise w -> promises w1 !! id = promises w !! id).
Proof.
  induction es as [| e es IH]; intros w Hc Hes; cbn zeta; [easy |].
  inversion Hes as [| ? ? He Hes']; subst.
  change (run br (e :: es) w) with (run br es (step br e w)).
  destruct e as [c | s].
  - assert (Hstep : step br (Submit c) w =
      settle (nextPromise w) (Rejected (Error "PeerConnection object is closed"))
        (snd (new_promise w))).
    { cbn [step]. unfold submit, new_promise. cbn [snd pc]. now rewrite Hc. }
    rewrite Hstep.
    destruct (IH (settle (nextPromise w)
                    (Rejected (Error "PeerConnection object is closed"))
                    (snd (new_promise w))) Hc Hes') as (H1 & H2 & H3 & H4).
    repeat split; try assumption.
    intros id Hid. rewrite H4 by (cbn; lia). cbn.
    rewrite lookup_alter_ne by lia. apply lookup_insert_ne. lia.
  - subst s. cbn [step]. rewrite statechange_not_stable by discriminate.
    apply (IH (with_pc (set_signalingState closed (pc w)) w)); easy.
Qed.

Lemma gate_submit_closed c w :
  signalingState (pc w) = closed ->
  promises (snd (submit br c w)) !! fst (submit br c w) =
    Some [Rejected (Error "PeerConnection object is closed")] /\
  candidatesQueue (snd (submit br c w)) = candidatesQueue w.
Proof.
  intros Hc. unfold submit, new_promise. cbn [fst snd pc]. rewrite Hc. cbn.
  now rewrite lookup_alter_eq, lookup_insert_eq.
Qed.

End GateFacts.

(** C4: what the returned function does at once, by the state of the
    connection. Closed: the new promise is rejected with the closed error,
    the queue and the connection are as before. Stable without remote
    description: rejected with the missing-description error. Stable with
    a remote description: [addIceCandidate] is called now, and the promise
    gets the outcome of that call. *)
Theorem gate_submit_now (br : Browser) (c : RTCIceCandidate) (w : Gate.World) :
  let id := fst (Gate.submit br c w) in
  let w' := snd (Gate.submit br c w) in
  (signalingState (Gate.pc w) = closed ->
   Gate.promises w' !! id = Some [Rejected (Error "PeerConnection object is closed")] /\
   Gate.candidatesQueue w' = Gate.candidatesQueue w /\
   Gate.pc w' = Gate.pc w) /\
  (signalingState (Gate.pc w) = stable ->
   remoteDescription (Gate.pc w) = None ->
   Gate.promises w' !! id = Some [Rejected (Error "No Remote Description")] /\
   Gate.candidatesQueue w' = Gate.candidatesQueue w /\
   Gate.pc w' = Gate.pc w) /\
  (signalingState (Gate.pc w) = stable ->
   remoteDescription (Gate.pc w) <> None ->
   Gate.promises w' !! id = Some [addIceCandidate_result br (Gate.pc w) c] /\
   Gate.candidatesQueue w' = Gate.candidatesQueue w /\
   addedCandidates (Gate.pc w') = (addedCandidates (Gate.pc w) ++ [c])%list).
Proof.
  cbv zeta. unfold Gate.submit, Gate.new_promise. cbn [fst snd Gate.pc].
  split; [| split].
  - intros Hs. rewrite Hs. cbn.
    now rewrite lookup_alter_eq, lookup_insert_eq.
  - intros Hs Hr. rewrite Hs, Hr. cbn.
    now rewrite lookup_alter_eq, lookup_insert_eq.
  - intros Hs Hr. rewrite Hs.
    destruct (remoteDescription (Gate.pc w)) as [d |]; [| now destruct Hr]. cbn.
    now rewrite lookup_alter_eq, lookup_insert_eq.
Qed.

Lemma gate_submit_now_witness :
  Gate.promises
    (snd (Gate.submit sample_browser host_candidate
            (Gate.bufferizeCandidates (fresh_connection closed)))) !! 0%nat
  = Some [Rejected (Error "PeerConnection object is closed")] /\
  Gate.promises
    (snd (Gate.submit sample_browser host_candidate
            (Gate.bufferizeCandidates (fresh_connection stable)))) !! 0%nat
  = Some [Rejected (Error "No Remote Description")] /\
  Gate.promises
    (snd (Gate.submit sample_browser broken_candidate
            (Gate.bufferizeCandidates
               (set_remoteDescription {| type := answer; sdp := "v=0" |}
                  (fresh_connection stable))))) !! 0%nat
  = Some [Rejected (Error "OperationError")].
Proof.
  split; [| split].
  - destruct (gate_submit_now sample_browser host_candidate
                (Gate.bufferizeCandidates (fresh_connection closed))) as (H & _ & _).
    exact (proj1 (H eq_refl)).
  - destruct (gate_submit_now sample_browser host_candidate
                (Gate.bufferizeCandidates (fresh_connection stable))) as (_ & H & _).
    exact (proj1 (H eq_refl eq_refl)).
  - destruct (gate_submit_now sample_browser broken_candidate
                (Gate.bufferizeCandidates
                   (set_remoteDescription {| type := answer; sdp := "v=0" |}
                      (fresh_connection stable)))) as (_ & _ & H).
    refine (proj1 (H eq_refl _)). discriminate.
Defined.

Section GateClaims.

Local Open Scope nat_scope.
Local Open Scope list_scope.

(** C2: while the connection stays in transitional states, each submitted
    candidate is appended to the queue and its promise stays pending, and
    [addIceCandidate] is not called. The transition into stable then calls
    [addIceCandidate] on the queued candidates in submission order, empties
    the queue, and gives each promise the outcome of its own call, whatever
    the outcomes of the others; a promise settled there is never changed by
    any later event, and another transition into stable applies nothing. *)
Theorem gate_flush_fifo (br : Browser) (w : Gate.World) (es : list Gate.Event) :
  Gate.wf w ->
  Gate.transitional (signalingState (Gate.pc w)) = true ->
  Gate.keeps_transitional es ->
  let cs := Gate.submitted es in
  let ids := seq (Gate.nextPromise w) (length cs) in
  let w1 := Gate.run br es w in
  let w2 := Gate.signalingstatechange br stable w1 in
  Gate.candidatesQueue w1 = (Gate.candidatesQueue w ++ zip cs ids)%list /\
  (forall id, id ∈ ids -> Gate.pending w1 id) /\
  addedCandidates (Gate.pc w1) = addedCandidates (Gate.pc w) /\
  addedCandidates (Gate.pc w2) =
    (addedCandidates (Gate.pc w) ++ (fst <$> Gate.candidatesQueue w) ++ cs)%list /\
  Gate.candidatesQueue w2 = [] /\
  (forall k c, cs !! k = Some c ->
     Gate.promises w2 !! (Gate.nextPromise w + k)%nat =
     Some [addIceCandidate_result br
             (Gate.pc_after ((fst <$> Gate.candidatesQueue w) ++ take k cs)%list
                (set_signalingState stable (Gate.pc w1))) c]) /\
  (forall es' id, id ∈ ids ->
     Gate.promises (Gate.run br es' w2) !! id = Gate.promises w2 !! id) /\
  addedCandidates (Gate.pc (Gate.signalingstatechange br stable w2)) =
    addedCandidates (Gate.pc w2).
Proof.
  intros Hwf Ht Hes cs ids w1 w2.
  destruct (run_transitional br es w Ht Hes) as (Hq & Hn & Ht1 & Ha & Hr & Hold & Hnew).
  fold cs in Hq, Hn, Hnew. fold ids in Hq. fold w1 in Hq, Hn, Ht1, Ha, Hr, Hold, Hnew.
  assert (Hwf1 : Gate.wf w1) by (now apply wf_run).
  set (w1s := Gate.with_pc (set_signalingState stable (Gate.pc w1)) w1).
  assert (Hwf1s : Gate.wf w1s) by (now apply wf_with_pc).
  assert (Hlen : length cs <= length ids) by (unfold ids; now rewrite length_seq).
  assert (Hw2 : Gate.promises w2 = Gate.promises (Gate.flush br (Gate.candidatesQueue w1) w1s)
                /\ Gate.pc w2 = Gate.pc (Gate.flush br (Gate.candidatesQueue w1) w1s)
                /\ Gate.candidatesQueue w2 = []) by easy.
  destruct Hw2 as (Hp2 & Hpc2 & Hq2).
  destruct (flush_frame br (Gate.candidatesQueue w1) w1s) as (_ & Hnext2 & Hpcf).
  assert (Hsettled : forall k c, cs !! k = Some c ->
     Gate.promises w2 !! (Gate.nextPromise w + k)%nat =
     Some [addIceCandidate_result br
             (Gate.pc_after ((fst <$> Gate.candidatesQueue w) ++ take k cs)%list
                (set_signalingState stable (Gate.pc w1))) c]).
  { intros k c Hk. rewrite Hp2.
    assert (Hkq : Gate.candidatesQueue w1 !! (length (Gate.candidatesQueue w) + k)%nat
                  = Some (c, (Gate.nextPromise w + k)%nat)).
    { rewrite Hq, lookup_app_r by apply Nat.le_add_r.
      rewrite (Nat.add_comm _ k), Nat.add_sub.
      apply lookup_zip_with_Some. exists c, (Gate.nextPromise w + k)%nat.
      split; [reflexivity |]. split; [exact Hk |].
      apply lookup_seq_lt. apply lookup_lt_Some in Hk. exact Hk. }
    rewrite (flush_settles br (Gate.candidatesQueue w1) w1s
               (Gate.wf_queue_nodup _ Hwf1s) (Gate.wf_queue_pending _ Hwf1s) _ _ _ Hkq).
    do 3 f_equal.
    rewrite Hq, take_app_add, fmap_app, fmap_take. now rewrite fst_zip. }
  split; [exact Hq |].
  split; [intros id Hid; apply Hnew; unfold ids in Hid; apply elem_of_seq in Hid; lia |].
  split; [exact Ha |].
  split.
  { rewrite Hpc2, Hpcf, addedCandidates_pc_after. cbn. rewrite Ha, Hq, fmap_app.
    now rewrite fst_zip. }
  split; [exact Hq2 |].
  split; [exact Hsettled |].
  split.
  - intros es' id Hid. unfold ids in Hid. apply elem_of_seq in Hid.
    destruct (lookup_lt_is_Some_2 cs (id - Gate.nextPromise w)%nat) as [c Hc]; [lia |].
    pose proof (Hsettled _ _ Hc) as Hs.
    replace (Gate.nextPromise w + (id - Gate.nextPromise w))%nat with id in Hs by lia.
    rewrite Hs. apply settled_run; [| exact Hs].
    now apply wf_onsignalingstatechange.
  - unfold Gate.signalingstatechange at 1, Gate.onsignalingstatechange at 1.
    cbn [Gate.pc Gate.with_pc signalingState set_signalingState Gate.candidatesQueue].
    rewrite Hq2. reflexivity.
Qed.

Lemma gate_flush_fifo_witness :
  let w2 := Gate.signalingstatechange sample_browser stable
              (Gate.run sample_browser sample_events
                 (Gate.bufferizeCandidates (fresh_connection have_local_offer))) in
  addedCandidates (Gate.pc w2) = [host_candidate; broken_candidate; relay_candidate] /\
  Gate.candidatesQueue w2 = [] /\
  Gate.promises w2 !! 1%nat = Some [Rejected (Error "OperationError")] /\
  Gate.promises w2 !! 2%nat = Some [Resolved].
Proof.
  destruct (gate_flush_fifo sample_browser
              (Gate.bufferizeCandidates (fresh_connection have_local_offer))
              sample_events
              (wf_bufferizeCandidates _) eq_refl
              ltac:(repeat constructor))
    as (_ & _ & _ & Happlied & Hempty & Hsettle & _).
  exact (conj Happlied
          (conj Hempty
             (conj (Hsettle 1%nat broken_candidate eq_refl)
                   (Hsettle 2%nat relay_candidate eq_refl)))).
Defined.

(** C3 fails where it promises rejection on close: a candidate is
    submitted while the connection has a local offer, then the connection
    is closed. The listener returns at once because the state is not
    stable: the entry is still queued, no settlement call was made on its
    promise, and it is not rejected. *)
Lemma gate_close_leaves_pending :
  let w := Gate.signalingstatechange sample_browser closed
             (snd (Gate.submit sample_browser host_candidate
                     (Gate.bufferizeCandidates (fresh_connection have_local_offer)))) in
  signalingState (Gate.pc w) = closed /\
  Gate.candidatesQueue w = [(host_candidate, 0)] /\
  Gate.promises w !! 0 = Some [] /\
  ~ (exists e, Gate.state_of w 0 = Some (Rejected e)).
Proof.
  cbv zeta. split; [reflexivity |]. split; [reflexivity |]. split; [reflexivity |].
  intros [e He]. discriminate He.
Qed.

(** C3, amended. No promise of the gate ever receives more than one
    settlement call. A candidate submitted while the connection is closed
    is rejected at once. A candidate submitted in a transitional state is
    queued and pending for as long as the connection stays transitional;
    the next transition into stable gives its promise exactly one call, the
    outcome of its own [addIceCandidate] call (made after the calls for the
    candidates queued before it), and no later event adds another. A
    transition to closed does not settle it:
    for as long as the connection stays closed it remains queued and
    pending. *)
Theorem gate_settles_once (br : Browser) (w : Gate.World) (c : RTCIceCandidate) :
  Gate.wf w ->
  let id := fst (Gate.submit br c w) in
  let w1 := snd (Gate.submit br c w) in
  (forall es j calls,
     Gate.promises (Gate.run br es w1) !! j = Some calls -> length calls <= 1) /\
  (signalingState (Gate.pc w) = closed ->
   forall es,
     Gate.promises (Gate.run br es w1) !! id =
     Some [Rejected (Error "PeerConnection object is closed")]) /\
  (Gate.transitional (signalingState (Gate.pc w)) = true ->
   forall es0, Gate.keeps_transitional es0 ->
   let w2 := Gate.run br es0 w1 in
   Gate.pending w2 id /\
   (c, id) ∈ Gate.candidatesQueue w2 /\
   (forall es,
      Gate.promises (Gate.run br es (Gate.signalingstatechange br stable w2)) !! id
      = Some [addIceCandidate_result br
                (Gate.pc_after (fst <$> Gate.candidatesQueue w)
                   (set_signalingState stable (Gate.pc w2))) c]) /\
   (forall es, Gate.stays_closed es ->
      let w3 := Gate.run br es (Gate.signalingstatechange br closed w2) in
      Gate.pending w3 id /\ (c, id) ∈ Gate.candidatesQueue w3)).
Proof.
  intros Hwf id w1.
  assert (Hwf1 : Gate.wf w1) by (now apply wf_submit).
  split; [| split].
  - intros es j calls. apply (Gate.wf_once _ (wf_run br es w1 Hwf1)).
  - intros Hc es.
    destruct (gate_submit_closed br c w Hc) as (Hrej & _).
    apply settled_run; [exact Hwf1 | exact Hrej].
  - intros Ht es0 Hes0 w2.
    assert (Hsub := submit_transitional br c w Ht).
    assert (Hid : id = Gate.nextPromise w) by (unfold id; now rewrite Hsub).
    assert (Hw1 : w1 = Gate.enqueue c (Gate.nextPromise w) (snd (Gate.new_promise w)))
      by (unfold w1; now rewrite Hsub).
    assert (Ht1 : Gate.transitional (signalingState (Gate.pc w1)) = true)
      by (now rewrite Hw1).
    destruct (run_transitional br es0 w1 Ht1 Hes0) as (Hq & _).
    fold w2 in Hq.
    assert (Hwf2 : Gate.wf w2) by (now apply wf_run).
    assert (Hin : (c, id) ∈ Gate.candidatesQueue w2).
    { rewrite Hq. apply elem_of_app. left.
      rewrite Hw1, Hid. cbn. apply elem_of_app. right. left. }
    assert (Hpend : Gate.pending w2 id) by (now apply (Gate.wf_queue_pending w2 Hwf2 c)).
    split; [exact Hpend |]. split; [exact Hin |]. split.
    + set (w2s := Gate.with_pc (set_signalingState stable (Gate.pc w2)) w2).
      assert (Hwf2s : Gate.wf w2s) by (now apply wf_with_pc).
      assert (Hq1 : Gate.candidatesQueue w1 = Gate.candidatesQueue w ++ [(c, id)])
        by (now rewrite Hw1, Hid).
      assert (Hk : Gate.candidatesQueue w2 !! length (Gate.candidatesQueue w)
                   = Some (c, id)).
      { rewrite Hq, Hq1, <- app_assoc.
        rewrite lookup_app_r by reflexivity. now rewrite Nat.sub_diag. }
      assert (Htake : take (length (Gate.candidatesQueue w)) (Gate.candidatesQueue w2)
                      = Gate.candidatesQueue w).
      { rewrite Hq, Hq1, <- app_assoc. now rewrite take_app_length. }
      intros es. apply settled_run.
      * now apply wf_onsignalingstatechange.
      * rewrite <- Htake.
        exact (flush_settles br (Gate.candidatesQueue w2) w2s
                 (Gate.wf_queue_nodup _ Hwf2s) (Gate.wf_queue_pending _ Hwf2s)
                 _ c id Hk).
    + intros es Hes w3.
      assert (Hlt : id < Gate.nextPromise w2)
        by (apply (Gate.wf_dom w2 Hwf2); rewrite Hpend; eauto).
      destruct (run_closed br es (Gate.signalingstatechange br closed w2)) as (_ & Hq3 & _ & Hp).
      * now rewrite statechange_not_stable.
      * exact Hes.
      * rewrite statechange_not_stable in Hq3, Hp by discriminate.
        subst w3. rewrite statechange_not_stable by discriminate.
        unfold Gate.pending. rewrite Hq3, Hp by exact Hlt.
        split; [exact Hpend | exact Hin].
Qed.

Lemma gate_settles_once_witness :
  let w1 := snd (Gate.submit sample_browser host_candidate
                   (Gate.bufferizeCandidates (fresh_connection have_local_offer))) in
  Gate.pending
    (Gate.run sample_browser [Gate.Submit relay_candidate; Gate.StateChange closed]
       (Gate.signalingstatechange sample_browser closed w1)) 0 /\
  forall es,
    Gate.promises
      (Gate.run sample_browser es (Gate.signalingstatechange sample_browser stable w1)) !! 0
    = Some [Resolved].
Proof.
  destruct (gate_settles_once sample_browser
              (Gate.bufferizeCandidates (fresh_connection have_local_offer))
              host_candidate (wf_bufferizeCandidates _)) as (_ & _ & H).
  destruct (H eq_refl [] ltac:(constructor)) as (_ & _ & Hstable & Hclosed).
  exact (conj (proj1 (Hclosed [Gate.Submit relay_candidate; Gate.StateChange closed]
                        ltac:(repeat constructor)))
              Hstable).
Defined.

End GateClaims.

(** ** Routing of locally gathered candidates *)

Section RoutingFacts.

Import Routing.
Local Open Scope list_scope.





End RoutingFacts.


(** ** [processOffer] *)

(** On a closed connection [processOffer] throws before it touches the
    connection or the video element: only the console has a new line. *)
Lemma processOffer_closed (br : Browser) (s : string) (p : Peer.WebRtcPeer) :
  signalingState (Peer.peerConnection p) = closed ->
  Peer.processOffer br s p =
    (Peer.Threw (Error "PeerConnection is closed"),
     Peer.log LogDebug "SDP offer received, setting remote description" p).
Proof. intros Hc. unfold Peer.processOffer. cbn. now rewrite Hc. Qed.

Lemma logs_peerConnection out p :
  Peer.peerConnection (Peer.logs out p) = Peer.peerConnection p.
Proof.
  revert p. induction out as [| e out IH]; intros p; [reflexivity |].
  cbn. unfold Peer.logs in IH. now rewrite IH.
Qed.

Lemma setRemoteVideo_peerConnection p :
  Peer.peerConnection (Peer.setRemoteVideo p) = Peer.peerConnection p.
Proof. unfold Peer.setRemoteVideo. now destruct (Peer.remoteVideo p). Qed.

(** Whatever the browser answers, [processOffer] leaves the connection's
    local description as it found it. *)
Lemma processOffer_keeps_localDescription (br : Browser) (s : string) (p : Peer.WebRtcPeer) :
  localDescription (Peer.peerConnection (snd (Peer.processOffer br s p))) =
  localDescription (Peer.peerConnection p).
Proof.
  unfold Peer.processOffer. cbn [Peer.peerConnection Peer.log].
  destruct (signalingState (Peer.peerConnection p)) eqn:Hs; try reflexivity;
    unfold Peer.setRemoteDescription;
    (destruct (setRemoteDescription_result br (Peer.peerConnection p) _);
     [reflexivity |]);
    match goal with
    | |- context [createAnswer_result br ?c] => destruct (createAnswer_result br c)
    end; try (cbn; rewrite ?setRemoteVideo_peerConnection; reflexivity);
    match goal with
    | |- context [mangleSdpToAddSimulcast ?a ?b ?c] =>
        destruct (mangleSdpToAddSimulcast a b c) as [ans out]
    end;
    match goal with
    | |- context [match ?x with Some _ => _ | None => _ end] => destruct x
    end; cbn; rewrite ?logs_peerConnection, ?setRemoteVideo_peerConnection; reflexivity.
Qed.

(** C1, at an input where the code departs from it: a fresh connection in
    state stable, with no local description, and a browser that accepts
    the offer and generates an answer. [processOffer] stores the offer as
    remote description and obtains the answer, but never hands it to
    [setLocalDescription]: the local description is still absent, so the
    call ends with the error 'no local description' instead of returning
    a payload. *)
Theorem processOffer_answer_not_applied :
  let p := sample_peer stable None [Peer.release_media] in
  let r := Peer.processOffer sample_browser "v=0 offer" p in
  fst r = Peer.Threw (Error "no local description") /\
  remoteDescription (Peer.peerConnection (snd r)) =
    Some {| type := offer; sdp := "v=0 offer" |} /\
  signalingState (Peer.peerConnection (snd r)) = have_remote_offer /\
  localDescription (Peer.peerConnection (snd r)) = None /\
  (forall br s q,
     localDescription (Peer.peerConnection (snd (Peer.processOffer br s q))) =
     localDescription (Peer.peerConnection q)).
Proof.
  cbv zeta. split; [reflexivity |]. split; [reflexivity |].
  split; [reflexivity |]. split; [reflexivity |].
  exact processOffer_keeps_localDescription.
Qed.

(** ** [dispose] *)

Section DisposeFacts.

Import Peer.
Local Open Scope list_scope.

Variable flt : Faults.

Lemma frame_refl p : frame p p.
Proof. split; try reflexivity. exists []. now rewrite app_nil_r. Qed.

Lemma frame_trans p q r : frame p q -> frame q r -> frame p r.
Proof.
  intros [A2 A3 [m1 A4]] [B2 B3 [m2 B4]]. split; try congruence.
  exists (m1 ++ m2). now rewrite B4, A4, app_assoc.
Qed.

Lemma frame_traced c p : frame p (traced c p).
Proof. split; try reflexivity. exists []. cbn. now rewrite app_nil_r. Qed.

Lemma frame_stop_effect tid p : frame p (stop_effect tid p).
Proof. split; try reflexivity. exists []. cbn. now rewrite app_nil_r. Qed.

Lemma seq_normal (a b : Cmd) p :
  fst (a p) = Normal -> (a ;;; b) p = b (snd (a p)).
Proof. unfold seq. destruct (a p) as [o q]. cbn. now intros ->. Qed.

Lemma seq_stops (a b : Cmd) p :
  fst (a p) <> Normal -> (a ;;; b) p = a p.
Proof. unfold seq. destruct (a p) as [[| |e] q]; cbn; congruence. Qed.

Lemma stop_tracks_frame ts : forall p,
  frame p (snd (stop_tracks flt ts p)) /\ fst (stop_tracks flt ts p) <> Return.
Proof.
  induction ts as [| t ts IH]; intros p; cbn [stop_tracks].
  - split; [apply frame_refl | discriminate].
  - unfold seq, ext. destruct (flt (call_track_stop (track_id t))) as [e |]; cbn.
    + split; [apply frame_traced | discriminate].
    + destruct (IH (stop_effect (track_id t) (traced (call_track_stop (track_id t)) p)))
        as [Hf Hr].
      split; [| exact Hr].
      eapply frame_trans; [| exact Hf].
      eapply frame_trans; [apply frame_traced | apply frame_stop_effect].
Qed.

Lemma stop_tracks_listeners ts : forall p,
  disposeListeners (snd (stop_tracks flt ts p)) = disposeListeners p.
Proof.
  induction ts as [| t ts IH]; intros p; cbn [stop_tracks]; [reflexivity |].
  unfold seq, ext. destruct (flt (call_track_stop (track_id t))); [reflexivity |].
  now rewrite IH.
Qed.

Lemma close_all_unfold p :
  close_all flt p =
  match flt call_getLocalStreams with
  | Some e => (Throw e, traced call_getLocalStreams p)
  | None =>
      let p1 := traced call_getLocalStreams p in
      match stop_tracks flt (senders (peerConnection p1)) p1 with
      | (Normal, p2) =>
          match flt call_pc_close with
          | Some e => (Throw e, traced call_pc_close p2)
          | None => (Normal, pc_close_effect (traced call_pc_close p2))
          end
      | r => r
      end
  end.
Proof.
  unfold close_all, seq, ext. now destruct (flt call_getLocalStreams).
Qed.

Lemma close_all_spec p :
  let r := close_all flt p in
  fst r <> Return /\
  disposeListeners (snd r) = disposeListeners p /\
  (exists more, console (snd r) = console p ++ more) /\
  (fst r = Normal ->
   signalingState (peerConnection (snd r)) = closed /\
   dataChannel (snd r) =
     match dataChannel p with Some _ => Some dc_closed | None => None end).
Proof.
  cbv zeta. rewrite close_all_unfold.
  assert (Hnil : exists more, console p = console p ++ more)
    by (exists []; now rewrite app_nil_r).
  destruct (flt call_getLocalStreams) as [e |].
  { cbn. repeat split; try discriminate; assumption. }
  cbv zeta. set (p1 := traced call_getLocalStreams p).
  destruct (stop_tracks_frame (senders (peerConnection p1)) p1) as [[F2 F3 F4] Hr].
  pose proof (stop_tracks_listeners (senders (peerConnection p1)) p1) as F1.
  change (console p1) with (console p) in F4.
  change (disposeListeners p1) with (disposeListeners p) in F1.
  change (dataChannel p1) with (dataChannel p) in F2.
  destruct (stop_tracks flt (senders (peerConnection p1)) p1) as [o p2].
  cbn [fst snd] in *.
  destruct o as [| | e]; [| now destruct Hr |].
  - destruct (flt call_pc_close) as [e |]; cbn [fst snd].
    + split; [discriminate |]. split; [exact F1 |]. split; [exact F4 | discriminate].
    + split; [discriminate |].
      split; [unfold pc_close_effect; cbn; now destruct (dataChannel p2) |].
      split; [unfold pc_close_effect; cbn; now destruct (dataChannel p2) |].
      intros _. unfold pc_close_effect. cbn. rewrite F2.
      now destruct (dataChannel p).
  - split; [discriminate |]. split; [exact F1 |]. split; [exact F4 | discriminate].
Qed.

(** The guarded block: it keeps the listeners, only adds to the console,
    and when it ends without raising there is nothing left to close. *)
Lemma teardown_spec p :
  let r := teardown flt p in
  disposeListeners (snd r) = disposeListeners p /\
  (exists more, console (snd r) = console p ++ more) /\
  (coherent p -> (forall e, fst r <> Throw e) -> torn_down (snd r)).
Proof.
  cbv zeta.
  assert (Hnil : forall q : WebRtcPeer, exists more, console q = console q ++ more)
    by (intros q; exists []; now rewrite app_nil_r).
  assert (Hsecond : forall q : WebRtcPeer,
    let r := (match signalingState (peerConnection q) with
              | closed => (Return, q)
              | _ => close_all flt q
              end) in
    disposeListeners (snd r) = disposeListeners q /\
    (exists more, console (snd r) = console q ++ more) /\
    ((signalingState (peerConnection q) = closed -> dataChannel q = None) ->
     (forall e, fst r <> Throw e) ->
     signalingState (peerConnection (snd r)) = closed /\
     dataChannel (snd r) =
       match dataChannel q with Some _ => Some dc_closed | None => None end)).
  { intros q. cbv zeta.
    destruct (close_all_spec q) as (Hr & Hl & Hc & Hn).
    destruct (signalingState (peerConnection q)) eqn:Hs;
      try (split; [exact Hl |]; split; [exact Hc |]; intros _ Hno; apply Hn;
           destruct (fst (close_all flt q)) as [| | e];
           [reflexivity | now destruct Hr | now destruct (Hno e)]).
    cbn [fst snd]. split; [reflexivity |]. split; [apply Hnil |].
    intros Hdc _. split; [exact Hs |]. now rewrite (Hdc eq_refl). }
  unfold teardown, seq.
  destruct (dataChannel p) as [st |] eqn:Hdc.
  - assert (Hgo : st <> dc_closed ->
      let r := (match ext flt call_dc_close dc_close_effect p with
                | (Normal, p') =>
                    match signalingState (peerConnection p') with
                    | closed => (Return, p')
                    | _ => close_all flt p'
                    end
                | r => r
                end) in
      disposeListeners (snd r) = disposeListeners p /\
      (exists more, console (snd r) = console p ++ more) /\
      (coherent p -> (forall e, fst r <> Throw e) -> torn_down (snd r))).
    { intros Hst. cbv zeta. unfold ext.
      destruct (flt call_dc_close) as [e |].
      { cbn [fst snd]. split; [reflexivity |]. split; [exact (Hnil p) |].
        intros _ Hno. now destruct (Hno e). }
      set (q := dc_close_effect (traced call_dc_close p)).
      assert (Hq : exists st', dataChannel q = Some st').
      { unfold q, dc_close_effect. cbn. rewrite Hdc. destruct st; cbn; eauto. }
      assert (Hqs : signalingState (peerConnection q) = signalingState (peerConnection p)).
      { unfold q, dc_close_effect. cbn. rewrite Hdc. now destruct st. }
      assert (Hql : disposeListeners q = disposeListeners p).
      { unfold q, dc_close_effect. cbn. rewrite Hdc. now destruct st. }
      assert (Hqc : console q = console p).
      { unfold q, dc_close_effect. cbn. rewrite Hdc. now destruct st. }
      destruct (Hsecond q) as (Hl & Hc & Hn).
      split; [now rewrite Hl |]. split; [now rewrite <- Hqc |].
      intros Hcoh Hno. left.
      destruct Hq as [st' Hq'].
      destruct Hn as [_ Hd]; [| exact Hno | now rewrite Hd, Hq'].
      intros Hclosed. rewrite Hqs in Hclosed.
      destruct (Hcoh Hclosed) as [Hnone | Hcl]; rewrite Hdc in *; congruence. }
    destruct st; try (apply Hgo; discriminate).
    cbn [fst snd]. split; [reflexivity |]. split; [apply Hnil |].
    intros _ _. now left.
  - destruct (Hsecond p) as (Hl & Hc & Hn).
    split; [exact Hl |]. split; [exact Hc |].
    intros _ Hno. right. destruct Hn as [Hs Hd]; [now intros _ | exact Hno |].
    rewrite Hdc in Hd. now split.
Qed.

(** *** The notification *)




(** *** The whole call *)

(** With nothing left to close, [dispose] writes its debug line and
    returns: no call into the browser, no notification. *)
Lemma dispose_early_return p :
  torn_down p ->
  dispose flt p = (Returned tt, log LogDebug "Disposing WebRtcPeer" p).
Proof.
  intros [Hdc | [Hdc Hs]]; unfold dispose, teardown, seq; cbn [log dataChannel].
  - now rewrite Hdc.
  - rewrite Hdc. cbn [log peerConnection]. now rewrite Hs.
Qed.

End DisposeFacts.




(** * Further properties *)

(** ** Routing of locally gathered candidates: the live path *)

Section RoutingMore.

Import Routing.
Local Open Scope list_scope.

Lemma icecandidate_live c st :
  on_icecandidate st ++ on_candidategatheringdone st <> [] ->
  icecandidate (Some c) st =
  {| on_icecandidate := on_icecandidate st;
     on_candidategatheringdone := on_candidategatheringdone st;
     candidatesQueueOut := candidatesQueueOut st;
     candidategatheringdone := true;
     calls := calls st ++ deliveries (on_icecandidate st) [c] |}.
Proof.
  intros Hl. destruct st as [li ld q f log]. cbn in Hl |- *.
  unfold deliveries. cbn [flat_map]. rewrite app_nil_r.
  destruct li as [| l ls]; destruct ld as [| l' ls']; [now destruct Hl | | |];
    reflexivity.
Qed.

Lemma icecandidate_null st :
  on_icecandidate st ++ on_candidategatheringdone st <> [] ->
  icecandidate None st =
  {| on_icecandidate := on_icecandidate st;
     on_candidategatheringdone := on_candidategatheringdone st;
     candidatesQueueOut := candidatesQueueOut st;
     candidategatheringdone := true;
     calls := calls st ++
              if candidategatheringdone st then []
              else done_notifications (on_candidategatheringdone st) |}.
Proof.
  intros Hl. destruct st as [li ld q f log]. cbn in Hl |- *.
  destruct li as [| l ls]; destruct ld as [| l' ls']; [now destruct Hl | | |];
    (destruct f; [rewrite app_nil_r |]; reflexivity).
Qed.

(** Once the flag is set, a subscribed peer hands on candidates and
    nothing else. *)
Lemma gather_flagged evs : forall st,
  on_icecandidate st ++ on_candidategatheringdone st <> [] ->
  candidategatheringdone st = true ->
  gather evs st =
  {| on_icecandidate := on_icecandidate st;
     on_candidategatheringdone := on_candidategatheringdone st;
     candidatesQueueOut := candidatesQueueOut st;
     candidategatheringdone := true;
     calls := calls st ++ deliveries (on_icecandidate st) (omap (fun e => e) evs) |}.
Proof.
  induction evs as [| [c |] evs IH]; intros st Hl Hf.
  - destruct st as [li ld q f log]. cbn in Hf |- *. subst f.
    unfold deliveries. cbn. now rewrite app_nil_r.
  - change (gather (Some c :: evs) st) with (gather evs (icecandidate (Some c) st)).
    rewrite (icecandidate_live c st Hl). rewrite IH by (cbn; easy).
    cbn [on_icecandidate on_candidategatheringdone candidatesQueueOut calls].
    f_equal. rewrite <- app_assoc. f_equal.
    unfold deliveries. cbn [omap list_omap flat_map]. now rewrite app_nil_r.
  - change (gather (None :: evs) st) with (gather evs (icecandidate None st)).
    rewrite (icecandidate_null st Hl), Hf. rewrite IH by (cbn; easy).
    cbn [on_icecandidate on_candidategatheringdone candidatesQueueOut calls].
    now rewrite app_nil_r.
Qed.

Lemma gather_ignored evs : forall st,
  on_icecandidate st = [] -> on_candidategatheringdone st = [] ->
  candidategatheringdone st = true ->
  gather evs st = st.
Proof.
  induction evs as [| e evs IH]; intros st Hi Hd Hf; [reflexivity |].
  change (gather (e :: evs) st) with (gather evs (icecandidate e st)).
  assert (Hsame : icecandidate e st = st).
  { unfold icecandidate, listenerCount, listeners. now rewrite Hi, Hd, Hf. }
  rewrite Hsame. now apply IH.
Qed.

Lemma gather_unheard evs : forall q log,
  gather evs
    {| on_icecandidate := []; on_candidategatheringdone := [];
       candidatesQueueOut := q; candidategatheringdone := false; calls := log |}
  = {| on_icecandidate := []; on_candidategatheringdone := [];
       candidatesQueueOut := q ++ until_null evs;
       candidategatheringdone := saw_null evs;
       calls := log |}.
Proof.
  induction evs as [| [c |] evs IH]; intros q log.
  - cbn. now rewrite app_nil_r.
  - change (gather (Some c :: evs) ?st) with (gather evs (icecandidate (Some c) st)).
    change (icecandidate (Some c)
              {| on_icecandidate := []; on_candidategatheringdone := [];
                 candidatesQueueOut := q; candidategatheringdone := false;
                 calls := log |})
      with {| on_icecandidate := []; on_candidategatheringdone := [];
              candidatesQueueOut := q ++ [Some c]; candidategatheringdone := false;
              calls := log |}.
    rewrite IH. cbn [until_null]. now rewrite <- app_assoc.
  - change (gather (None :: evs) ?st) with (gather evs (icecandidate None st)).
    now rewrite gather_ignored by reflexivity.
Qed.

Lemma live_routing_general (st : State) (evs : list (option RTCIceCandidate)) :
  on_icecandidate st ++ on_candidategatheringdone st <> [] ->
  calls (gather evs st) =
    calls st ++
    match evs with
    | None :: _ =>
        if candidategatheringdone st then []
        else done_notifications (on_candidategatheringdone st)
    | _ => []
    end ++
    deliveries (on_icecandidate st) (omap (fun e => e) evs) /\
  candidatesQueueOut (gather evs st) = candidatesQueueOut st.
Proof.
  intros Hl. destruct evs as [| [c |] evs].
  - cbn. unfold deliveries. cbn. now rewrite app_nil_r.
  - change (gather (Some c :: evs) st) with (gather evs (icecandidate (Some c) st)).
    rewrite (icecandidate_live c st Hl), gather_flagged by (cbn; easy).
    cbn [calls candidatesQueueOut on_icecandidate].
    split; [| reflexivity]. rewrite <- app_assoc. f_equal.
    unfold deliveries. cbn [omap list_omap flat_map app]. now rewrite app_nil_r.
  - change (gather (None :: evs) st) with (gather evs (icecandidate None st)).
    rewrite (icecandidate_null st Hl), gather_flagged by (cbn; easy).
    cbn [calls candidatesQueueOut on_icecandidate on_candidategatheringdone].
    split; [| reflexivity]. now rewrite <- app_assoc.
Qed.

End RoutingMore.

(** X1: what a subscribed peer hands on. With at least one listener of
    either event, every candidate the connection reports is handed at once
    to each listener of 'icecandidate', in arrival order, and nothing is
    buffered. The terminal null is notified only when it is the first
    event and the gathering-done flag is not yet set: a null that follows
    a candidate is handed to nobody. *)
Theorem live_routing (st : Routing.State) (evs : list (option RTCIceCandidate)) :
  (Routing.on_icecandidate st ++ Routing.on_candidategatheringdone st)%list <> [] ->
  let st' := Routing.gather evs st in
  Routing.calls st' =
    (Routing.calls st ++
     match evs with
     | None :: _ =>
         if Routing.candidategatheringdone st then []
         else done_notifications (Routing.on_candidategatheringdone st)
     | _ => []
     end ++
     deliveries (Routing.on_icecandidate st) (omap (fun e => e) evs))%list /\
  Routing.candidatesQueueOut st' = Routing.candidatesQueueOut st.
Proof.
  intros Hl st'. exact (live_routing_general st evs Hl).
Qed.

Lemma live_routing_witness :
  Routing.calls
    (Routing.gather [Some host_candidate; Some relay_candidate; None]
       (Routing.construct (Some 1%nat) (Some 2%nat)))
  = [ {| Routing.call_listener := 1%nat; Routing.call_event := Routing.ev_icecandidate;
         Routing.call_argument := Some host_candidate |};
      {| Routing.call_listener := 1%nat; Routing.call_event := Routing.ev_icecandidate;
         Routing.call_argument := Some relay_candidate |} ].
Proof.
  exact (proj1 (live_routing (Routing.construct (Some 1%nat) (Some 2%nat))
                  [Some host_candidate; Some relay_candidate; None]
                  ltac:(discriminate))).
Defined.

(** X2: what an unsubscribed peer keeps. Whatever the connection reports
    while nobody listens, no listener is invoked and the buffer holds the
    events up to and including the first null, in arrival order: what is
    reported after the terminal null is dropped. *)
Theorem unheard_buffer (evs : list (option RTCIceCandidate)) :
  let st := Routing.gather evs (Routing.construct None None) in
  Routing.candidatesQueueOut st = until_null evs /\
  Routing.calls st = [] /\
  Routing.candidategatheringdone st = saw_null evs.
Proof.
  cbv zeta. unfold Routing.construct. rewrite gather_unheard. now cbn.
Qed.

Section RoutingLate.

Import Routing.
Local Open Scope list_scope.

Lemma until_null_candidates cs : until_null (map Some cs) = map Some cs.
Proof. induction cs as [| c cs IH]; cbn; [reflexivity | now rewrite IH]. Qed.

Lemma drain_all_candidates l cs :
  drain ev_icecandidate l (map Some cs) = deliveries [l] cs.
Proof.
  induction cs as [| c cs IH]; [reflexivity |].
  cbn. now rewrite IH.
Qed.

Lemma deliveries_app ls cs1 cs2 :
  deliveries ls (cs1 ++ cs2) = deliveries ls cs1 ++ deliveries ls cs2.
Proof. unfold deliveries. apply flat_map_app. Qed.

End RoutingLate.

Lemma deliveries_nil cs : deliveries [] cs = [].
Proof. induction cs as [| c cs IH]; [reflexivity | exact IH]. Qed.

(** X3: registering for 'icecandidate' while gathering is going on. On a
    peer that had no listener of either event, the listener misses nothing
    and sees nothing twice: it is handed the candidates reported before it
    registered, replayed from the buffer, and those reported after, each
    once, in the order the connection reported them. On a peer that
    already had a listener of 'candidategatheringdone', nothing was
    buffered: the candidates reported before the registration were handed
    to nobody, and the listener sees only the later ones. *)
Theorem late_subscriber_replay (l d : nat) (before : list RTCIceCandidate)
    (after : list (option RTCIceCandidate)) :
  (let buffered := Routing.gather (map Some before) (Routing.construct None None) in
   let subscribed := Routing.on Routing.ev_icecandidate l buffered in
   Routing.calls (Routing.gather after subscribed) =
     deliveries [l] (before ++ omap (fun e => e) after)%list /\
   Routing.candidatesQueueOut (Routing.gather after subscribed) = []) /\
  (let live := Routing.gather (map Some before) (Routing.construct None (Some d)) in
   let subscribed := Routing.on Routing.ev_icecandidate l live in
   Routing.calls (Routing.gather after subscribed) =
     (match before, after with
      | [], None :: _ => done_notifications [d]
      | _, _ => []
      end ++ deliveries [l] (omap (fun e => e) after))%list).
Proof.
  split.
  - intros buffered subscribed.
    assert (Hsub : subscribed =
      {| Routing.on_icecandidate := [l]; Routing.on_candidategatheringdone := [];
         Routing.candidatesQueueOut := [];
         Routing.candidategatheringdone := false;
         Routing.calls := deliveries [l] before |}).
    { unfold subscribed, buffered, Routing.construct. rewrite gather_unheard.
      unfold Routing.on, Routing.newListener.
      cbn [Routing.candidatesQueueOut Routing.calls Routing.on_icecandidate
           Routing.on_candidategatheringdone Routing.candidategatheringdone app].
      rewrite until_null_candidates, drain_all_candidates.
      f_equal. clear. induction before as [| c cs IH]; [reflexivity | exact IH]. }
    destruct (live_routing_general subscribed after) as [Hcalls Hq].
    { rewrite Hsub. discriminate. }
    rewrite Hcalls, Hq, Hsub.
    cbn [Routing.calls Routing.candidatesQueueOut Routing.on_icecandidate
         Routing.on_candidategatheringdone Routing.candidategatheringdone].
    split; [| reflexivity]. rewrite deliveries_app. f_equal.
    now destruct after as [| [c |] after].
  - intros live subscribed. destruct before as [| c cs].
    + destruct (live_routing_general subscribed after) as [Hcalls _];
        [discriminate |].
      rewrite Hcalls. reflexivity.
    + assert (Hsub : subscribed =
        {| Routing.on_icecandidate := [l]; Routing.on_candidategatheringdone := [d];
           Routing.candidatesQueueOut := [];
           Routing.candidategatheringdone := true;
           Routing.calls := [] |}).
      { unfold subscribed, live.
        change (Routing.gather (map Some (c :: cs)) ?st)
          with (Routing.gather (map Some cs) (Routing.icecandidate (Some c) st)).
        rewrite icecandidate_live by discriminate.
        rewrite gather_flagged by (cbn; easy).
        cbn [Routing.construct Routing.on_icecandidate Routing.on_candidategatheringdone
             Routing.candidatesQueueOut Routing.calls Routing.candidategatheringdone].
        rewrite !deliveries_nil. reflexivity. }
      rewrite Hsub, gather_flagged by (cbn; easy). reflexivity.
Qed.

(** ** The signaling gate among the other listeners *)

Section DispatchMore.

Import Gate.
Local Open Scope nat_scope.
Local Open Scope list_scope.

Variable br : Browser.

Lemma submit_state c w :
  signalingState (pc (snd (submit br c w))) = signalingState (pc w).
Proof.
  unfold submit, new_promise. cbn [snd pc].
  destruct (signalingState (pc w)) eqn:Hs;
    [destruct (remoteDescription (pc w)) | | | | |]; cbn; now rewrite ?Hs.
Qed.

(** A submission on a stable connection never enters the queue. *)
Lemma submit_stable_queue c w :
  signalingState (pc w) = stable ->
  candidatesQueue (snd (submit br c w)) = candidatesQueue w.
Proof.
  intros Hs. unfold submit, new_promise. cbn [snd pc]. rewrite Hs.
  now destruct (remoteDescription (pc w)).
Qed.

Lemma submit_all_state cs : forall w,
  signalingState (pc (Dispatch.submit_all br cs w)) = signalingState (pc w).
Proof.
  induction cs as [| c cs IH]; intros w; [reflexivity |].
  cbn [Dispatch.submit_all fold_left].
  fold (Dispatch.submit_all br cs (snd (submit br c w))).
  now rewrite IH, submit_state.
Qed.

Lemma submit_all_stable_queue cs : forall w,
  signalingState (pc w) = stable ->
  candidatesQueue (Dispatch.submit_all br cs w) = candidatesQueue w.
Proof.
  induction cs as [| c cs IH]; intros w Hs; [reflexivity |].
  cbn [Dispatch.submit_all fold_left].
  fold (Dispatch.submit_all br cs (snd (submit br c w))).
  rewrite IH by (now rewrite submit_state). now apply submit_stable_queue.
Qed.

Lemma drained_submit_all cs w :
  drained w -> drained (Dispatch.submit_all br cs w).
Proof.
  unfold drained. intros Hd Hs. rewrite submit_all_state in Hs.
  rewrite submit_all_stable_queue by exact Hs. now apply Hd.
Qed.

(** Once the gate's listener has run, nothing waits on a stable
    connection. *)
Lemma drained_listener w : drained (onsignalingstatechange br w).
Proof.
  unfold drained, onsignalingstatechange.
  destruct (signalingState (pc w)) eqn:Hs; cbn; try reflexivity;
    intros Hst; rewrite Hs in Hst; discriminate.
Qed.

(** A listener with nothing to do changes nothing. *)
Lemma listener_drained w : drained w -> onsignalingstatechange br w = w.
Proof.
  unfold drained, onsignalingstatechange. intros Hd.
  destruct (signalingState (pc w)); try reflexivity.
  destruct w as [p q ps n]. cbn in *. now rewrite (Hd eq_refl).
Qed.

Lemma drained_dispatch e w : drained w -> drained (Dispatch.step br e w).
Proof.
  intros Hd. destruct e as [c | ch]; cbn [Dispatch.step].
  - exact (drained_submit_all [c] w Hd).
  - apply drained_listener.
Qed.

Lemma drained_dispatch_run es : forall w, drained w -> drained (Dispatch.run br es w).
Proof.
  induction es as [| e es IH]; intros w Hd; [exact Hd |].
  apply IH. now apply drained_dispatch.
Qed.

(** *** What the gate holds of the submitted candidates *)

Lemma taken_submit c w : taken (snd (submit br c w)) ⊆+ taken w ++ [c].
Proof.
  unfold taken, submit, new_promise. cbn [snd pc].
  destruct (signalingState (pc w));
    [destruct (remoteDescription (pc w)) | | | | |]; cbn;
    try (now apply submseteq_inserts_r);
    try (rewrite fmap_app, app_assoc; reflexivity).
  apply Permutation_submseteq. rewrite <- !app_assoc.
  apply Permutation_app_head, Permutation_app_comm.
Qed.

(** With nothing queued ahead of it, a submission takes the last place. *)
Lemma taken_submit_drained c w :
  drained w ->
  taken (snd (submit br c w)) `sublist_of` taken w ++ [c].
Proof.
  unfold drained, taken, submit, new_promise. cbn [snd pc]. intros Hd.
  destruct (signalingState (pc w)) eqn:Hs;
    [destruct (remoteDescription (pc w)) | | | | |]; cbn;
    try (now apply sublist_inserts_r);
    try (rewrite fmap_app, app_assoc; reflexivity).
  rewrite (Hd eq_refl). cbn. now rewrite !app_nil_r.
Qed.

Lemma taken_submit_all cs : forall w,
  taken (Dispatch.submit_all br cs w) ⊆+ taken w ++ cs.
Proof.
  induction cs as [| c cs IH]; intros w.
  - cbn. now rewrite app_nil_r.
  - cbn [Dispatch.submit_all fold_left].
    fold (Dispatch.submit_all br cs (snd (submit br c w))).
    etransitivity; [apply IH |].
    change (c :: cs) with ([c] ++ cs). rewrite app_assoc.
    apply submseteq_app; [apply taken_submit | reflexivity].
Qed.

(** The flush moves the queued candidates to the applied ones, in order. *)
Lemma taken_listener w : taken (onsignalingstatechange br w) = taken w.
Proof.
  unfold taken, onsignalingstatechange.
  destruct (signalingState (pc w)); try reflexivity.
  destruct (flush_frame br (candidatesQueue w) w) as (_ & _ & Hpc).
  cbn [pc candidatesQueue]. rewrite Hpc, addedCandidates_pc_after. cbn.
  now rewrite app_nil_r.
Qed.

Lemma taken_dispatch e w :
  taken (Dispatch.step br e w) ⊆+ taken w ++ Dispatch.submitted [e].
Proof.
  destruct e as [c | ch]; cbn [Dispatch.step Dispatch.submitted flat_map];
    rewrite app_nil_r.
  - apply taken_submit.
  - unfold Dispatch.signalingstatechange, Dispatch.before_listener.
    rewrite taken_listener.
    exact (taken_submit_all (Dispatch.early ch)
             (with_pc (Dispatch.moved ch (pc w)) w)).
Qed.

Lemma submitted_cons e es :
  Dispatch.submitted (e :: es) = Dispatch.submitted [e] ++ Dispatch.submitted es.
Proof. unfold Dispatch.submitted. cbn [flat_map]. now rewrite app_nil_r. Qed.

Lemma taken_dispatch_run es : forall w,
  taken (Dispatch.run br es w) ⊆+ taken w ++ Dispatch.submitted es.
Proof.
  induction es as [| e es IH]; intros w.
  - cbn. now rewrite app_nil_r.
  - change (Dispatch.run br (e :: es) w)
      with (Dispatch.run br es (Dispatch.step br e w)).
    etransitivity; [apply IH |].
    rewrite submitted_cons, app_assoc.
    apply submseteq_app; [apply taken_dispatch | reflexivity].
Qed.

Lemma taken_undisturbed_run es : forall w,
  drained w -> Dispatch.undisturbed es ->
  taken (Dispatch.run br es w) `sublist_of` taken w ++ Dispatch.submitted es.
Proof.
  induction es as [| e es IH]; intros w Hd Hes.
  - cbn. now rewrite app_nil_r.
  - inversion Hes as [| ? ? He Hes']; subst.
    change (Dispatch.run br (e :: es) w)
      with (Dispatch.run br es (Dispatch.step br e w)).
    etransitivity; [apply IH; [now apply drained_dispatch | exact Hes'] |].
    rewrite submitted_cons, app_assoc.
    apply sublist_app; [| reflexivity].
    destruct e as [c | ch]; cbn [Dispatch.step Dispatch.submitted flat_map];
      rewrite app_nil_r.
    + now apply taken_submit_drained.
    + unfold Dispatch.signalingstatechange, Dispatch.before_listener.
      rewrite He, taken_listener. cbn. now rewrite app_nil_r.
Qed.

End DispatchMore.

(** X4: the queue of a stable connection. Between events, once the
    gate's listener has run for the latest state change, a stable
    connection has an empty queue, whatever was submitted before and
    whatever other listeners submitted during the state changes. While the
    change to stable is still being delivered this does not hold: the
    listeners registered before the gate's see the queue as it was, and
    what they submit does not enter it. *)
Theorem gate_stable_queue_empty (br : Browser) (p : RTCPeerConnection)
    (es : list Dispatch.Event) :
  let w := Dispatch.run br es (Gate.bufferizeCandidates p) in
  (signalingState (Gate.pc w) = stable -> Gate.candidatesQueue w = []) /\
  (forall ch, Dispatch.state ch = stable ->
     Gate.candidatesQueue (Dispatch.before_listener br ch w) = Gate.candidatesQueue w).
Proof.
  cbv zeta. split.
  - apply drained_dispatch_run. intros _. reflexivity.
  - intros ch Hs. unfold Dispatch.before_listener.
    now rewrite submit_all_stable_queue.
Qed.

Lemma gate_stable_queue_empty_witness :
  Gate.candidatesQueue
    (Dispatch.run sample_browser (waiting_events ++ [Dispatch.StateChange answered])%list
       (Gate.bufferizeCandidates (fresh_connection have_local_offer))) = [] /\
  Gate.candidatesQueue
    (Dispatch.before_listener sample_browser answered
       (Dispatch.run sample_browser waiting_events
          (Gate.bufferizeCandidates (fresh_connection have_local_offer))))
  = [(host_candidate, 0%nat)].
Proof.
  split.
  - exact (proj1 (gate_stable_queue_empty sample_browser
                    (fresh_connection have_local_offer)
                    (waiting_events ++ [Dispatch.StateChange answered])%list) eq_refl).
  - exact (proj2 (gate_stable_queue_empty sample_browser
                    (fresh_connection have_local_offer) waiting_events)
             answered eq_refl).
Defined.

(** X6: the gate neither repeats nor invents a candidate, and reorders
    only around a listener. In every state it can reach, the candidates
    handed to [addIceCandidate] together with those still queued are,
    counted with repetition, among the candidates submitted. When no
    listener registered before the gate's submits during a state change,
    they are moreover in submission order: the applied candidates followed
    by the queued ones are a sub-sequence of the candidates submitted. *)
Theorem gate_applies_what_was_submitted (br : Browser) (p : RTCPeerConnection)
    (es : list Dispatch.Event) :
  let w := Dispatch.run br es (Gate.bufferizeCandidates p) in
  (addedCandidates (Gate.pc w) ++ (fst <$> Gate.candidatesQueue w))%list
    ⊆+ (addedCandidates p ++ Dispatch.submitted es)%list /\
  (Dispatch.undisturbed es ->
   (addedCandidates (Gate.pc w) ++ (fst <$> Gate.candidatesQueue w))%list
     `sublist_of` (addedCandidates p ++ Dispatch.submitted es)%list).
Proof.
  cbv zeta. split.
  - pose proof (taken_dispatch_run br es (Gate.bufferizeCandidates p)) as H.
    unfold taken in H. cbn in H. rewrite app_nil_r in H. exact H.
  - intros Hes.
    pose proof (taken_undisturbed_run br es (Gate.bufferizeCandidates p)) as H.
    unfold taken in H. cbn in H. rewrite app_nil_r in H. apply H; [| exact Hes].
    intros _. reflexivity.
Qed.

Lemma gate_applies_what_was_submitted_witness :
  (let w := Dispatch.run sample_browser
              [Dispatch.Submit host_candidate; Dispatch.StateChange answered;
               Dispatch.Submit relay_candidate]
              (Gate.bufferizeCandidates (fresh_connection have_local_offer)) in
   (addedCandidates (Gate.pc w) ++ (fst <$> Gate.candidatesQueue w))%list
     `sublist_of` [host_candidate; relay_candidate]) /\
  addedCandidates
    (Gate.pc (Dispatch.run sample_browser
                [Dispatch.Submit host_candidate; Dispatch.StateChange overtaken]
                (Gate.bufferizeCandidates (fresh_connection have_local_offer))))
  = [relay_candidate; host_candidate].
Proof.
  split; [| reflexivity].
  apply (proj2 (gate_applies_what_was_submitted sample_browser
                  (fresh_connection have_local_offer)
                  [Dispatch.Submit host_candidate;
                   Dispatch.StateChange answered;
                   Dispatch.Submit relay_candidate])).
  repeat constructor.
Defined.

(** ** [WebRtcPeer.addIceCandidate] *)

Section CandidatesMore.

Local Open Scope list_scope.

Variable br : Browser.

Lemma force_add made st :
  Candidates.force (snd (Candidates.addIceCandidate br made st)) =
  match made with
  | inr c => snd (Gate.submit br c (Candidates.force st))
  | inl _ => Candidates.force st
  end.
Proof.
  destruct made as [e | c]; [reflexivity |].
  unfold Candidates.addIceCandidate.
  now destruct (Gate.submit br c (Candidates.force st)) as [id w].
Qed.

Lemma force_addAll mades : forall st,
  Candidates.force (Candidates.addAll br mades st) =
  Dispatch.submit_all br (Candidates.constructed mades) (Candidates.force st).
Proof.
  induction mades as [| made mades IH]; intros st; [reflexivity |].
  cbn [Candidates.addAll fold_left].
  fold (Candidates.addAll br mades (snd (Candidates.addIceCandidate br made st))).
  rewrite IH, force_add. now destruct made as [e | c].
Qed.

(** Once the gate exists it stays. *)
Lemma addAll_gated mades : forall st w,
  Candidates.gate st = inr w ->
  Candidates.gate (Candidates.addAll br mades st) =
  inr (Dispatch.submit_all br (Candidates.constructed mades) w).
Proof.
  induction mades as [| made mades IH]; intros st w Hg; [exact Hg |].
  cbn [Candidates.addAll fold_left].
  fold (Candidates.addAll br mades (snd (Candidates.addIceCandidate br made st))).
  destruct made as [e | c].
  - cbn [Candidates.addIceCandidate snd]. now apply IH.
  - cbn [Candidates.constructed omap list_omap].
    fold (Candidates.constructed mades).
    cbn [Dispatch.submit_all fold_left].
    fold (Dispatch.submit_all br (Candidates.constructed mades)
            (snd (Gate.submit br c w))).
    apply IH. unfold Candidates.addIceCandidate, Candidates.force. rewrite Hg.
    now destruct (Gate.submit br c w) as [id w'].
Qed.

Lemma force_step e st :
  Candidates.force (Candidates.step br e st) =
  Dispatch.run br (Candidates.gate_events [e]) (Candidates.force st).
Proof.
  destruct e as [[e | c] | ch]; cbn [Candidates.step].
  - reflexivity.
  - now rewrite force_add.
  - cbn [Candidates.gate_events omap list_omap Dispatch.run fold_left Dispatch.step].
    unfold Candidates.signalingstatechange, Dispatch.signalingstatechange,
      Dispatch.before_listener.
    destruct (Candidates.gate st) as [p | w] eqn:Hg.
    + rewrite force_addAll. unfold Candidates.force.
      cbn [Candidates.gate Dispatch.early]. rewrite Hg.
      change (Gate.with_pc (Dispatch.moved _ (Gate.pc (Gate.bufferizeCandidates p)))
                (Gate.bufferizeCandidates p))
        with (Gate.bufferizeCandidates (Dispatch.moved ch p)).
      symmetry. apply listener_drained, drained_submit_all.
      intros _. reflexivity.
    + rewrite (addAll_gated _ _ (Gate.with_pc (Dispatch.moved ch (Gate.pc w)) w))
        by reflexivity.
      unfold Candidates.force. cbn [Candidates.gate]. rewrite Hg. reflexivity.
Qed.

Lemma gate_events_cons e es :
  Candidates.gate_events (e :: es) =
  Candidates.gate_events [e] ++ Candidates.gate_events es.
Proof.
  unfold Candidates.gate_events. cbn [omap list_omap].
  now destruct e as [[e | c] | ch].
Qed.

Lemma dispatch_run_app es1 es2 w :
  Dispatch.run br (es1 ++ es2) w = Dispatch.run br es2 (Dispatch.run br es1 w).
Proof. apply fold_left_app. Qed.

Lemma force_run es : forall st,
  Candidates.force (Candidates.run br es st) =
  Dispatch.run br (Candidates.gate_events es) (Candidates.force st).
Proof.
  induction es as [| e es IH]; intros st; [reflexivity |].
  change (Candidates.run br (e :: es) st)
    with (Candidates.run br es (Candidates.step br e st)).
  rewrite IH, force_step. rewrite (gate_events_cons e es), dispatch_run_app.
  reflexivity.
Qed.

End CandidatesMore.

(** X7: nothing is lost by building the gate on the first call. Whatever
    calls of [addIceCandidate] and state changes occur, in whatever
    order, and whatever calls listeners make while a state change is being
    delivered, the queue, the promises and the connection of the peer are
    those of a gate built on the initial connection that went through the
    same submissions and state changes, its listener running after the
    same calls: a state change before the first call leaves nothing to
    apply, and neither does the state change during which the gate is
    built. A call whose candidate cannot be constructed throws and leaves
    everything as it was. *)
Theorem lazy_gate_is_one_gate (br : Browser) (p : RTCPeerConnection)
    (es : list Candidates.Event) :
  Candidates.force (Candidates.run br es (Candidates.construct p)) =
    Dispatch.run br (Candidates.gate_events es) (Gate.bufferizeCandidates p) /\
  forall st e,
    Candidates.addIceCandidate br (inl e) st = (Peer.Threw e, st).
Proof.
  split; [apply force_run | reflexivity].
Qed.

(** ** [processAnswer] and [processOffer] *)



(** X9: the payload [processOffer] returns is not the answer: whenever the
    call returns, what it returns is the payload of the local description
    the connection already held before the call, whatever the offer, the
    browser and the answer the browser generated. *)
Theorem processOffer_returns_earlier_description
    (br : Browser) (s : string) (p : Peer.WebRtcPeer) (payload : string) :
  fst (Peer.processOffer br s p) = Peer.Returned payload ->
  exists d, localDescription (Peer.peerConnection p) = Some d /\ sdp d = payload.
Proof.
  unfold Peer.processOffer, Peer.setRemoteDescription.
  cbn [Peer.peerConnection Peer.log].
  destruct (signalingState (Peer.peerConnection p)); try discriminate;
    (destruct (setRemoteDescription_result br (Peer.peerConnection p) _);
     [discriminate |]);
    match goal with
    | |- context [createAnswer_result br ?c] => destruct (createAnswer_result br c)
    end; try discriminate;
    match goal with
    | |- context [mangleSdpToAddSimulcast ?a ?b ?c] =>
        destruct (mangleSdpToAddSimulcast a b c) as [ans out]
    end;
    rewrite ?logs_peerConnection, ?setRemoteVideo_peerConnection;
    cbn [Peer.peerConnection Peer.log Peer.with_peerConnection];
    rewrite ?logs_peerConnection, ?setRemoteVideo_peerConnection;
    cbn [Peer.peerConnection Peer.with_peerConnection localDescription
         set_signalingState set_remoteDescription];
    (destruct (localDescription (Peer.peerConnection p)) as [d |];
     [intros [= <-]; now exists d | discriminate]).
Qed.

Lemma processOffer_returns_earlier_description_witness :
  fst (Peer.processOffer sample_browser "v=0 offer" negotiated_peer)
    = Peer.Returned "v=0 earlier offer" /\
  exists d, localDescription (Peer.peerConnection negotiated_peer) = Some d /\
            sdp d = "v=0 earlier offer".
Proof.
  split; [reflexivity |].
  exact (processOffer_returns_earlier_description sample_browser "v=0 offer"
           negotiated_peer "v=0 earlier offer" eq_refl).
Defined.

(** X10: [processOffer] does not undo what it did when a later step
    fails. When the browser accepts the offer and then fails to create an
    answer, the call fails with the browser's error, and the offer stays
    applied: the remote description is the offer, the state is
    have-remote-offer, and the remote video element has been reset. *)
Theorem processOffer_failed_answer_keeps_offer
    (br : Browser) (s : string) (p : Peer.WebRtcPeer) (e : JsError) :
  let offered :=
    set_signalingState have_remote_offer
      (set_remoteDescription {| type := offer; sdp := s |} (Peer.peerConnection p)) in
  signalingState (Peer.peerConnection p) <> closed ->
  setRemoteDescription_result br (Peer.peerConnection p) {| type := offer; sdp := s |}
    = None ->
  createAnswer_result br offered = inl e ->
  let r := Peer.processOffer br s p in
  fst r = Peer.Threw e /\
  Peer.peerConnection (snd r) = offered /\
  (forall v, Peer.remoteVideo p = Some v ->
     Peer.remoteVideo (snd r) =
       Some {| Peer.paused := true;
               Peer.srcObject := Some (receivers (Peer.peerConnection p));
               Peer.muted := Peer.muted v; Peer.loads := S (Peer.loads v) |}).
Proof.
  intros offered Hs Hacc Hans r. subst r.
  unfold Peer.processOffer, Peer.setRemoteDescription.
  cbn [Peer.peerConnection Peer.log]. rewrite Hacc.
  cbn [type Peer.after_remote]. fold offered.
  rewrite setRemoteVideo_peerConnection.
  cbn [Peer.peerConnection Peer.with_peerConnection]. rewrite Hans.
  assert (Hr : forall q : Peer.WebRtcPeer,
            Peer.remoteVideo q = Peer.remoteVideo p ->
            receivers (Peer.peerConnection q) = receivers (Peer.peerConnection p) ->
            forall v, Peer.remoteVideo p = Some v ->
            Peer.remoteVideo (Peer.setRemoteVideo q) =
              Some {| Peer.paused := true;
                      Peer.srcObject := Some (receivers (Peer.peerConnection p));
                      Peer.muted := Peer.muted v; Peer.loads := S (Peer.loads v) |}).
  { intros q Hq Hrec v Hv. unfold Peer.setRemoteVideo. rewrite Hq, Hv. cbn.
    now rewrite Hrec. }
  destruct (signalingState (Peer.peerConnection p)); try (now destruct Hs);
    cbn [fst snd];
    (split; [reflexivity |]; split;
     [now rewrite setRemoteVideo_peerConnection | now apply Hr]).
Qed.

Lemma processOffer_failed_answer_keeps_offer_witness :
  fst (Peer.processOffer mute_browser "v=0 offer"
         (sample_peer stable None [Peer.release_media]))
    = Peer.Threw (Error "OperationError") /\
  remoteDescription
    (Peer.peerConnection
       (snd (Peer.processOffer mute_browser "v=0 offer"
               (sample_peer stable None [Peer.release_media]))))
    = Some {| type := offer; sdp := "v=0 offer" |}.
Proof.
  destruct (processOffer_failed_answer_keeps_offer mute_browser "v=0 offer"
              (sample_peer stable None [Peer.release_media]) (Error "OperationError")
              ltac:(discriminate) eq_refl eq_refl) as (H1 & H2 & _).
  exact (conj H1 (f_equal remoteDescription H2)).
Defined.

(** ** [dispose] and [send] *)

Section DisposeMore.

Import Peer.
Local Open Scope list_scope.

Variable flt : Faults.

(** The notification leaves the connection and the channel alone. *)
Lemma release_video_connection v u p :
  peerConnection (snd (release_video flt v u p)) = peerConnection p /\
  dataChannel (snd (release_video flt v u p)) = dataChannel p.
Proof.
  unfold release_video, seq, ext. destruct v; cbn.
  - destruct (localVideo p) as [e |]; [| easy].
    destruct (flt (call_pause local_video)); cbn; [easy |].
    destruct (flt (call_load local_video)); cbn; easy.
  - destruct (remoteVideo p) as [e |]; [| easy].
    destruct (flt (call_pause remote_video)); cbn; [easy |].
    destruct (flt (call_load remote_video)); cbn; easy.
Qed.

Lemma run_listener_connection l p :
  peerConnection (snd (run_listener flt l p)) = peerConnection p /\
  dataChannel (snd (run_listener flt l p)) = dataChannel p.
Proof.
  destruct l as [| raises]; cbn [run_listener].
  - unfold seq.
    destruct (release_video_connection local_video true p) as [A1 A2].
    destruct (release_video flt local_video true p) as [o1 p1]. cbn [snd] in *.
    destruct o1; try easy.
    destruct (release_video_connection remote_video false p1) as [B1 B2].
    destruct (release_video flt remote_video false p1) as [o2 p2]. cbn [snd] in *.
    destruct o2; cbn; split; congruence.
  - now destruct raises.
Qed.

Lemma run_listeners_connection ls : forall p,
  peerConnection (snd (run_listeners flt ls p)) = peerConnection p /\
  dataChannel (snd (run_listeners flt ls p)) = dataChannel p.
Proof.
  induction ls as [| l ls IH]; intros p; cbn [run_listeners]; [easy |].
  unfold seq. destruct (run_listener_connection l p) as [A1 A2].
  destruct (run_listener flt l p) as [o1 p1]. cbn [snd] in *.
  destruct o1; try easy.
  destruct (IH p1) as [B1 B2]. split; congruence.
Qed.

Lemma notify_connection p :
  peerConnection (snd (notify flt p)) = peerConnection p /\
  dataChannel (snd (notify flt p)) = dataChannel p.
Proof.
  unfold notify, emit_dispose.
  destruct (run_listeners_connection (disposeListeners p) p) as [A1 A2].
  destruct (run_listeners flt (disposeListeners p) p) as [o q]. cbn [snd] in *.
  now destruct o.
Qed.

(** A call whose guarded block raised nothing leaves nothing to close. *)
Lemma dispose_leaves_torn_down p :
  coherent p ->
  (forall e, fst (teardown flt (log LogDebug "Disposing WebRtcPeer" p)) <> Throw e) ->
  torn_down (snd (dispose flt p)).
Proof.
  intros Hcoh Hno. set (p0 := log LogDebug "Disposing WebRtcPeer" p) in *.
  destruct (teardown_spec flt p0) as (_ & _ & Htd).
  specialize (Htd Hcoh Hno). unfold dispose. fold p0.
  destruct (teardown flt p0) as [o p1]. cbn [fst snd] in *.
  destruct o as [| | err]; [| exact Htd | now destruct (Hno err)].
  destruct (notify_connection p1) as [A1 A2].
  unfold torn_down in *. now rewrite A1, A2.
Qed.

(** Stopping the tracks [ts] marks the senders that carry their ids. *)
Lemma stop_tracks_clean ts :
  (forall tid, flt (call_track_stop tid) = None) ->
  forall p,
    fst (stop_tracks flt ts p) = Normal /\
    senders (peerConnection (snd (stop_tracks flt ts p))) =
      map (stopped (map track_id ts)) (senders (peerConnection p)) /\
    dataChannel (snd (stop_tracks flt ts p)) = dataChannel p /\
    signalingState (peerConnection (snd (stop_tracks flt ts p))) =
      signalingState (peerConnection p).
Proof.
  intros Hno. induction ts as [| t ts IH]; intros p; cbn [stop_tracks].
  - cbn. split; [reflexivity |]. split; [| easy].
    symmetry. erewrite map_ext; [apply map_id |]. reflexivity.
  - unfold seq, ext. rewrite Hno.
    destruct (IH (stop_effect (track_id t) (traced (call_track_stop (track_id t)) p)))
      as (H1 & H2 & H3 & H4).
    destruct (stop_tracks flt ts
                (stop_effect (track_id t) (traced (call_track_stop (track_id t)) p)))
      as [o q]. cbn [fst snd] in *.
    split; [exact H1 |]. split; [| split; [exact H3 | exact H4]].
    rewrite H2. cbn. rewrite map_map. apply map_ext. intros a.
    unfold stopped. cbn [map existsb].
    destruct (String.eqb (track_id a) (track_id t)) eqn:Ha; cbn.
    + unfold ended. cbn. now destruct (existsb _ _).
    + reflexivity.
Qed.

Lemma stopped_own ts t :
  In t ts -> stopped (map track_id ts) t = ended t.
Proof.
  intros Hin. unfold stopped.
  assert (H : existsb (String.eqb (track_id t)) (map track_id ts) = true).
  { apply existsb_exists. exists (track_id t). split.
    - now apply in_map.
    - apply String.eqb_refl. }
  now rewrite H.
Qed.

End DisposeMore.

(** X11: after a [dispose] whose guarded block raised nothing, [send]
    never reaches the data channel: whatever the data, it only writes its
    warning. *)
Theorem send_after_dispose (flt : Peer.Faults) (p : Peer.WebRtcPeer) (data : string) :
  coherent p ->
  (forall e,
     fst (Peer.teardown flt (Peer.log LogDebug "Disposing WebRtcPeer" p))
     <> Peer.Throw e) ->
  let q := snd (Peer.dispose flt p) in
  Answer.send data q =
    (None,
     Peer.log LogWarn "Trying to send data over a non-existing or closed data channel" q).
Proof.
  intros Hcoh Hno q.
  destruct (dispose_leaves_torn_down flt p Hcoh Hno) as [Hdc | [Hdc _]];
    fold q in Hdc; unfold Answer.send; now rewrite Hdc.
Qed.

Lemma send_after_dispose_witness :
  fst (Answer.send "hello"
         (snd (Peer.dispose Peer.no_faults
                 (sample_peer stable (Some Peer.dc_open) [Peer.release_media]))))
  = None /\
  fst (Answer.send "hello" (sample_peer stable (Some Peer.dc_open) [Peer.release_media]))
  = Some "hello".
Proof.
  split; [| reflexivity].
  exact (f_equal fst
           (send_after_dispose Peer.no_faults
              (sample_peer stable (Some Peer.dc_open) [Peer.release_media]) "hello"
              ltac:(discriminate) ltac:(discriminate))).
Defined.

(** The state a [dispose] leaves when nothing raises in its guarded block. *)
Lemma dispose_clean_state (flt : Peer.Faults) (p : Peer.WebRtcPeer) :
  closes_cleanly flt ->
  Peer.dataChannel p <> Some Peer.dc_closed ->
  signalingState (Peer.peerConnection p) <> closed ->
  let q := snd (Peer.dispose flt p) in
  signalingState (Peer.peerConnection q) = closed /\
  senders (Peer.peerConnection q) = map ended (senders (Peer.peerConnection p)) /\
  Peer.dataChannel q =
    match Peer.dataChannel p with
    | Some _ => Some Peer.dc_closed
    | None => None
    end.
Proof.
  intros (Hdcf & Hgl & Hst & Hpc) Hdc Hs q. subst q.
  set (p0 := Peer.log LogDebug "Disposing WebRtcPeer" p).
  (* the state in which the connection is examined *)
  assert (Hfirst : exists p1,
    Peer.teardown flt p0 = Peer.close_all flt p1 /\
    senders (Peer.peerConnection p1) = senders (Peer.peerConnection p) /\
    Peer.dataChannel p1 =
      match Peer.dataChannel p with
      | Some _ => Some Peer.dc_closing
      | None => None
      end).
  { unfold Peer.teardown, Peer.seq, Peer.ext. cbv beta.
    change (Peer.dataChannel p0) with (Peer.dataChannel p). rewrite Hdcf.
    destruct (Peer.dataChannel p) as [st |] eqn:Hd.
    - exists (Peer.dc_close_effect (Peer.traced Peer.call_dc_close p0)).
      assert (Hcs : signalingState
                      (Peer.peerConnection
                         (Peer.dc_close_effect (Peer.traced Peer.call_dc_close p0)))
                    = signalingState (Peer.peerConnection p)).
      { unfold Peer.dc_close_effect. cbn. rewrite Hd. now destruct st. }
      split; [| split].
      + destruct st; try (now destruct Hdc); rewrite Hcs;
          destruct (signalingState (Peer.peerConnection p)); try (now destruct Hs);
          reflexivity.
      + unfold Peer.dc_close_effect. cbn. rewrite Hd. now destruct st.
      + unfold Peer.dc_close_effect. cbn. rewrite Hd.
        destruct st; cbn; rewrite ?Hd; try reflexivity. now destruct Hdc.
    - exists p0. split; [| split; [reflexivity | exact Hd]].
      change (signalingState (Peer.peerConnection p0))
        with (signalingState (Peer.peerConnection p)).
      destruct (signalingState (Peer.peerConnection p)); try (now destruct Hs);
        reflexivity. }
  destruct Hfirst as (p1 & Htd & Hse1 & Hdc1).
  rewrite close_all_unfold, Hgl, Hpc in Htd. cbv zeta in Htd.
  set (p2 := Peer.traced Peer.call_getLocalStreams p1) in Htd.
  destruct (stop_tracks_clean flt (senders (Peer.peerConnection p2)) Hst p2)
    as (Hn & Hsenders & Hch & Hstate).
  destruct (Peer.stop_tracks flt (senders (Peer.peerConnection p2)) p2) as [o p3].
  cbn [fst snd] in *. subst o.
  unfold Peer.dispose. fold p0. rewrite Htd.
  destruct (notify_connection flt
              (Peer.pc_close_effect (Peer.traced Peer.call_pc_close p3))) as [A1 A2].
  rewrite A1, A2.
  change (Peer.dataChannel p2) with (Peer.dataChannel p1) in Hch.
  change (senders (Peer.peerConnection p2)) with (senders (Peer.peerConnection p1))
    in Hsenders.
  assert (Hclose :
    Peer.pc_close_effect (Peer.traced Peer.call_pc_close p3) =
    match Peer.dataChannel p3 with
    | Some _ =>
        Peer.with_dataChannel (Some Peer.dc_closed)
          (Peer.with_peerConnection
             (set_signalingState closed (Peer.peerConnection p3))
             (Peer.traced Peer.call_pc_close p3))
    | None =>
        Peer.with_peerConnection
          (set_signalingState closed (Peer.peerConnection p3))
          (Peer.traced Peer.call_pc_close p3)
    end) by reflexivity.
  rewrite Hclose, Hch, Hdc1.
  destruct (Peer.dataChannel p) as [st |];
    (split; [reflexivity |]; split; [| cbn; rewrite ?Hch, ?Hdc1; reflexivity]);
    cbn; rewrite Hsenders, Hse1; apply map_ext_in; intros t Ht; now apply stopped_own.
Qed.

(** X12: what a [dispose] that meets no exception in its guarded block
    leaves of a live peer: the connection is closed, every local track is
    ended (and the senders are otherwise the same tracks, in the same
    order), and the data channel, if there is one, is closed. *)
Theorem dispose_releases (flt : Peer.Faults) (p : Peer.WebRtcPeer) :
  closes_cleanly flt ->
  Peer.dataChannel p <> Some Peer.dc_closed ->
  signalingState (Peer.peerConnection p) <> closed ->
  let q := snd (Peer.dispose flt p) in
  signalingState (Peer.peerConnection q) = closed /\
  senders (Peer.peerConnection q) = map ended (senders (Peer.peerConnection p)) /\
  Peer.dataChannel q =
    match Peer.dataChannel p with
    | Some _ => Some Peer.dc_closed
    | None => None
    end.
Proof. exact (dispose_clean_state flt p). Qed.

Lemma dispose_releases_witness :
  signalingState
    (Peer.peerConnection
       (snd (Peer.dispose Peer.no_faults
               (sample_peer stable (Some Peer.dc_open) [Peer.release_media]))))
  = closed /\
  Forall (fun t => track_ended t = true)
    (senders
       (Peer.peerConnection
          (snd (Peer.dispose Peer.no_faults
                  (sample_peer stable (Some Peer.dc_open) [Peer.release_media]))))).
Proof.
  destruct (dispose_releases Peer.no_faults
              (sample_peer stable (Some Peer.dc_open) [Peer.release_media]))
    as (H1 & H2 & _).
  - now repeat split.
  - discriminate.
  - discriminate.
  - split; [exact H1 |]. rewrite H2. repeat constructor.
Defined.

(** X13: [dispose] gives up at a closed data channel. When the channel of
    the peer is already closed, [dispose] returns at once, whatever the
    state of the connection: the connection is not closed, no track is
    stopped, the video elements are not released, the listeners of
    '_dispose' stay registered and are not notified, and no call is made. *)
Theorem dispose_stops_at_closed_channel (flt : Peer.Faults) (p : Peer.WebRtcPeer) :
  Peer.dataChannel p = Some Peer.dc_closed ->
  let r := Peer.dispose flt p in
  fst r = Peer.Returned tt /\
  Peer.peerConnection (snd r) = Peer.peerConnection p /\
  Peer.localVideo (snd r) = Peer.localVideo p /\
  Peer.remoteVideo (snd r) = Peer.remoteVideo p /\
  Peer.disposeListeners (snd r) = Peer.disposeListeners p /\
  Peer.trace (snd r) = Peer.trace p /\
  Peer.console (snd r) = (Peer.console p ++ [(LogDebug, "Disposing WebRtcPeer")])%list.
Proof.
  intros Hdc r. subst r.
  rewrite (dispose_early_return flt p (or_introl Hdc)). now cbn.
Qed.

Lemma dispose_stops_at_closed_channel_witness :
  signalingState
    (Peer.peerConnection
       (snd (Peer.dispose Peer.no_faults
               (sample_peer stable (Some Peer.dc_closed) [Peer.release_media]))))
  = stable.
Proof.
  destruct (dispose_stops_at_closed_channel Peer.no_faults
              (sample_peer stable (Some Peer.dc_closed) [Peer.release_media]) eq_refl)
    as (_ & H & _).
  exact (f_equal signalingState H).
Defined.

(** ** Local tracks *)

Section TracksMore.

Import Tracks.

Lemma getEnabled_spec m s :
  getEnabled m s = existsb (fun t => selects m t && enabled t) s.
Proof.
  unfold getEnabled, getLocalStreams. cbn [existsb]. rewrite orb_false_r.
  induction s as [| t s IH]; [reflexivity |].
  cbn [List.filter existsb]. destruct (selects m t); cbn [existsb andb orb];
    now rewrite IH.
Qed.

Lemma selects_written m m' v t :
  selects m' (if selects m t
              then {| kind := kind t; id := id t; enabled := v |}
              else t) = selects m' t.
Proof. now destruct (selects m t). Qed.

Lemma getEnabled_setEnabled_same m v s :
  getEnabled m (setEnabled m v s) = v && has m s.
Proof.
  rewrite getEnabled_spec. unfold setEnabled, has.
  induction s as [| t s IH]; cbn [map existsb].
  - now rewrite andb_false_r.
  - rewrite IH, selects_written. destruct (selects m t) eqn:Hm; cbn.
    + now destruct v.
    + reflexivity.
Qed.

Lemma getEnabled_setEnabled_other m m' v s :
  m <> m' -> getEnabled m' (setEnabled m v s) = getEnabled m' s.
Proof.
  intros Hne. rewrite !getEnabled_spec. unfold setEnabled.
  induction s as [| t s IH]; cbn [map existsb]; [reflexivity |].
  rewrite IH, selects_written. f_equal.
  destruct (selects m t) eqn:Hm; [| reflexivity].
  assert (H : selects m' t = false).
  { unfold selects in *. destruct m, m', (kind t); congruence. }
  now rewrite H.
Qed.

Lemma has_setEnabled m m' v s : has m' (setEnabled m v s) = has m' s.
Proof.
  unfold has, setEnabled. induction s as [| t s IH]; cbn [map existsb]; [reflexivity |].
  now rewrite IH, selects_written.
Qed.

End TracksMore.

(** X14: reading back what [setEnabled] wrote. After
    [setEnabled(method, value)], [getEnabled(method)] is [value] only if
    the peer sends a track of that kind; without one it is [false] whatever
    was written. *)
Theorem setEnabled_read_back (m : Tracks.Method) (v : bool)
    (senders : list Tracks.LocalTrack) :
  Tracks.getEnabled m (Tracks.setEnabled m v senders) = v && Tracks.has m senders.
Proof. apply getEnabled_setEnabled_same. Qed.

(** X15: [setEnabled] on one kind leaves the other kind alone, and changes
    neither which tracks are sent nor their order: kinds and ids are as
    before, and the reading of the other kind is unchanged. *)
Theorem setEnabled_other_kind (m m' : Tracks.Method) (v : bool)
    (senders : list Tracks.LocalTrack) :
  m <> m' ->
  Tracks.getEnabled m' (Tracks.setEnabled m v senders) = Tracks.getEnabled m' senders /\
  map Tracks.kind (Tracks.setEnabled m v senders) = map Tracks.kind senders /\
  map Tracks.id (Tracks.setEnabled m v senders) = map Tracks.id senders.
Proof.
  intros Hne. split; [now apply getEnabled_setEnabled_other |].
  unfold Tracks.setEnabled. rewrite !map_map.
  split; apply map_ext; intros t; now destruct (Tracks.selects m t).
Qed.

Lemma setEnabled_other_kind_witness :
  Tracks.getEnabled Tracks.getVideoTracks
    (Tracks.setEnabled Tracks.getAudioTracks true video_only) = false.
Proof.
  exact (proj1 (setEnabled_other_kind Tracks.getAudioTracks Tracks.getVideoTracks true
                  video_only ltac:(discriminate))).
Defined.

(** X16: the accessor pair [enable] / [enabled]. After [enable = value],
    [enabled] reads [value] only on a peer that sends both an audio and a
    video track; on any other peer it reads [false], also after
    [enable = true]. *)
Theorem enable_read_back (v : bool) (senders : list Tracks.LocalTrack) :
  Tracks.get_enabled (Tracks.set_enable v senders) =
  v && Tracks.has Tracks.getAudioTracks senders
    && Tracks.has Tracks.getVideoTracks senders.
Proof.
  unfold Tracks.get_enabled, Tracks.set_enable, Tracks.audioEnabled,
    Tracks.videoEnabled, Tracks.set_audioEnabled, Tracks.set_videoEnabled.
  rewrite getEnabled_setEnabled_same, has_setEnabled.
  rewrite getEnabled_setEnabled_other by discriminate.
  rewrite getEnabled_setEnabled_same.
  destruct v, (Tracks.has Tracks.getAudioTracks senders),
    (Tracks.has Tracks.getVideoTracks senders); reflexivity.
Qed.

(** ** [generateOffer] *)

Section OfferMore.

Variable br : Offer.Browser.

(** The loop over the transceivers writes them in order, and stops at the
    first write that raises: [k] writes succeeded, each on the list as the
    writes before it left it, and the next one, if there is one, raised. *)
Lemma force_sendonly_spec rest : forall before r ts,
  Offer.force_sendonly br before rest = (r, ts) ->
  exists k, (k <= length rest)%nat /\
    ts = (before ++ map sendonly_of (firstn k rest) ++ skipn k rest)%list /\
    (forall j, (j < k)%nat ->
       Offer.setDirection_result br
         (before ++ map sendonly_of (firstn j rest) ++ skipn j rest)%list
         (length before + j) = None) /\
    ((k < length rest)%nat ->
     exists e, r = Some e /\
       Offer.setDirection_result br ts (length before + k) = Some e) /\
    (r = None -> k = length rest).
Proof.
  induction rest as [| t rest IH]; intros before r ts H; cbn [Offer.force_sendonly] in H.
  - injection H as <- <-. exists 0%nat. cbn. rewrite app_nil_r.
    split; [lia |]. split; [reflexivity |]. split; [intros j Hj; lia |].
    split; [intros Hk; lia | reflexivity].
  - destruct (Offer.setDirection_result br (before ++ t :: rest)%list (length before))
      as [e |] eqn:Hset.
    + injection H as <- <-. exists 0%nat. cbn [firstn skipn map app length].
      split; [lia |]. split; [reflexivity |]. split; [intros j Hj; lia |].
      split; [| discriminate].
      intros _. exists e. split; [reflexivity |]. now rewrite Nat.add_0_r.
    + destruct (IH _ _ _ H) as (k & Hk & Hts & Hprev & Hnext & Hr).
      rewrite length_app in Hprev, Hnext. cbn [length] in Hprev, Hnext.
      exists (S k). cbn [length firstn skipn map]. split; [lia |]. split.
      * rewrite Hts, <- app_assoc. reflexivity.
      * split; [| split].
        -- intros [| j] Hj.
           ++ cbn [firstn skipn map app]. now rewrite Nat.add_0_r.
           ++ cbn [firstn skipn map].
              replace (length before + S j)%nat with (length before + 1 + j)%nat by lia.
              rewrite <- (Hprev j) by lia. now rewrite <- app_assoc.
        -- intros Hlt.
           replace (length before + S k)%nat with (length before + 1 + k)%nat by lia.
           apply Hnext. lia.
        -- intros Hn. now rewrite (Hr Hn).
Qed.

Lemma addTransceiver_spec k st r st' :
  Offer.addTransceiver br k st = (r, st') ->
  Offer.mode st' = Offer.mode st /\ Offer.useAudio st' = Offer.useAudio st /\
  Offer.useVideo st' = Offer.useVideo st /\ Offer.handed st' = Offer.handed st /\
  Offer.peer st' = Offer.peer st /\
  (r = None ->
   Offer.transceivers st' =
   (Offer.transceivers st ++
    [{| Offer.media := k; Offer.direction := Offer.dir_recvonly |}])%list).
Proof.
  unfold Offer.addTransceiver.
  destruct (Offer.addTransceiver_result br (Offer.transceivers st) k);
    intros H; injection H as <- <-; cbn; repeat (split; [reflexivity |]);
    intros Hn; congruence.
Qed.

(** The set-up touches the transceivers only. *)
Lemma prepare_frame st r st' :
  Offer.prepare br st = (r, st') ->
  Offer.mode st' = Offer.mode st /\ Offer.handed st' = Offer.handed st /\
  Offer.peer st' = Offer.peer st.
Proof.
  unfold Offer.prepare. destruct (Offer.mode st) eqn:Hm.
  - destruct (Offer.useAudio st) eqn:Ha.
    + destruct (Offer.addTransceiver br audio st) as [r1 st1] eqn:H1.
      destruct (addTransceiver_spec _ _ _ _ H1) as (A1 & A2 & A3 & A4 & A5 & _).
      destruct r1 as [e |].
      * intros H; injection H as <- <-. rewrite A1, A4, A5. now rewrite Hm.
      * destruct (Offer.useVideo st1).
        -- intros H2. destruct (addTransceiver_spec _ _ _ _ H2) as (B1 & _ & _ & B4 & B5 & _).
           rewrite B1, B4, B5, A1, A4, A5. now rewrite Hm.
        -- intros H; injection H as <- <-. rewrite A1, A4, A5. now rewrite Hm.
    + destruct (Offer.useVideo st).
      * intros H2. destruct (addTransceiver_spec _ _ _ _ H2) as (B1 & _ & _ & B4 & B5 & _).
        rewrite B1, B4, B5. now rewrite Hm.
      * intros H; injection H as <- <-. now rewrite Hm.
  - destruct (Offer.force_sendonly br [] (Offer.transceivers st)) as [r0 ts].
    intros H; injection H as <- <-. cbn. now rewrite Hm.
  - intros H; injection H as <- <-. now rewrite Hm.
Qed.

(** The transceivers after a set-up that raised nothing, by mode. *)
Lemma prepare_ok st st' :
  Offer.prepare br st = (None, st') ->
  Offer.transceivers st' =
  match Offer.mode st with
  | Offer.recvonly => (Offer.transceivers st ++ requested st)%list
  | Offer.sendonly => map sendonly_of (Offer.transceivers st)
  | Offer.sendrecv => Offer.transceivers st
  end.
Proof.
  unfold Offer.prepare, requested. destruct (Offer.mode st).
  - destruct (Offer.useAudio st) eqn:Ha.
    + destruct (Offer.addTransceiver br audio st) as [r1 st1] eqn:H1.
      destruct (addTransceiver_spec _ _ _ _ H1) as (_ & _ & A3 & _ & _ & A6).
      destruct r1 as [e |]; [discriminate |]. rewrite A3.
      destruct (Offer.useVideo st).
      * intros H2. destruct (addTransceiver_spec _ _ _ _ H2) as (_ & _ & _ & _ & _ & B6).
        rewrite (B6 eq_refl), (A6 eq_refl), <- app_assoc. reflexivity.
      * intros H; injection H as <-. rewrite (A6 eq_refl). reflexivity.
    + destruct (Offer.useVideo st).
      * intros H2. destruct (addTransceiver_spec _ _ _ _ H2) as (_ & _ & _ & _ & _ & B6).
        now rewrite (B6 eq_refl).
      * intros H; injection H as <-. now rewrite app_nil_r.
  - destruct (Offer.force_sendonly br [] (Offer.transceivers st)) as [r0 ts] eqn:Hf.
    intros H; injection H as -> <-. cbn.
    destruct (force_sendonly_spec _ _ _ _ Hf) as (k & _ & Hts & _ & _ & Hk).
    rewrite Hts, (Hk eq_refl), firstn_all, skipn_all. cbn. now rewrite app_nil_r.
  - intros H; now injection H as <-.
Qed.

(** Past the set-up, [generateOffer] leaves the transceivers alone. *)
Lemma generateOffer_transceivers st r st1 :
  Offer.prepare br st = (r, st1) ->
  Offer.transceivers (snd (Offer.generateOffer br st)) = Offer.transceivers st1.
Proof.
  intros Hp. unfold Offer.generateOffer. rewrite Hp.
  destruct r as [e |]; [reflexivity |].
  destruct (Offer.createOffer_result br _ _) as [e | created]; [reflexivity |].
  destruct (mangleSdpToAddSimulcast _ _ created) as [offer_ out].
  destruct (Offer.setLocalDescription_result br _ offer_) as [e | [d |]]; reflexivity.
Qed.

Lemma generateOffer_prepared st s :
  fst (Offer.generateOffer br st) = Peer.Returned s ->
  exists st1, Offer.prepare br st = (None, st1).
Proof.
  unfold Offer.generateOffer.
  destruct (Offer.prepare br st) as [[e |] st1]; [discriminate |].
  intros _. now exists st1.
Qed.

End OfferMore.

(** X17: the transceivers after an offer. When [generateOffer] returns a
    payload, a 'recvonly' peer has gained one receive-only transceiver for
    each of audio and video that its constraints ask for (on every call,
    also when it has them already), a 'sendonly' peer has every transceiver
    set to send only, media and order kept, and a 'sendrecv' peer has its
    transceivers untouched. *)
Theorem generateOffer_transceivers_by_mode (br : Offer.Browser) (st : Offer.State)
    (s : string) :
  fst (Offer.generateOffer br st) = Peer.Returned s ->
  Offer.transceivers (snd (Offer.generateOffer br st)) =
  match Offer.mode st with
  | Offer.recvonly => (Offer.transceivers st ++ requested st)%list
  | Offer.sendonly => map sendonly_of (Offer.transceivers st)
  | Offer.sendrecv => Offer.transceivers st
  end.
Proof.
  intros Hr. destruct (generateOffer_prepared br st s Hr) as (st1 & Hp).
  rewrite (generateOffer_transceivers br st None st1 Hp).
  exact (prepare_ok br st st1 Hp).
Qed.

Lemma generateOffer_transceivers_by_mode_witness :
  Offer.transceivers
    (snd (Offer.generateOffer offering_browser
            (snd (Offer.generateOffer offering_browser (offering_state Offer.recvonly)))))
  = (Offer.transceivers (offering_state Offer.recvonly) ++
     [ {| Offer.media := audio; Offer.direction := Offer.dir_recvonly |};
       {| Offer.media := audio; Offer.direction := Offer.dir_recvonly |} ])%list.
Proof.
  rewrite (generateOffer_transceivers_by_mode offering_browser
             (snd (Offer.generateOffer offering_browser (offering_state Offer.recvonly)))
             "v=0 offer" eq_refl).
  rewrite (generateOffer_transceivers_by_mode offering_browser
             (offering_state Offer.recvonly) "v=0 offer" eq_refl).
  reflexivity.
Defined.

(** X18: a 'sendonly' peer whose offer fails. The directions are written
    in order, each on the transceivers as the writes before it left them,
    and the loop stops at the first write that raises: whatever the
    outcome of [generateOffer], the transceivers are the earlier ones with
    exactly the transceivers before that write set to send only (all of
    them when no write raises), and when a write raises [generateOffer]
    fails with what it raised, the transceivers before it staying
    changed. *)
Theorem generateOffer_sendonly_partial (br : Offer.Browser) (st : Offer.State) :
  Offer.mode st = Offer.sendonly ->
  exists k, (k <= length (Offer.transceivers st))%nat /\
    Offer.transceivers (snd (Offer.generateOffer br st)) =
      sendonly_upto k (Offer.transceivers st) /\
    (forall j, (j < k)%nat ->
       Offer.setDirection_result br (sendonly_upto j (Offer.transceivers st)) j = None) /\
    ((k < length (Offer.transceivers st))%nat ->
     exists e,
       Offer.setDirection_result br (sendonly_upto k (Offer.transceivers st)) k
         = Some e /\
       fst (Offer.generateOffer br st) = Peer.Threw e).
Proof.
  intros Hm.
  destruct (Offer.prepare br st) as [r st1] eqn:Hp.
  rewrite (generateOffer_transceivers br st r st1 Hp).
  assert (Hgen : forall e, r = Some e -> fst (Offer.generateOffer br st) = Peer.Threw e).
  { intros e ->. unfold Offer.generateOffer. now rewrite Hp. }
  unfold Offer.prepare in Hp. rewrite Hm in Hp.
  destruct (Offer.force_sendonly br [] (Offer.transceivers st)) as [r0 ts] eqn:Hf.
  injection Hp as <- <-. cbn [Offer.transceivers Offer.with_transceivers].
  destruct (force_sendonly_spec br _ _ _ _ Hf) as (k & Hk & Hts & Hprev & Hnext & _).
  cbn [app length Nat.add] in Hts, Hprev, Hnext.
  exists k. split; [exact Hk |]. split; [exact Hts |]. split; [exact Hprev |].
  intros Hlt. destruct (Hnext Hlt) as (e & Hr & He).
  exists e. split; [unfold sendonly_upto; now rewrite <- Hts | now apply Hgen].
Qed.

Lemma generateOffer_sendonly_partial_witness :
  Offer.transceivers
    (snd (Offer.generateOffer second_write_fails (offering_state Offer.sendonly))) =
  [ {| Offer.media := audio; Offer.direction := Offer.dir_sendonly |};
    {| Offer.media := video; Offer.direction := Offer.dir_sendrecv |} ].
Proof.
  destruct (generateOffer_sendonly_partial second_write_fails
              (offering_state Offer.sendonly) eq_refl)
    as (k & Hk & Hts & Hprev & Hnext).
  destruct k as [| [| [| k]]].
  - destruct (Hnext ltac:(cbn; lia)) as (e & He & _). discriminate He.
  - exact Hts.
  - specialize (Hprev 1%nat ltac:(lia)). discriminate Hprev.
  - cbn in Hk. lia.
Defined.

(** X19: what [generateOffer] hands to [setLocalDescription]. Either the
    set-up and [createOffer] both succeed, and then exactly one description
    is handed over, of the type [createOffer] gave and, without simulcast,
    the created offer itself; or nothing is handed over and the call ends
    in an error. *)
Theorem generateOffer_hands_one_offer (br : Offer.Browser) (st : Offer.State) :
  let r := Offer.generateOffer br st in
  (exists st1 created d,
     Offer.prepare br st = (None, st1) /\
     Offer.createOffer_result br (Peer.peerConnection (Offer.peer st))
       (Offer.transceivers st1) = inr created /\
     Offer.handed (snd r) = (Offer.handed st ++ [d])%list /\
     type d = type created /\
     (Peer.simulcast (Offer.peer st) = false -> d = created)) \/
  (Offer.handed (snd r) = Offer.handed st /\ exists e, fst r = Peer.Threw e).
Proof.
  intros r. subst r. unfold Offer.generateOffer.
  destruct (Offer.prepare br st) as [r st1] eqn:Hp.
  destruct (prepare_frame br st r st1 Hp) as (_ & Hh & Hpeer).
  destruct r as [e |].
  { right. cbn. split; [exact Hh | now exists e]. }
  rewrite Hpeer.
  destruct (Offer.createOffer_result br (Peer.peerConnection (Offer.peer st))
              (Offer.transceivers st1)) as [e | created] eqn:Hc.
  { right. cbn. split; [exact Hh | now exists e]. }
  left.
  assert (Hm : exists d out,
    mangleSdpToAddSimulcast (Peer.simulcast (Offer.peer st))
      (Peer.videoStream (Offer.peer st)) created = (d, out) /\
    type d = type created /\
    (Peer.simulcast (Offer.peer st) = false -> d = created)).
  { unfold mangleSdpToAddSimulcast.
    destruct (Peer.simulcast (Offer.peer st)).
    - destruct (getSimulcastInfo (Peer.videoStream (Offer.peer st))) as [info warns].
      eexists _, _. split; [reflexivity |]. split; [reflexivity | discriminate].
    - eexists _, _. split; [reflexivity |]. now split. }
  destruct Hm as (d & out & Hm & Ht & Hs). rewrite Hm.
  exists st1, created, d. split; [reflexivity |]. split; [exact Hc |].
  split; [| split; [exact Ht | exact Hs]].
  destruct (Offer.setLocalDescription_result br _ d) as [e | [l |]];
    cbn; now rewrite Hh.
Qed.

(** ** [start] *)

Section StartMore.

Variable dev : Start.Devices.

(** Attaching tracks appends them to the senders, in order, up to the
    first one refused, and touches nothing else. *)
Lemma addTracks_spec ts : forall st r st',
  Start.addTracks dev ts st = (r, st') ->
  Start.videoStream st' = Start.videoStream st /\
  Start.audioStream st' = Start.audioStream st /\
  Start.localVideo st' = Start.localVideo st /\
  signalingState (Start.peerConnection st') = signalingState (Start.peerConnection st) /\
  exists k, (k <= length ts)%nat /\
    senders (Start.peerConnection st') =
      (senders (Start.peerConnection st) ++ firstn k ts)%list /\
    (r = None -> k = length ts).
Proof.
  induction ts as [| t ts IH]; intros st r st' H; cbn [Start.addTracks] in H.
  - injection H as <- <-. repeat (split; [reflexivity |]).
    exists 0%nat. cbn. rewrite app_nil_r. now split.
  - destruct (Start.addTrack_result dev (Start.peerConnection st) t) as [e |].
    + injection H as <- <-. repeat (split; [reflexivity |]).
      exists 0%nat. cbn. rewrite app_nil_r. split; [lia |]. now split.
    + destruct (IH _ _ _ H) as (A1 & A2 & A3 & A4 & k & Hk & Hs & Hr).
      cbn in A1, A2, A3, A4, Hs.
      split; [exact A1 |]. split; [exact A2 |]. split; [exact A3 |].
      split; [exact A4 |].
      exists (S k). cbn [length firstn]. split; [lia |]. split.
      * rewrite Hs, <- app_assoc. reflexivity.
      * intros Hn. now rewrite (Hr Hn).
Qed.

(** Acquiring a source writes [videoStream] only. *)
Lemma acquire_frame st :
  Start.peerConnection (snd (Start.acquire dev st)) = Start.peerConnection st /\
  Start.localVideo (snd (Start.acquire dev st)) = Start.localVideo st /\
  Start.audioStream (snd (Start.acquire dev st)) = Start.audioStream st.
Proof.
  unfold Start.acquire.
  destruct (Start.mode st), (Start.videoStream st), (Start.audioStream st) eqn:Ha;
    cbv zeta; try (now cbn; rewrite ?Ha);
    destruct (if String.eqb (Start.sendSource st) "webcam"
              then Start.getUserMedia_result dev
                     match Start.mediaConstraints st with
                     | Some c => c
                     | None => Start.MEDIA_CONSTRAINTS
                     end
              else Start.getScreenConstraints dev); now cbn; rewrite ?Ha.
Qed.

Lemma showLocalVideo_frame st :
  Start.peerConnection (Start.showLocalVideo st) = Start.peerConnection st /\
  Start.videoStream (Start.showLocalVideo st) = Start.videoStream st /\
  Start.audioStream (Start.showLocalVideo st) = Start.audioStream st.
Proof. unfold Start.showLocalVideo. now destruct (Start.localVideo st). Qed.

End StartMore.

Lemma acquire_supplied (dev : Start.Devices) (st : Start.State) :
  supplied st -> Start.acquire dev st = (None, st).
Proof.
  unfold supplied, Start.acquire. intros [Hm | [Hv | Ha]].
  - rewrite Hm. now destruct (Start.videoStream st), (Start.audioStream st).
  - destruct (Start.videoStream st); [| now destruct Hv].
    now destruct (Start.mode st), (Start.audioStream st).
  - destruct (Start.audioStream st); [| now destruct Ha].
    now destruct (Start.mode st), (Start.videoStream st).
Qed.

Lemma addTracks_ext (dev dev' : Start.Devices) ts :
  Start.addTrack_result dev = Start.addTrack_result dev' ->
  forall st, Start.addTracks dev ts st = Start.addTracks dev' ts st.
Proof.
  intros He. induction ts as [| t ts IH]; intros st; cbn [Start.addTracks];
    [reflexivity |].
  rewrite He. destruct (Start.addTrack_result dev' (Start.peerConnection st) t);
    [reflexivity | apply IH].
Qed.

(** [start] depends on the devices only through the source it acquires
    and through [addTrack]. *)
Lemma start_ext (dev dev' : Start.Devices) (st : Start.State) :
  Start.addTrack_result dev = Start.addTrack_result dev' ->
  Start.acquire dev st = Start.acquire dev' st ->
  Start.start dev st = Start.start dev' st.
Proof.
  intros He Ha. unfold Start.start. rewrite Ha.
  destruct (Start.acquire dev' st) as [[e |] st1]; [reflexivity |].
  assert (H1 :
    match Start.videoStream st1 with
    | Some stream =>
        Start.addTracks dev (stream_tracks stream) (Start.showLocalVideo st1)
    | None => (None, st1)
    end =
    match Start.videoStream st1 with
    | Some stream =>
        Start.addTracks dev' (stream_tracks stream) (Start.showLocalVideo st1)
    | None => (None, st1)
    end).
  { destruct (Start.videoStream st1); [now apply addTracks_ext | reflexivity]. }
  rewrite H1.
  destruct (match Start.videoStream st1 with
            | Some stream =>
                Start.addTracks dev' (stream_tracks stream) (Start.showLocalVideo st1)
            | None => (None, st1)
            end) as [[e |] st2].
  - reflexivity.
  - destruct (Start.audioStream st2) as [a |]; [| reflexivity].
    now rewrite (addTracks_ext dev dev' (stream_tracks a) He st2).
Qed.

(** X20: [start] on a closed connection. The source is acquired before the
    state of the connection is examined: on a closed connection [start]
    ends in an error, attaches no track and leaves the local video element
    alone, but the peer keeps the stream it has just acquired. *)
Theorem start_on_closed_connection (dev : Start.Devices) (st : Start.State) :
  signalingState (Start.peerConnection st) = closed ->
  let r := Start.start dev st in
  fst r = Peer.Threw (match fst (Start.acquire dev st) with
                      | Some e => e
                      | None => Error Start.CLOSED_EARLY
                      end) /\
  snd r = snd (Start.acquire dev st) /\
  Start.peerConnection (snd r) = Start.peerConnection st /\
  Start.localVideo (snd r) = Start.localVideo st.
Proof.
  intros Hc r. subst r. unfold Start.start.
  destruct (acquire_frame dev st) as (Hpc & Hlv & _).
  destruct (Start.acquire dev st) as [[e |] st1]; cbn [fst snd] in *.
  - now repeat split.
  - rewrite Hpc, Hc. cbn [fst snd]. now repeat split.
Qed.

Lemma start_on_closed_connection_witness :
  Start.videoStream
    (snd (Start.start sample_devices (starting_state Offer.sendrecv None closed)))
  = Some sample_stream /\
  senders (Start.peerConnection
    (snd (Start.start sample_devices (starting_state Offer.sendrecv None closed))))
  = [].
Proof.
  destruct (start_on_closed_connection sample_devices
              (starting_state Offer.sendrecv None closed) eq_refl)
    as (_ & Hs & Hpc & _).
  split.
  - exact (f_equal Start.videoStream Hs).
  - exact (f_equal senders Hpc).
Defined.

(** X21: a peer that receives only, or that was given a stream, never
    asks for the camera or the screen: [start] ends the same way and in
    the same state whatever the capture devices would have answered. *)
Theorem start_supplied_asks_nothing (dev dev' : Start.Devices) (st : Start.State) :
  supplied st ->
  Start.addTrack_result dev = Start.addTrack_result dev' ->
  Start.start dev st = Start.start dev' st.
Proof.
  intros Hs He. apply start_ext; [exact He |].
  now rewrite !(acquire_supplied _ st Hs).
Qed.

Lemma start_supplied_asks_nothing_witness :
  Start.start denied_devices (starting_state Offer.sendonly (Some screen_stream) stable)
  = Start.start sample_devices (starting_state Offer.sendonly (Some screen_stream) stable).
Proof.
  apply (start_supplied_asks_nothing denied_devices sample_devices
           (starting_state Offer.sendonly (Some screen_stream) stable)).
  - right. left. discriminate.
  - reflexivity.
Defined.

(** [start] past its check of the connection. *)
Lemma start_open (dev : Start.Devices) (st st1 : Start.State) :
  Start.acquire dev st = (None, st1) ->
  signalingState (Start.peerConnection st1) <> closed ->
  Start.start dev st =
  let '(r2, st2) :=
    match Start.videoStream st1 with
    | Some stream =>
        Start.addTracks dev (stream_tracks stream) (Start.showLocalVideo st1)
    | None => (None, st1)
    end in
  match r2 with
  | Some e => (Peer.Threw e, st2)
  | None =>
      match Start.audioStream st2 with
      | Some stream =>
          match Start.addTracks dev (stream_tracks stream) st2 with
          | (Some e, st3) => (Peer.Threw e, st3)
          | (None, st3) => (Peer.Returned tt, st3)
          end
      | None => (Peer.Returned tt, st2)
      end
  end.
Proof.
  intros Ha Hs. unfold Start.start. rewrite Ha.
  destruct (signalingState (Start.peerConnection st1)); try (now destruct Hs);
    reflexivity.
Qed.

Lemma start_returned (dev : Start.Devices) (st : Start.State) :
  fst (Start.start dev st) = Peer.Returned tt ->
  exists st1, Start.acquire dev st = (None, st1) /\
    signalingState (Start.peerConnection st1) <> closed.
Proof.
  unfold Start.start.
  destruct (Start.acquire dev st) as [[e |] st1]; [discriminate |].
  intros H. exists st1. split; [reflexivity |].
  intros Hc. rewrite Hc in H. discriminate.
Qed.

(** X22: what a successful [start] attaches. When [start] completes, the
    senders of the connection are the earlier ones followed by the tracks
    of the video stream (given or just acquired) and then those of the
    audio stream, each in the order of its stream; this holds in every
    mode, also for a 'recvonly' peer that was given a stream. The local
    video element, if there is one and there is a video stream, shows that
    stream muted; the state of the connection is unchanged. *)
Theorem start_attaches_tracks (dev : Start.Devices) (st : Start.State) :
  fst (Start.start dev st) = Peer.Returned tt ->
  let st' := snd (Start.start dev st) in
  senders (Start.peerConnection st') =
    (senders (Start.peerConnection st) ++
     tracks_of (Start.videoStream st') ++ tracks_of (Start.audioStream st))%list /\
  signalingState (Start.peerConnection st') = signalingState (Start.peerConnection st) /\
  Start.localVideo st' =
    match Start.videoStream st', Start.localVideo st with
    | Some stream, Some v =>
        Some {| Peer.paused := Peer.paused v;
                Peer.srcObject := Some (stream_tracks stream);
                Peer.muted := true;
                Peer.loads := Peer.loads v |}
    | _, _ => Start.localVideo st
    end.
Proof.
  intros Hr st'. subst st'.
  destruct (start_returned dev st Hr) as (st1 & Ha & Hopen).
  destruct (acquire_frame dev st) as (Hpc & Hlv & Hau).
  rewrite Ha in Hpc, Hlv, Hau. cbn [snd] in Hpc, Hlv, Hau.
  rewrite (start_open dev st st1 Ha Hopen) in *.
  destruct (Start.videoStream st1) as [v |] eqn:Hv.
  - destruct (showLocalVideo_frame st1) as (S1 & S2 & S3).
    destruct (Start.addTracks dev (stream_tracks v) (Start.showLocalVideo st1))
      as [r2 st2] eqn:H2.
    destruct (addTracks_spec dev _ _ _ _ H2) as (A1 & A2 & A3 & A4 & k & _ & As & Ak).
    destruct r2 as [e |]; [discriminate |].
    rewrite (Ak eq_refl), firstn_all, S1, Hpc in As.
    rewrite S1, Hpc in A4. rewrite S2, Hv in A1. rewrite S3, Hau in A2.
    assert (Hshow : Start.localVideo st2 =
      match Start.localVideo st with
      | Some v0 =>
          Some {| Peer.paused := Peer.paused v0;
                  Peer.srcObject := Some (stream_tracks v);
                  Peer.muted := true;
                  Peer.loads := Peer.loads v0 |}
      | None => None
      end).
    { rewrite A3. unfold Start.showLocalVideo. rewrite Hlv.
      destruct (Start.localVideo st) as [v0 |]; cbn; [| exact Hlv].
      now rewrite Hv. }
    rewrite A2 in *.
    destruct (Start.audioStream st) as [a |].
    + destruct (Start.addTracks dev (stream_tracks a) st2) as [r3 st3] eqn:H3.
      destruct (addTracks_spec dev _ _ _ _ H3) as (B1 & _ & B3 & B4 & k' & _ & Bs & Bk).
      destruct r3 as [e |]; [discriminate |]. cbn [fst snd] in *.
      rewrite (Bk eq_refl), firstn_all, As in Bs.
      rewrite B1, A1, B4, A4, B3, Hshow. cbn [tracks_of].
      split; [now rewrite Bs, <- app_assoc |]. split; [reflexivity |].
      now destruct (Start.localVideo st).
    + cbn [fst snd] in *. rewrite A1, A4, Hshow. cbn [tracks_of].
      split; [now rewrite As, app_nil_r |]. split; [reflexivity |].
      now destruct (Start.localVideo st).
  - rewrite Hau in *.
    destruct (Start.audioStream st) as [a |].
    + destruct (Start.addTracks dev (stream_tracks a) st1) as [r3 st3] eqn:H3.
      destruct (addTracks_spec dev _ _ _ _ H3) as (B1 & _ & B3 & B4 & k' & _ & Bs & Bk).
      destruct r3 as [e |]; [discriminate |]. cbn [fst snd] in *.
      rewrite (Bk eq_refl), firstn_all, Hpc in Bs.
      rewrite B1, Hv, B4, B3, Hpc, Hlv. cbn [tracks_of app].
      split; [exact Bs |]. now split.
    + cbn [fst snd] in *. rewrite Hv, Hpc, Hlv. cbn [tracks_of app].
      split; [now rewrite app_nil_r |]. now split.
Qed.

Lemma start_attaches_tracks_witness :
  senders (Start.peerConnection
    (snd (Start.start denied_devices
            (starting_state Offer.recvonly (Some screen_stream) stable))))
  = stream_tracks screen_stream.
Proof.
  exact (proj1 (start_attaches_tracks denied_devices
                  (starting_state Offer.recvonly (Some screen_stream) stable)
                  eq_refl)).
Defined.

(** ** Negotiation after [dispose] *)

(** X23: negotiation after [dispose]. Once a live peer has been disposed
    of with nothing raised in the guarded block, [processAnswer] and
    [processOffer] reject with the closed-connection error before they
    reach the browser: they write their debug line and change nothing
    else. *)
Theorem negotiation_after_dispose (flt : Peer.Faults) (br : Browser)
    (p : Peer.WebRtcPeer) (s : string) :
  closes_cleanly flt ->
  Peer.dataChannel p <> Some Peer.dc_closed ->
  signalingState (Peer.peerConnection p) <> closed ->
  let q := snd (Peer.dispose flt p) in
  Answer.processAnswer br s q =
    (Peer.Threw (Error "PeerConnection is closed"),
     Peer.log LogDebug "SDP answer received, setting remote description" q) /\
  Peer.processOffer br s q =
    (Peer.Threw (Error "PeerConnection is closed"),
     Peer.log LogDebug "SDP offer received, setting remote description" q).
Proof.
  intros Hc Hdc Hs q.
  destruct (dispose_clean_state flt p Hc Hdc Hs) as (Hclosed & _).
  fold q in Hclosed.
  unfold Answer.processAnswer, Peer.processOffer. cbn [Peer.log Peer.peerConnection].
  now rewrite Hclosed.
Qed.

Lemma negotiation_after_dispose_witness :
  fst (Answer.processAnswer sample_browser "v=0 answer"
         (snd (Peer.dispose Peer.no_faults
                 (sample_peer have_local_offer None [Peer.release_media]))))
  = Peer.Threw (Error "PeerConnection is closed") /\
  fst (Answer.processAnswer sample_browser "v=0 answer"
         (sample_peer have_local_offer None [Peer.release_media]))
  = Peer.Returned tt.
Proof.
  split; [| reflexivity].
  apply (f_equal fst
           (proj1 (negotiation_after_dispose Peer.no_faults sample_browser
                     (sample_peer have_local_offer None [Peer.release_media])
                     "v=0 answer"
                     (conj eq_refl (conj eq_refl (conj (fun _ => eq_refl) eq_refl)))
                     ltac:(discriminate) ltac:(discriminate)))).
Defined.
